(** * DRE: the parallel model-fitting engine and the cutout ids it consumes

    A shallow embedding of [DRE/core/dre_cpu.py] (classes [ModelCPU] and
    [Parallelize]) and of the part of [DRE/core/cuts.py] that names the
    objects of a cutout archive ([Cutter.cut_image]).

    Conventions
    - Python [str] values are [string]s (ASCII); Python [int]s are [Z].
    - A numpy array is a shape together with its cells in C order; a cell
      is an IEEE-754 datum of [SpecFloat.spec_float].
    - A dict with string keys is a [gmap string _]; an HDF5 archive is an
      association list.
    - Threads and processes are interleaved by an explicit schedule; every
      actor has its own program counter and one [step] is one atomic action
      on the shared queues, the event and the files. *)

From Stdlib Require Import ZArith Ascii String List Bool Lia.
From Stdlib Require Import Floats.SpecFloat.
From stdpp Require Import base option list gmap strings sorting.
Import ListNotations.

Local Open Scope string_scope.
Local Open Scope list_scope.
Local Open Scope Z_scope.

(** ** Python string primitives used by the engine *)

Module PyStr.

Definition underscore : ascii := "_"%char.
Definition minus : ascii := "-"%char.
Definition plus : ascii := "+"%char.
Definition zero : ascii := "0"%char.

(** [c.isdigit()] restricted to ASCII. *)
Definition is_digit (c : ascii) : bool :=
  let n := N_of_ascii c in ((48 <=? n) && (n <=? 57))%N.

Definition digit_val (c : ascii) : Z := Z.of_N (N_of_ascii c) - 48.

Definition digit_char (d : Z) : ascii := ascii_of_N (Z.to_N (48 + d)).

(** The characters [int()] skips around a literal in an ASCII string:
    the C [isspace] set, that is the space and the five controls from tab
    to carriage return. *)
Definition is_space (c : ascii) : bool :=
  let n := N_of_ascii c in
  ((n =? 32) || ((9 <=? n) && (n <=? 13)))%N.

(** [s.split(sep)] for a one-character separator: one more part than
    there are separators, empty parts kept. *)
Fixpoint split (sep : ascii) (s : string) : list string :=
  match s with
  | EmptyString => [EmptyString]
  | String c s' =>
      if Ascii.eqb c sep then EmptyString :: split sep s'
      else match split sep s' with
           | p :: ps => String c p :: ps
           | [] => [String c EmptyString]
           end
  end.

Fixpoint lstrip (s : string) : string :=
  match s with
  | String c s' => if is_space c then lstrip s' else s
  | EmptyString => EmptyString
  end.

Fixpoint all_space (s : string) : bool :=
  match s with
  | EmptyString => true
  | String c s' => is_space c && all_space s'
  end.

(** The digits of a base-10 literal after its first digit: further
    digits, single underscores between digits, then optional trailing
    white space. *)
Fixpoint int_digits (acc : Z) (s : string) : option Z :=
  match s with
  | EmptyString => Some acc
  | String c s' =>
      if is_digit c then int_digits (10 * acc + digit_val c) s'
      else if Ascii.eqb c underscore then
        match s' with
        | String d s'' =>
            if is_digit d then int_digits (10 * acc + digit_val d) s''
            else None
        | EmptyString => None
        end
      else if all_space s then Some acc
      else None
  end.

Definition int_unsigned (s : string) : option Z :=
  match s with
  | String c s' => if is_digit c then int_digits (digit_val c) s' else None
  | EmptyString => None
  end.

(** [int(s)]: [None] stands for [ValueError].  The cap on the number of
    digits that recent interpreters put on this conversion is left out:
    the numbers met here are machine integers of a catalogue. *)
Definition int (s : string) : option Z :=
  match lstrip s with
  | String c s' =>
      if Ascii.eqb c minus then Z.opp <$> int_unsigned s'
      else if Ascii.eqb c plus then int_unsigned s'
      else int_unsigned (String c s')
  | EmptyString => None
  end.

(** Decimal digits of a non-negative integer, most significant first,
    pushed in front of [acc]. *)
Fixpoint dec_digits (fuel : nat) (n : Z) (acc : string) : string :=
  let acc' := String (digit_char (n mod 10)) acc in
  match fuel with
  | O => acc'
  | S f => if n / 10 =? 0 then acc' else dec_digits f (n / 10) acc'
  end.

Definition str_of_nonneg (n : Z) : string :=
  dec_digits (Z.to_nat (Z.log2 n)) n EmptyString.

Fixpoint zeros (k : nat) (s : string) : string :=
  match k with
  | O => s
  | S k' => String zero (zeros k' s)
  end.

(** [format(n, '0{w}d')]: sign-aware zero padding to a minimum width. *)
Definition format_0d (w : nat) (n : Z) : string :=
  let ds := str_of_nonneg (Z.abs n) in
  if n <? 0 then String minus (zeros (w - 1 - String.length ds) ds)
  else zeros (w - String.length ds) ds.

(** A string whose first character is a decimal digit. *)
Definition digit_first (s : string) : Prop :=
  exists d rest, 0 <= d < 10 /\ s = String (digit_char d) rest.

(** No underscore anywhere in the string. *)
Fixpoint plain (s : string) : bool :=
  match s with
  | EmptyString => true
  | String c s' => negb (Ascii.eqb c underscore) && plain s'
  end.

End PyStr.

(** ** Data model *)

(** Exceptions the modelled code can raise. *)
Inductive exn :=
| FileNotFoundError
| ValueError
| TypeError
| KeyError
| AttributeError.

Inductive res (A : Type) :=
| Ok (a : A)
| Raise (e : exn).
Arguments Ok {A} a.
Arguments Raise {A} e.

(** Sequencing: the first exception raised ends the computation. *)
#[global] Instance res_bind : MBind res := fun A B k r =>
  match r with
  | Ok a => k a
  | Raise e => Raise e
  end.

(** A value that may be missing, with the exception its absence raises. *)
Definition or_raise {A : Type} (e : exn) (o : option A) : res A :=
  match o with
  | Some a => Ok a
  | None => Raise e
  end.

(** [a, b = l]: unpacking into exactly two names. *)
Definition unpack2 {A : Type} (l : list A) : res (A * A) :=
  match l with
  | [a; b] => Ok (a, b)
  | _ => Raise ValueError
  end.

Definition isnan (x : spec_float) : bool :=
  match x with
  | S754_nan => true
  | _ => false
  end.

(** A numpy array: its shape and its cells in C (row-major) order. *)
Record ndarray := mk_ndarray {
  shape : list nat;
  cells : list spec_float
}.

Definition prod (dims : list nat) : nat := fold_right Nat.mul 1%nat dims.

Definition well_shaped (a : ndarray) : Prop :=
  length (cells a) = prod (shape a).

(** [np.isnan(a).all()] *)
Definition all_nan (a : ndarray) : bool := forallb isnan (cells a).

(** [a.reshape(new_shape)]: [ValueError] when the sizes differ. *)
Definition reshape (new_shape : list nat) (a : ndarray) : res ndarray :=
  if (prod new_shape =? length (cells a))%nat
  then Ok (mk_ndarray new_shape (cells a))
  else Raise ValueError.

(** The [i]-th item met when an array of shape [n :: item_shape] is
    iterated over its first axis. *)
Definition slice (item_shape : list nat) (a : ndarray) (i : nat) : ndarray :=
  let k := prod item_shape in
  mk_ndarray item_shape (take k (drop (i * k) (cells a))).

Definition slices (a : ndarray) : list ndarray :=
  match shape a with
  | n :: item_shape => map (slice item_shape a) (seq 0 n)
  | [] => []
  end.

Definition shape_eqb (s1 s2 : list nat) : bool :=
  bool_decide (s1 = s2).

(** [np.array(list_of_arrays)]: stacks equally shaped arrays along a new
    first axis. *)
Definition np_array (l : list ndarray) : res ndarray :=
  match l with
  | [] => Ok (mk_ndarray [0%nat] [])
  | a :: _ =>
      if forallb (fun b => shape_eqb (shape b) (shape a)) l
      then Ok (mk_ndarray (length l :: shape a) (concat (map cells l)))
      else Raise ValueError
  end.

(** Values stored in a parameters dict. *)
Inductive pyval :=
| PInt (z : Z)
| PFloat (x : spec_float).

Abbreviation params := (gmap string pyval).

(** What the engine takes from outside this repository's two files.
    - [c_float]: the rounding of a cell stored as [ctypes.c_float] or
      written with [dtype='float32'];
    - [fftconvolve_same in1 in2]: [scipy.signal.fftconvolve(in1, in2,
      mode='same', axes=(-2, -1))];
    - [get_psf]: [DRE.misc.read_psf.get_psf], [None] when the file is not
      found ([FileNotFoundError]). *)
Record Externals := {
  c_float : spec_float -> spec_float;
  fftconvolve_same : ndarray -> ndarray -> ndarray;
  get_psf : string -> option ndarray
}.

(** [mode='same']: the output has the shape of the first input. *)
Definition mode_same (ext : Externals) : Prop :=
  forall in1 in2,
    shape (fftconvolve_same ext in1 in2) = shape in1 /\
    length (cells (fftconvolve_same ext in1 in2)) = length (cells in1).

(** Class [ModelCPU]: the attributes the engine reads and the methods it
    calls.  The methods inherited from [ModelsCube] ([dre_fit],
    [get_parameters], [make_mosaic]) are fields; [dre_fit] receives the
    convolved cube it reads from [self]. *)
Record ModelCPU := {
  models : ndarray;
  convolved_models : option ndarray;
  save_mosaics : bool;
  dre_fit : ndarray -> ndarray -> ndarray -> ndarray -> ndarray;
  get_parameters : ndarray -> params;
  make_mosaic : ndarray -> ndarray -> pyval * pyval * pyval -> ndarray
}.

Definition set_convolved (m : ModelCPU) (c : ndarray) : ModelCPU :=
  {| models := models m;
     convolved_models := Some c;
     save_mosaics := save_mosaics m;
     dre_fit := dre_fit m;
     get_parameters := get_parameters m;
     make_mosaic := make_mosaic m |}.

(** ** [ModelCPU] *)

(** [ModelCPU.to_shared_mem]: a [c_float] buffer of the same shape. *)
Definition to_shared_mem (ext : Externals) (a : ndarray) : ndarray :=
  mk_ndarray (shape a) (map (c_float ext) (cells a)).

(** [(np.prod(shape[:-2]), *shape[-2:])].  With fewer than three axes
    [np.prod] of the empty tuple is the float [1.0], which [reshape]
    refuses ([TypeError]). *)
Definition flatten_shape (s : list nat) : res (list nat) :=
  let lead := take (length s - 2) s in
  match lead with
  | [] => Raise TypeError
  | _ => Ok (prod lead :: drop (length s - 2) s)
  end.

(** [mp.Pool(n_proc)]: at least one process. *)
Definition pool (n_proc : nat) : res unit :=
  match n_proc with
  | O => Raise ValueError
  | S _ => Ok tt
  end.

(** [ModelCPU.convolve]: the model with [convolved_models] set. *)
Definition convolve (ext : Externals) (self : ModelCPU) (psf_file : string)
    (n_proc : nat) : res ModelCPU :=
  psf ← or_raise FileNotFoundError (get_psf ext psf_file);
  _ ← pool n_proc;
  fshape ← flatten_shape (shape (models self));
  flat ← reshape fshape (models self);
  let convolved :=
    map (fun img => fftconvolve_same ext img psf) (slices flat) in
  stacked ← np_array convolved;
  cube ← reshape (shape (models self)) stacked;
  Ok (set_convolved self (to_shared_mem ext cube)).

(** ** [Parallelize]: queues, messages and program counters *)

(** What travels on the input queue: a work item
    [(name, data, segment, noise)] or the string ['STOP']. *)
Inductive msg :=
| Item (name : string) (data segment noise : ndarray)
| STOP.

(** What travels on the output queue:
    [(name, success, chi_cube, parameters, mosaic)]. *)
Record result := mk_result {
  r_name : string;
  r_success : bool;
  r_chi_cube : ndarray;
  r_parameters : option params;
  r_mosaic : option ndarray
}.

(** One group of a cutout archive: datasets ['obj'], ['seg'], ['rms']. *)
Record cutout := mk_cutout {
  obj : ndarray;
  seg : ndarray;
  rms : ndarray
}.

(** Where [feed_workers] stands: at the [while] test (line 87), at the
    timed [put] (line 93), at the [if] after the loop (line 97), about to
    put one of the remaining sentinels (line 99), returned, or dead. *)
Inductive feeder_pc :=
| FLoop
| FPut
| FCheck
| FStop (remaining : nat)
| FDone
| FRaised (e : exn).

(** Where a [cpu_worker] process stands: in [input_queue.get] (line 67),
    holding an item (lines 68-80), between its [output_queue.put] and
    [task_done] (line 81), returned on ['STOP'], dead from an exception,
    or returned from its [KeyboardInterrupt] handler (line 83). *)
Inductive worker_pc :=
| WGet
| WFit (name : string) (data segment noise : ndarray)
| WAck
| WStopped
| WRaised (e : exn)
| WInterrupted.

(** A worker process and the copy of [model] it was started with. *)
Record process := mk_process {
  p_model : ModelCPU;
  p_pc : worker_pc
}.

(** Where [get_output] stands: at the [while] test (line 103), at the
    timed [get] (line 105), returned, or dead. *)
Inductive collector_pc :=
| CLoop
| CGet
| CDone
| CRaised (e : exn).

(** The [Parallelize] object, its two threads' locals, the files the
    threads write, and three history lists: every message ever put on
    the input queue, every message ever taken from it, and every result
    ever put on the output queue.
    - [table] is the [Summary] of the job under way, kept as the list of
      the rows appended to it ([DRE.core.results] is outside the two
      files embedded here);
    - [chi_files] maps the path of an output archive to its datasets in
      the order they were created, [mosaic_files] the path of a mosaic
      file to its image;
    - [in_acks] and [out_acks] count the [task_done] calls on each
      queue. *)
Record state := mk_state {
  terminate : bool;
  input_queue : list msg;
  output_queue : list result;
  feed_thread : feeder_pc;
  submitted : nat;
  processes : list process;
  output_thread : collector_pc;
  completed : nat;
  table : list (option params);
  chi_files : gmap string (list (string * ndarray));
  mosaic_files : gmap string (option ndarray);
  in_acks : nat;
  out_acks : nat;
  put_log : list msg;
  got_log : list msg;
  pushed_log : list result
}.

Definition set_terminate (v : bool) (st : state) : state :=
  {| terminate := v;
     input_queue := input_queue st;
     output_queue := output_queue st;
     feed_thread := feed_thread st;
     submitted := submitted st;
     processes := processes st;
     output_thread := output_thread st;
     completed := completed st;
     table := table st;
     chi_files := chi_files st;
     mosaic_files := mosaic_files st;
     in_acks := in_acks st;
     out_acks := out_acks st;
     put_log := put_log st;
     got_log := got_log st;
     pushed_log := pushed_log st |}.

Definition set_input_queue (v : list msg) (st : state) : state :=
  {| terminate := terminate st;
     input_queue := v;
     output_queue := output_queue st;
     feed_thread := feed_thread st;
     submitted := submitted st;
     processes := processes st;
     output_thread := output_thread st;
     completed := completed st;
     table := table st;
     chi_files := chi_files st;
     mosaic_files := mosaic_files st;
     in_acks := in_acks st;
     out_acks := out_acks st;
     put_log := put_log st;
     got_log := got_log st;
     pushed_log := pushed_log st |}.

Definition set_output_queue (v : list result) (st : state) : state :=
  {| terminate := terminate st;
     input_queue := input_queue st;
     output_queue := v;
     feed_thread := feed_thread st;
     submitted := submitted st;
     processes := processes st;
     output_thread := output_thread st;
     completed := completed st;
     table := table st;
     chi_files := chi_files st;
     mosaic_files := mosaic_files st;
     in_acks := in_acks st;
     out_acks := out_acks st;
     put_log := put_log st;
     got_log := got_log st;
     pushed_log := pushed_log st |}.

Definition set_feed_thread (v : feeder_pc) (st : state) : state :=
  {| terminate := terminate st;
     input_queue := input_queue st;
     output_queue := output_queue st;
     feed_thread := v;
     submitted := submitted st;
     processes := processes st;
     output_thread := output_thread st;
     completed := completed st;
     table := table st;
     chi_files := chi_files st;
     mosaic_files := mosaic_files st;
     in_acks := in_acks st;
     out_acks := out_acks st;
     put_log := put_log st;
     got_log := got_log st;
     pushed_log := pushed_log st |}.

Definition set_submitted (v : nat) (st : state) : state :=
  {| terminate := terminate st;
     input_queue := input_queue st;
     output_queue := output_queue st;
     feed_thread := feed_thread st;
     submitted := v;
     processes := processes st;
     output_thread := output_thread st;
     completed := completed st;
     table := table st;
     chi_files := chi_files st;
     mosaic_files := mosaic_files st;
     in_acks := in_acks st;
     out_acks := out_acks st;
     put_log := put_log st;
     got_log := got_log st;
     pushed_log := pushed_log st |}.

Definition set_processes (v : list process) (st : state) : state :=
  {| terminate := terminate st;
     input_queue := input_queue st;
     output_queue := output_queue st;
     feed_thread := feed_thread st;
     submitted := submitted st;
     processes := v;
     output_thread := output_thread st;
     completed := completed st;
     table := table st;
     chi_files := chi_files st;
     mosaic_files := mosaic_files st;
     in_acks := in_acks st;
     out_acks := out_acks st;
     put_log := put_log st;
     got_log := got_log st;
     pushed_log := pushed_log st |}.

Definition set_output_thread (v : collector_pc) (st : state) : state :=
  {| terminate := terminate st;
     input_queue := input_queue st;
     output_queue := output_queue st;
     feed_thread := feed_thread st;
     submitted := submitted st;
     processes := processes st;
     output_thread := v;
     completed := completed st;
     table := table st;
     chi_files := chi_files st;
     mosaic_files := mosaic_files st;
     in_acks := in_acks st;
     out_acks := out_acks st;
     put_log := put_log st;
     got_log := got_log st;
     pushed_log := pushed_log st |}.

Definition set_completed (v : nat) (st : state) : state :=
  {| terminate := terminate st;
     input_queue := input_queue st;
     output_queue := output_queue st;
     feed_thread := feed_thread st;
     submitted := submitted st;
     processes := processes st;
     output_thread := output_thread st;
     completed := v;
     table := table st;
     chi_files := chi_files st;
     mosaic_files := mosaic_files st;
     in_acks := in_acks st;
     out_acks := out_acks st;
     put_log := put_log st;
     got_log := got_log st;
     pushed_log := pushed_log st |}.

Definition set_table (v : list (option params)) (st : state) : state :=
  {| terminate := terminate st;
     input_queue := input_queue st;
     output_queue := output_queue st;
     feed_thread := feed_thread st;
     submitted := submitted st;
     processes := processes st;
     output_thread := output_thread st;
     completed := completed st;
     table := v;
     chi_files := chi_files st;
     mosaic_files := mosaic_files st;
     in_acks := in_acks st;
     out_acks := out_acks st;
     put_log := put_log st;
     got_log := got_log st;
     pushed_log := pushed_log st |}.

Definition set_chi_files (v : gmap string (list (string * ndarray))) (st : state) : state :=
  {| terminate := terminate st;
     input_queue := input_queue st;
     output_queue := output_queue st;
     feed_thread := feed_thread st;
     submitted := submitted st;
     processes := processes st;
     output_thread := output_thread st;
     completed := completed st;
     table := table st;
     chi_files := v;
     mosaic_files := mosaic_files st;
     in_acks := in_acks st;
     out_acks := out_acks st;
     put_log := put_log st;
     got_log := got_log st;
     pushed_log := pushed_log st |}.

Definition set_mosaic_files (v : gmap string (option ndarray)) (st : state) : state :=
  {| terminate := terminate st;
     input_queue := input_queue st;
     output_queue := output_queue st;
     feed_thread := feed_thread st;
     submitted := submitted st;
     processes := processes st;
     output_thread := output_thread st;
     completed := completed st;
     table := table st;
     chi_files := chi_files st;
     mosaic_files := v;
     in_acks := in_acks st;
     out_acks := out_acks st;
     put_log := put_log st;
     got_log := got_log st;
     pushed_log := pushed_log st |}.

Definition set_in_acks (v : nat) (st : state) : state :=
  {| terminate := terminate st;
     input_queue := input_queue st;
     output_queue := output_queue st;
     feed_thread := feed_thread st;
     submitted := submitted st;
     processes := processes st;
     output_thread := output_thread st;
     completed := completed st;
     table := table st;
     chi_files := chi_files st;
     mosaic_files := mosaic_files st;
     in_acks := v;
     out_acks := out_acks st;
     put_log := put_log st;
     got_log := got_log st;
     pushed_log := pushed_log st |}.

Definition set_out_acks (v : nat) (st : state) : state :=
  {| terminate := terminate st;
     input_queue := input_queue st;
     output_queue := output_queue st;
     feed_thread := feed_thread st;
     submitted := submitted st;
     processes := processes st;
     output_thread := output_thread st;
     completed := completed st;
     table := table st;
     chi_files := chi_files st;
     mosaic_files := mosaic_files st;
     in_acks := in_acks st;
     out_acks := v;
     put_log := put_log st;
     got_log := got_log st;
     pushed_log := pushed_log st |}.

Definition set_put_log (v : list msg) (st : state) : state :=
  {| terminate := terminate st;
     input_queue := input_queue st;
     output_queue := output_queue st;
     feed_thread := feed_thread st;
     submitted := submitted st;
     processes := processes st;
     output_thread := output_thread st;
     completed := completed st;
     table := table st;
     chi_files := chi_files st;
     mosaic_files := mosaic_files st;
     in_acks := in_acks st;
     out_acks := out_acks st;
     put_log := v;
     got_log := got_log st;
     pushed_log := pushed_log st |}.

Definition set_got_log (v : list msg) (st : state) : state :=
  {| terminate := terminate st;
     input_queue := input_queue st;
     output_queue := output_queue st;
     feed_thread := feed_thread st;
     submitted := submitted st;
     processes := processes st;
     output_thread := output_thread st;
     completed := completed st;
     table := table st;
     chi_files := chi_files st;
     mosaic_files := mosaic_files st;
     in_acks := in_acks st;
     out_acks := out_acks st;
     put_log := put_log st;
     got_log := v;
     pushed_log := pushed_log st |}.

Definition set_pushed_log (v : list result) (st : state) : state :=
  {| terminate := terminate st;
     input_queue := input_queue st;
     output_queue := output_queue st;
     feed_thread := feed_thread st;
     submitted := submitted st;
     processes := processes st;
     output_thread := output_thread st;
     completed := completed st;
     table := table st;
     chi_files := chi_files st;
     mosaic_files := mosaic_files st;
     in_acks := in_acks st;
     out_acks := out_acks st;
     put_log := put_log st;
     got_log := got_log st;
     pushed_log := v |}.

(** [Parallelize.__init__]: empty queues, the event clear, no thread and
    no process yet. *)
Definition Parallelize_new : state :=
  mk_state false [] [] FDone 0 [] CDone 0 [] ∅ ∅ 0 0 [] [] [].

(** ** Paths and archives *)

Definition slash : ascii := "/"%char.

Fixpoint ends_with (c : ascii) (s : string) : bool :=
  match s with
  | EmptyString => false
  | String d EmptyString => Ascii.eqb d c
  | String _ s' => ends_with c s'
  end.

Definition starts_with (c : ascii) (s : string) : bool :=
  match s with
  | String d _ => Ascii.eqb d c
  | EmptyString => false
  end.

(** [os.path.join(a, b)] on POSIX. *)
Definition path_join (a b : string) : string :=
  if starts_with slash b then b
  else if String.eqb a EmptyString || ends_with slash a then a +:+ b
  else a +:+ "/" +:+ b.

(** [h5f[name]] on an archive kept as an association list. *)
Fixpoint h5_get {A : Type} (name : string) (f : list (string * A)) : option A :=
  match f with
  | [] => None
  | (k, v) :: f' => if String.eqb k name then Some v else h5_get name f'
  end.

(** [list(h5f.keys())] *)
Definition h5_keys {A : Type} (f : list (string * A)) : list string :=
  map fst f.

(** [a.astype('float32')] *)
Definition as_float32 (ext : Externals) (a : ndarray) : ndarray :=
  mk_ndarray (shape a) (map (c_float ext) (cells a)).

(** [File(path, 'a').create_dataset(name, data=a, dtype='float32')]: the
    file is created when absent; an existing name is a [ValueError]. *)
Definition create_dataset (ext : Externals) (path name : string) (a : ndarray)
    (files : gmap string (list (string * ndarray)))
    : res (gmap string (list (string * ndarray))) :=
  let old := default [] (files !! path) in
  match h5_get name old with
  | Some _ => Raise ValueError
  | None => Ok (<[path := old ++ [(name, as_float32 ext a)]]> files)
  end.

(** ** One job of [Parallelize] *)

(** What a per-file job is started with: the arguments of
    [start_processes] and the constructor's [n_proc] and [max_size]. *)
Record job := mk_job {
  j_ext : Externals;
  j_model : ModelCPU;
  j_n_proc : nat;
  j_max_size : Z;
  j_names : list string;
  j_input : list (string * cutout);
  j_input_name : string;
  j_output_file : string
}.

Definition SEM_VALUE_MAX : Z := 2147483647.

(** [mp.JoinableQueue(max_size)]: a size of zero or less means the
    largest semaphore value. *)
Definition capacity (max_size : Z) : Z :=
  if max_size <=? 0 then SEM_VALUE_MAX else max_size.

Definition queue_full (max_size : Z) (q : list msg) : bool :=
  capacity max_size <=? Z.of_nat (length q).

(** The body of the worker's [for] loop up to the tuple it puts on the
    output queue (lines 68-80). *)
Definition fit_item (model : ModelCPU) (name : string)
    (data segment noise : ndarray) : res result :=
  convolved ← or_raise AttributeError (convolved_models model);
  let chi_cube := dre_fit model convolved data segment noise in
  let success := negb (all_nan chi_cube) in
  if success then
    let parameters := get_parameters model chi_cube in
    '(ext, numb) ← unpack2 (PyStr.split PyStr.underscore name);
    e ← or_raise ValueError (PyStr.int ext);
    let parameters := <["EXT_NUMBER" := PInt e]> parameters in
    n ← or_raise ValueError (PyStr.int numb);
    let parameters := <["NUMBER" := PInt n]> parameters in
    if save_mosaics model then
      ei ← or_raise KeyError (parameters !! "E_IDX");
      ti ← or_raise KeyError (parameters !! "T_IDX");
      ri ← or_raise KeyError (parameters !! "R_IDX");
      let mosaic := make_mosaic model data segment (ei, ti, ri) in
      Ok (mk_result name success chi_cube (Some parameters) (Some mosaic))
    else Ok (mk_result name success chi_cube (Some parameters) None)
  else Ok (mk_result name success chi_cube None None).

Definition mosaic_path (input_name name : string) : string :=
  path_join (path_join "Mosaics" input_name)
            (input_name +:+ "_" +:+ name +:+ "_mosaic.fits").

(** The body of the collector's [try] for one result taken from the
    output queue (lines 106-117).  A [create_dataset] that raises leaves
    the row already appended and kills the thread. *)
Definition collect (j : job) (r : result) (st : state) : state :=
  let acknowledge st :=
    set_output_thread CLoop
      (set_completed (S (completed st)) (set_out_acks (S (out_acks st)) st)) in
  if r_success r then
    let st1 := set_table (table st ++ [r_parameters r]) st in
    match create_dataset (j_ext j) (j_output_file j) (r_name r)
                         (r_chi_cube r) (chi_files st1) with
    | Raise e => set_output_thread (CRaised e) st1
    | Ok files =>
        let st2 := set_chi_files files st1 in
        let st3 :=
          if save_mosaics (j_model j) then
            set_mosaic_files
              (<[mosaic_path (j_input_name j) (r_name r) := r_mosaic r]>
                 (mosaic_files st2)) st2
          else st2 in
        acknowledge st3
    end
  else acknowledge st.

(** Who moves next: the feeder thread, worker process [i], the collector
    thread, an interrupt signal delivered to worker process [i], or an
    interrupt signal delivered to the main thread. *)
Inductive actor :=
| AFeeder
| AWorker (i : nat)
| ACollector
| ASigint (i : nat)
| AMainSigint.

Definition set_pc (i : nat) (p : process) (pc : worker_pc) (st : state) : state :=
  set_processes (<[i := mk_process (p_model p) pc]> (processes st)) st.

(** One atomic action of [feed_workers]. [None]: the thread is blocked
    or has ended. *)
Definition feeder_step (j : job) (st : state) : option state :=
  match feed_thread st with
  | FLoop =>
      if (submitted st <? length (j_names j))%nat && negb (terminate st)
      then Some (set_feed_thread FPut st)
      else Some (set_feed_thread FCheck st)
  | FPut =>
      match j_names j !! submitted st with
      | None => Some (set_feed_thread (FRaised KeyError) st)
      | Some name =>
          match h5_get name (j_input j) with
          | None => Some (set_feed_thread (FRaised KeyError) st)
          | Some c =>
              if queue_full (j_max_size j) (input_queue st)
              then Some (set_feed_thread FLoop st)
              else
                let m := Item name (obj c) (seg c) (rms c) in
                Some (set_feed_thread FLoop
                        (set_submitted (S (submitted st))
                           (set_put_log (put_log st ++ [m])
                              (set_input_queue (input_queue st ++ [m]) st))))
          end
      end
  | FCheck =>
      if negb (terminate st)
      then Some (set_feed_thread (FStop (j_n_proc j)) st)
      else Some (set_feed_thread FDone st)
  | FStop O => Some (set_feed_thread FDone st)
  | FStop (S k) =>
      if queue_full (j_max_size j) (input_queue st)
      then None
      else Some (set_feed_thread (FStop k)
                   (set_put_log (put_log st ++ [STOP])
                      (set_input_queue (input_queue st ++ [STOP]) st)))
  | FDone | FRaised _ => None
  end.

(** One atomic action of the [i]-th [cpu_worker] process. *)
Definition worker_step (i : nat) (st : state) : option state :=
  match processes st !! i with
  | None => None
  | Some p =>
      match p_pc p with
      | WGet =>
          match input_queue st with
          | [] => None
          | m :: q =>
              let st1 := set_got_log (got_log st ++ [m]) (set_input_queue q st) in
              match m with
              | STOP => Some (set_pc i p WStopped st1)
              | Item name data segment noise =>
                  Some (set_pc i p (WFit name data segment noise) st1)
              end
          end
      | WFit name data segment noise =>
          match fit_item (p_model p) name data segment noise with
          | Raise e => Some (set_pc i p (WRaised e) st)
          | Ok r =>
              Some (set_pc i p WAck
                      (set_pushed_log (pushed_log st ++ [r])
                         (set_output_queue (output_queue st ++ [r]) st)))
          end
      | WAck => Some (set_pc i p WGet (set_in_acks (S (in_acks st)) st))
      | WStopped | WRaised _ | WInterrupted => None
      end
  end.

(** [KeyboardInterrupt] raised in the [i]-th worker while it is inside
    its [try]: the handler sets the event and the process returns. *)
Definition sigint_step (i : nat) (st : state) : option state :=
  match processes st !! i with
  | None => None
  | Some p =>
      match p_pc p with
      | WGet | WFit _ _ _ _ | WAck =>
          Some (set_pc i p WInterrupted (set_terminate true st))
      | WStopped | WRaised _ | WInterrupted => None
      end
  end.

(** One atomic action of [get_output]. *)
Definition collector_step (j : job) (st : state) : option state :=
  match output_thread st with
  | CLoop =>
      if (completed st <? length (j_names j))%nat && negb (terminate st)
      then Some (set_output_thread CGet st)
      else Some (set_output_thread CDone st)
  | CGet =>
      match output_queue st with
      | [] => Some (set_output_thread CLoop st)
      | r :: q => Some (collect j r (set_output_queue q st))
      end
  | CDone | CRaised _ => None
  end.

(** [Parallelize.abort] *)
Definition abort (st : state) : state := set_terminate true st.

Definition step (j : job) (a : actor) (st : state) : option state :=
  match a with
  | AFeeder => feeder_step j st
  | AWorker i => worker_step i st
  | ACollector => collector_step j st
  | ASigint i => sigint_step i st
  | AMainSigint => Some (abort st)
  end.

(** A schedule played from a state; an actor that cannot move is skipped. *)
Fixpoint run (j : job) (sched : list actor) (st : state) : state :=
  match sched with
  | [] => st
  | a :: rest => run j rest (default st (step j a st))
  end.

Definition feeder_alive (pc : feeder_pc) : bool :=
  match pc with
  | FDone | FRaised _ => false
  | _ => true
  end.

Definition worker_alive (pc : worker_pc) : bool :=
  match pc with
  | WStopped | WRaised _ | WInterrupted => false
  | _ => true
  end.

Definition collector_alive (pc : collector_pc) : bool :=
  match pc with
  | CDone | CRaised _ => false
  | _ => true
  end.

(** What [stop_processes] waits for: no thread and no process alive. *)
Definition joined (st : state) : bool :=
  negb (feeder_alive (feed_thread st))
  && forallb (fun p => negb (worker_alive (p_pc p))) (processes st)
  && negb (collector_alive (output_thread st)).

(** [Parallelize.start_processes]: new threads and [n_proc] processes,
    each given [model]; the queues and the event are kept. The histories
    and the counts of acknowledgments are those of the job under way and
    start anew. *)
Definition start_processes (j : job) (st : state) : state :=
  set_processes (replicate (j_n_proc j) (mk_process (j_model j) WGet))
    (set_output_thread CLoop
       (set_completed 0%nat
          (set_feed_thread FLoop
             (set_submitted 0%nat
                (set_put_log []
                   (set_got_log []
                      (set_pushed_log []
                         (set_in_acks 0%nat (set_out_acks 0%nat st))))))))).

(** ** The moves of a job as a relation

    [trans j st st'] lists, one constructor per branch of the step
    functions, every way a job goes from [st] to [st']. *)

Inductive trans (j : job) (st : state) : state -> Prop :=
| feed_enter :
    feed_thread st = FLoop ->
    (submitted st < length (j_names j))%nat ->
    terminate st = false ->
    trans j st (set_feed_thread FPut st)
| feed_exit :
    feed_thread st = FLoop ->
    (length (j_names j) <= submitted st)%nat \/ terminate st = true ->
    trans j st (set_feed_thread FCheck st)
| feed_key_error :
    feed_thread st = FPut ->
    trans j st (set_feed_thread (FRaised KeyError) st)
| feed_full :
    feed_thread st = FPut ->
    queue_full (j_max_size j) (input_queue st) = true ->
    trans j st (set_feed_thread FLoop st)
| feed_put name c :
    feed_thread st = FPut ->
    j_names j !! submitted st = Some name ->
    h5_get name (j_input j) = Some c ->
    queue_full (j_max_size j) (input_queue st) = false ->
    trans j st
      (set_feed_thread FLoop
         (set_submitted (S (submitted st))
            (set_put_log (put_log st ++ [Item name (obj c) (seg c) (rms c)])
               (set_input_queue
                  (input_queue st ++ [Item name (obj c) (seg c) (rms c)]) st))))
| feed_sentinels :
    feed_thread st = FCheck ->
    terminate st = false ->
    trans j st (set_feed_thread (FStop (j_n_proc j)) st)
| feed_cancelled :
    feed_thread st = FCheck ->
    terminate st = true ->
    trans j st (set_feed_thread FDone st)
| feed_return :
    feed_thread st = FStop 0 ->
    trans j st (set_feed_thread FDone st)
| feed_stop k :
    feed_thread st = FStop (S k) ->
    queue_full (j_max_size j) (input_queue st) = false ->
    trans j st
      (set_feed_thread (FStop k)
         (set_put_log (put_log st ++ [STOP])
            (set_input_queue (input_queue st ++ [STOP]) st)))
| work_stop i p q :
    processes st !! i = Some p ->
    p_pc p = WGet ->
    input_queue st = STOP :: q ->
    trans j st
      (set_pc i p WStopped
         (set_got_log (got_log st ++ [STOP]) (set_input_queue q st)))
| work_get i p q name data segment noise :
    processes st !! i = Some p ->
    p_pc p = WGet ->
    input_queue st = Item name data segment noise :: q ->
    trans j st
      (set_pc i p (WFit name data segment noise)
         (set_got_log (got_log st ++ [Item name data segment noise])
            (set_input_queue q st)))
| work_raise i p name data segment noise e :
    processes st !! i = Some p ->
    p_pc p = WFit name data segment noise ->
    fit_item (p_model p) name data segment noise = Raise e ->
    trans j st (set_pc i p (WRaised e) st)
| work_push i p name data segment noise r :
    processes st !! i = Some p ->
    p_pc p = WFit name data segment noise ->
    fit_item (p_model p) name data segment noise = Ok r ->
    trans j st
      (set_pc i p WAck
         (set_pushed_log (pushed_log st ++ [r])
            (set_output_queue (output_queue st ++ [r]) st)))
| work_ack i p :
    processes st !! i = Some p ->
    p_pc p = WAck ->
    trans j st (set_pc i p WGet (set_in_acks (S (in_acks st)) st))
| work_sigint i p :
    processes st !! i = Some p ->
    worker_alive (p_pc p) = true ->
    trans j st (set_pc i p WInterrupted (set_terminate true st))
| collect_enter :
    output_thread st = CLoop ->
    (completed st < length (j_names j))%nat ->
    terminate st = false ->
    trans j st (set_output_thread CGet st)
| collect_exit :
    output_thread st = CLoop ->
    (length (j_names j) <= completed st)%nat \/ terminate st = true ->
    trans j st (set_output_thread CDone st)
| collect_empty :
    output_thread st = CGet ->
    output_queue st = [] ->
    trans j st (set_output_thread CLoop st)
| collect_result r q :
    output_thread st = CGet ->
    output_queue st = r :: q ->
    trans j st (collect j r (set_output_queue q st))
| main_abort :
    trans j st (abort st).

(** ** The per-file job and the directory driver *)

(** Lines written to the console (timings left out). *)
Inductive line :=
| PrRunning
| PrFile (input_file : string) (n_objects : nat)
| PrConvolving
| PrSkipping (psf : string)
| PrConvolved
| PrFinished (n_objects : nat)
| PrAborted
| PrTotal.

(** Everything a run of [fit_dir] can change: the [Parallelize] object
    with the files its threads write, the model object, the summary
    tables saved and the console. *)
Record world := mk_world {
  w_par : state;
  w_model : ModelCPU;
  w_cats : list (string * list (option params));
  w_console : list line
}.

Definition print (l : line) (w : world) : world :=
  mk_world (w_par w) (w_model w) (w_cats w) (w_console w ++ [l]).

(** What a run is given: the outside functions, the constructor's
    arguments, the content of each cutout archive by path, and for each
    input file name the interleaving its job meets. *)
Record run_env := mk_env {
  e_ext : Externals;
  e_n_proc : nat;
  e_max_size : Z;
  e_read_cuts : string -> list (string * cutout);
  e_sched : string -> list actor
}.

Inductive join_end :=
| Joined
| Interrupted
| Waiting.

(** [stop_processes] as seen from the main thread: it returns as soon as
    nothing is alive, is left by a [KeyboardInterrupt], or is still
    waiting when the schedule ends. *)
Fixpoint stop_processes (j : job) (sched : list actor) (st : state)
    : join_end * state :=
  match sched with
  | [] => (if joined st then Joined else Waiting, st)
  | a :: rest =>
      if joined st then (Joined, st)
      else match a with
           | AMainSigint => (Interrupted, st)
           | _ => stop_processes j rest (default st (step j a st))
           end
  end.

Inductive outcome :=
| Returned (w : world)
| Blocked (w : world)
| Raised (e : exn) (w : world).

(** The job [fit_file] starts once the convolution has returned. *)
Definition job_of (env : run_env) (model : ModelCPU)
    (input_name input_file output_file : string) : job :=
  mk_job (e_ext env) model (e_n_proc env) (e_max_size env)
         (h5_keys (e_read_cuts env input_file)) (e_read_cuts env input_file)
         input_name output_file.

(** [Parallelize.fit_file] *)
Definition fit_file (env : run_env) (filename input_name input_file
    output_file psf : string) (w : world) : outcome :=
  let names := h5_keys (e_read_cuts env input_file) in
  let w1 := print PrConvolving (print (PrFile input_file (length names)) w) in
  match convolve (e_ext env) (w_model w1) psf (e_n_proc env) with
  | Raise FileNotFoundError => Returned (print (PrSkipping psf) w1)
  | Raise e => Raised e w1
  | Ok model =>
      let j := job_of env model input_name input_file output_file in
      let console := w_console w1 ++ [PrConvolved] in
      let st0 := start_processes j (set_table [] (w_par w1)) in
      match stop_processes j (e_sched env filename) st0 with
      | (Joined, st) =>
          Returned (mk_world st model (w_cats w1 ++ [(input_name, table st)])
                             (console ++ [PrFinished (length names)]))
      | (Interrupted, st) =>
          Returned (mk_world (abort st) model (w_cats w1) (console ++ [PrAborted]))
      | (Waiting, st) => Blocked (mk_world st model (w_cats w1) console)
      end
  end.

(** [os.path.basename] *)
Definition basename (path : string) : string :=
  List.last (PyStr.split slash path) EmptyString.

Fixpoint strip_prefix (p s : string) : option string :=
  match p, s with
  | EmptyString, _ => Some s
  | String a p', String b s' => if Ascii.eqb a b then strip_prefix p' s' else None
  | String _ _, EmptyString => None
  end.

Fixpoint replace_fuel (fuel : nat) (old new s : string) : string :=
  match fuel with
  | O => s
  | S f =>
      match strip_prefix old s with
      | Some rest => new +:+ replace_fuel f old new rest
      | None =>
          match s with
          | EmptyString => EmptyString
          | String c s' => String c (replace_fuel f old new s')
          end
      end
  end.

(** [s.replace(old, new)] for a non-empty [old]. *)
Definition replace (old new s : string) : string :=
  replace_fuel (S (String.length s)) old new s.

Fixpoint insert_sorted (x : string) (l : list string) : list string :=
  match l with
  | [] => [x]
  | y :: l' => if String.leb x y then x :: l else y :: insert_sorted x l'
  end.

(** [sorted(files)] *)
Definition sorted (l : list string) : list string :=
  fold_right insert_sorted [] l.

Definition tile_name (filename : string) : string :=
  replace "_cuts.h5" EmptyString (basename filename).

Definition output_path (output_dir filename : string) : string :=
  path_join output_dir (tile_name filename +:+ "_chi.h5").

Definition psf_path (psf_dir filename : string) : string :=
  path_join psf_dir (tile_name filename +:+ ".psf").

(** [os.remove(output_file)] when [os.path.isfile(output_file)]. *)
Definition remove_output (output_file : string) (w : world) : world :=
  mk_world (set_chi_files (delete output_file (chi_files (w_par w))) (w_par w))
           (w_model w) (w_cats w) (w_console w).

(** The [for] loop of [fit_dir] over the sorted file names. *)
Fixpoint fit_dir_loop (env : run_env) (input_dir output_dir psf_dir : string)
    (files : list string) (w : world) : outcome :=
  match files with
  | [] => Returned (print PrTotal w)
  | filename :: rest =>
      let input_file := path_join input_dir filename in
      let name := tile_name filename in
      let output_file := output_path output_dir filename in
      let psf := psf_path psf_dir filename in
      match fit_file env filename name input_file output_file psf
                     (remove_output output_file w) with
      | Returned w' =>
          if terminate (w_par w') then Returned (print PrTotal w')
          else fit_dir_loop env input_dir output_dir psf_dir rest w'
      | other => other
      end
  end.

(** [Parallelize.fit_dir]; [listing] is [os.listdir(input_dir)]. *)
Definition fit_dir (env : run_env) (input_dir output_dir psf_dir : string)
    (listing : list string) (w : world) : outcome :=
  fit_dir_loop env input_dir output_dir psf_dir (sorted listing)
               (print PrRunning w).

(** ** [Cutter.cut_image]: the keys of a cutout archive *)

(** A catalogue row is a mapping from column names to values.  What the
    cutter computes from the images is taken as given: [condition] is the
    method of that name applied to the row and its header, [blank] is the
    test [np.isclose(obj_cut, -1e30).any()], [cut] the three datasets
    written for the row. *)
Record Cutter := {
  condition : params -> bool;
  blank : params -> bool;
  cut : params -> cutout
}.

(** [format(v, '0{w}d')]: integers only. *)
Definition format_d (w : nat) (v : pyval) : res string :=
  match v with
  | PInt z => Ok (PyStr.format_0d w z)
  | PFloat _ => Raise ValueError
  end.

(** [f"{ext_number:02d}_{number:04d}"] *)
Definition object_id (ext_number number : Z) : string :=
  PyStr.format_0d 2 ext_number +:+ "_" +:+ PyStr.format_0d 4 number.

(** [h5_file.create_group(name)]: an existing name is a [ValueError]. *)
Definition create_group (name : string) (c : cutout)
    (h5 : list (string * cutout)) : res (list (string * cutout)) :=
  match h5_get name h5 with
  | Some _ => Raise ValueError
  | None => Ok (h5 ++ [(name, c)])
  end.

(** The loop of [cut_image] from an archive [h5]: the archive as the
    loop leaves it and the exception that ended it, if any. *)
Fixpoint cut_rows (c : Cutter) (cat : list params) (h5 : list (string * cutout))
    : list (string * cutout) * option exn :=
  match cat with
  | [] => (h5, None)
  | row :: cat' =>
      let ext_number := default (PInt 0) (row !! "EXT_NUMBER") in
      if condition c row then
        if blank c row then cut_rows c cat' h5
        else
          match row !! "NUMBER" with
          | None => (h5, Some KeyError)
          | Some number =>
              match format_d 2 ext_number with
              | Raise e => (h5, Some e)
              | Ok a =>
                  match format_d 4 number with
                  | Raise e => (h5, Some e)
                  | Ok b =>
                      match create_group (a +:+ "_" +:+ b) (cut c row) h5 with
                      | Raise e => (h5, Some e)
                      | Ok h5' => cut_rows c cat' h5'
                      end
                  end
              end
          end
      else cut_rows c cat' h5
  end.

(** [Cutter.cut_image]: the file is opened with mode ['w'], so the loop
    starts from an empty archive. *)
Definition cut_image (c : Cutter) (cat : list params)
    : list (string * cutout) * option exn :=
  cut_rows c cat [].

(** An id made of exactly two digits, an underscore and exactly four
    digits. *)
Definition two_and_four_digits (name : string) : bool :=
  match PyStr.split PyStr.underscore name with
  | [a; b] =>
      (String.length a =? 2)%nat && (String.length b =? 4)%nat
      && forallb PyStr.is_digit (list_ascii_of_string a)
      && forallb PyStr.is_digit (list_ascii_of_string b)
  | _ => false
  end.

(** ** Vocabulary of the properties *)

(** The message the feeder builds for [name] from the input archive. *)
Definition is_item_of (j : job) (name : string) (m : msg) : Prop :=
  exists c, h5_get name (j_input j) = Some c
            /\ m = Item name (obj c) (seg c) (rms c).

Definition is_item (m : msg) : bool :=
  match m with
  | Item _ _ _ _ => true
  | STOP => false
  end.

Definition is_stop (m : msg) : bool := negb (is_item m).

Definition count_items (l : list msg) : nat := length (List.filter is_item l).
Definition count_stops (l : list msg) : nat := length (List.filter is_stop l).
Arguments count_items : simpl never.
Arguments count_stops : simpl never.

(** How many processes are at a program counter of weight one. *)
Fixpoint tally (w : worker_pc -> nat) (ps : list process) : nat :=
  match ps with
  | [] => 0%nat
  | p :: ps' => (w (p_pc p) + tally w ps')%nat
  end.

Definition fitting (pc : worker_pc) : nat :=
  match pc with WFit _ _ _ _ => 1 | _ => 0 end%nat.
Definition acking (pc : worker_pc) : nat :=
  match pc with WAck => 1 | _ => 0 end%nat.
Definition raised (pc : worker_pc) : nat :=
  match pc with WRaised _ => 1 | _ => 0 end%nat.
Definition stopped (pc : worker_pc) : nat :=
  match pc with WStopped => 1 | _ => 0 end%nat.
Definition interrupted (pc : worker_pc) : nat :=
  match pc with WInterrupted => 1 | _ => 0 end%nat.

(** A [Parallelize] whose two queues are empty, as [__init__] leaves it
    and as a job that ran to its end leaves it. *)
Definition queues_empty (st : state) : Prop :=
  input_queue st = [] /\ output_queue st = [].

(** The number of sentinels [k] on the input queue's history, by where
    the feeder stands. *)
Definition sentinels_due (j : job) (st : state) (k : nat) : Prop :=
  match feed_thread st with
  | FLoop => k = 0%nat
  | FPut => k = 0%nat /\ (submitted st < length (j_names j))%nat
  | FCheck =>
      k = 0%nat /\ (terminate st = false -> submitted st = length (j_names j))
  | FStop r => (k + r)%nat = j_n_proc j /\ submitted st = length (j_names j)
  | FDone =>
      (k = 0%nat \/ k = j_n_proc j /\ submitted st = length (j_names j))
      /\ (terminate st = false ->
          k = j_n_proc j /\ submitted st = length (j_names j))
  | FRaised _ => k = 0%nat
  end.

(** The input queue's history is the first [submitted] names turned into
    items, in order, followed by [k] sentinels. *)
Definition fed (j : job) (st : state) (k : nat) : Prop :=
  exists items,
    put_log st = items ++ replicate k STOP
    /\ Forall2 (is_item_of j) (take (submitted st) (j_names j)) items.

Definition collector_raised (pc : collector_pc) : nat :=
  match pc with CRaised _ => 1 | _ => 0 end%nat.

(** What holds all along of a job started with both queues empty. *)
Record job_inv (j : job) (st : state) : Prop := {
  inv_models : Forall (fun p => p_model p = j_model j) (processes st);
  inv_n_proc : length (processes st) = j_n_proc j;
  inv_fed : exists k, fed j st k /\ sentinels_due j st k;
  inv_submitted : (submitted st <= length (j_names j))%nat;
  inv_fifo : put_log st = got_log st ++ input_queue st;
  inv_consumed :
    terminate st = false ->
    count_items (got_log st)
    = (length (pushed_log st) + tally fitting (processes st)
       + tally raised (processes st))%nat;
  inv_acked :
    terminate st = false ->
    length (pushed_log st) = (in_acks st + tally acking (processes st))%nat;
  inv_stopped : count_stops (got_log st) = tally stopped (processes st);
  inv_uninterrupted :
    terminate st = false -> tally interrupted (processes st) = 0%nat;
  inv_collected :
    length (pushed_log st)
    = (completed st + length (output_queue st)
       + collector_raised (output_thread st))%nat;
  inv_returned :
    output_thread st = CDone -> terminate st = false ->
    (length (j_names j) <= completed st)%nat
}.

(** The three counts of a job, whatever the event: a result is never
    acknowledged before it is put nor put before its item is taken, and
    the items taken and not acknowledged are held by workers that are
    fitting, about to acknowledge, dead from an exception or
    interrupted. *)
Definition counts_bound (st : state) : Prop :=
  (in_acks st + tally acking (processes st) <= length (pushed_log st)
   /\ length (pushed_log st) + tally fitting (processes st)
      + tally raised (processes st) <= count_items (got_log st)
   /\ count_items (got_log st)
      <= in_acks st + tally acking (processes st)
         + tally fitting (processes st) + tally raised (processes st)
         + tally interrupted (processes st))%nat.

(** Whether process [i] is alive. *)
Definition alive_at (i : nat) (st : state) : bool :=
  match processes st !! i with
  | Some p => worker_alive (p_pc p)
  | None => false
  end.

(** The three moves that end worker [i]: it takes a sentinel from the
    input queue, its loop body raises, or it is interrupted. *)
Definition ends_worker (i : nat) (a : actor) (st : state) : Prop :=
  exists p,
    processes st !! i = Some p
    /\ match a with
       | AWorker k =>
           k = i
           /\ ((p_pc p = WGet /\ exists q, input_queue st = STOP :: q)
               \/ exists name data segment noise e,
                    p_pc p = WFit name data segment noise
                    /\ fit_item (p_model p) name data segment noise = Raise e)
       | ASigint k => k = i /\ worker_alive (p_pc p) = true
       | _ => False
       end.

(** Nothing alive, nothing cancelled, and the collector returned from its
    loop rather than died. *)
Definition completed_normally (st : state) : Prop :=
  joined st = true /\ terminate st = false /\ output_thread st = CDone.

(** An actor that is not an interrupt signal. *)
Definition no_signal (a : actor) : Prop :=
  match a with
  | ASigint _ | AMainSigint => False
  | _ => True
  end.

(** How many of its own moves a thread still needs to return once the
    event is set and it is at a timed queue call or a loop test. *)
Definition feeder_rank (pc : feeder_pc) : nat :=
  match pc with
  | FPut => 3
  | FLoop => 2
  | FCheck => 1
  | _ => 0
  end.

Definition collector_rank (pc : collector_pc) : nat :=
  match pc with
  | CGet => 2
  | CLoop => 1
  | _ => 0
  end.

Definition is_feeder (a : actor) : bool :=
  match a with AFeeder => true | _ => false end.

Definition is_collector (a : actor) : bool :=
  match a with ACollector => true | _ => false end.

(** How many moves of the feeder, of the collector, a schedule holds. *)
Definition feeder_moves (sched : list actor) : nat :=
  length (List.filter is_feeder sched).

Definition collector_moves (sched : list actor) : nat :=
  length (List.filter is_collector sched).

(** One for a thread inside its timed queue call, where one more item can
    still go through after the event is set. *)
Definition putting (pc : feeder_pc) : nat :=
  match pc with FPut => 1 | _ => 0 end%nat.

Definition getting (pc : collector_pc) : nat :=
  match pc with CGet => 1 | _ => 0 end%nat.

(** The feeder is in its submission loop or at the test after it. *)
Definition feeder_submitting (pc : feeder_pc) : Prop :=
  match pc with
  | FLoop | FPut | FCheck => True
  | _ => False
  end.

(** The world a call left behind, however it ended. *)
Definition end_world (o : outcome) : world :=
  match o with
  | Returned w | Blocked w | Raised _ w => w
  end.

(** The file names whose iteration the loop of [fit_dir] entered. *)
Fixpoint processed (env : run_env) (input_dir output_dir psf_dir : string)
    (files : list string) (w : world) : list string :=
  match files with
  | [] => []
  | filename :: rest =>
      filename ::
      match fit_file env filename (tile_name filename)
                     (path_join input_dir filename)
                     (output_path output_dir filename)
                     (psf_path psf_dir filename)
                     (remove_output (output_path output_dir filename) w) with
      | Returned w' =>
          if terminate (w_par w') then []
          else processed env input_dir output_dir psf_dir rest w'
      | _ => []
      end
  end.

(** Two states that differ at most in what the output archives hold, and
    hold the same at every path of [paths]. *)
Definition same_but_chi (paths : list string) (s1 s2 : state) : Prop :=
  set_chi_files ∅ s1 = set_chi_files ∅ s2
  /\ forall p, p ∈ paths -> chi_files s1 !! p = chi_files s2 !! p.

Definition same_but_archives (paths : list string) (w1 w2 : world) : Prop :=
  same_but_chi paths (w_par w1) (w_par w2)
  /\ w_model w1 = w_model w2
  /\ w_cats w1 = w_cats w2
  /\ w_console w1 = w_console w2.

(** The world with no output archive at all, as before any run. *)
Definition clear_archives (w : world) : world :=
  mk_world (set_chi_files ∅ (w_par w)) (w_model w) (w_cats w) (w_console w).

(** Two calls that ended the same way. *)
Definition same_ending (o1 o2 : outcome) : Prop :=
  match o1, o2 with
  | Returned _, Returned _ | Blocked _, Blocked _ => True
  | Raised e1 _, Raised e2 _ => e1 = e2
  | _, _ => False
  end.

(** A result whose flag tells whether its score cube has a cell that is
    not NaN. *)
Definition flagged (r : result) : Prop :=
  r_success r = true
  <-> ~ Forall (fun x => isnan x = true) (cells (r_chi_cube r)).

(** A successful result whose parameters carry the two integers read
    from its object id. *)
Definition labelled (r : result) : Prop :=
  r_success r = true ->
  exists ext numb e n (p : params),
    PyStr.split PyStr.underscore (r_name r) = [ext; numb]
    /\ PyStr.int ext = Some e
    /\ PyStr.int numb = Some n
    /\ r_parameters r = Some p
    /\ p !! "EXT_NUMBER" = Some (PInt e)
    /\ p !! "NUMBER" = Some (PInt n).

(** ** Small concrete instances *)

Module Sample.

Definition one : spec_float := S754_finite false 1 0.
Definition nan : spec_float := S754_nan.

Definition pixel (x : spec_float) : ndarray := mk_ndarray [1%nat; 1%nat] [x].

Definition psf : ndarray := pixel one.

(** A stand-in for the outside world: cells kept as they are, a
    convolution that returns its first input, one PSF file. *)
Definition ext : Externals :=
  {| c_float := fun x => x;
     fftconvolve_same := fun in1 _ => in1;
     get_psf := fun path =>
       if String.eqb path "PSF/tileA.psf" then Some psf else None |}.

Definition indices : params :=
  <["E_IDX" := PInt 0]> (<["T_IDX" := PInt 0]> (<["R_IDX" := PInt 0]> ∅)).

(** A model of shape [(1, 1, 2, 1, 1)] whose score cube is the cutout's
    pixel data: a cutout of NaNs is a failed fit. *)
Definition model0 : ModelCPU :=
  {| models := mk_ndarray [1%nat; 1%nat; 2%nat; 1%nat; 1%nat] [one; one];
     convolved_models := None;
     save_mosaics := true;
     dre_fit := fun _ data _ _ => data;
     get_parameters := fun _ => indices;
     make_mosaic := fun data _ _ => data |}.

Definition model : ModelCPU := set_convolved model0 (models model0).

Definition good : cutout := mk_cutout (pixel one) (pixel one) (pixel one).
Definition bad : cutout := mk_cutout (pixel nan) (pixel one) (pixel one).

Definition archive : list (string * cutout) :=
  [("00_0001", good); ("00_0002", bad)].

Definition job2 : job :=
  mk_job ext model 2 100 (h5_keys archive) archive "tileA" "Chi/tileA_chi.h5".

Definition start2 : state := start_processes job2 Parallelize_new.

(** An uncancelled run of two workers over the two cutouts. *)
Definition full_schedule : list actor :=
  [AFeeder; AFeeder; AFeeder; AFeeder; AFeeder; AFeeder; AFeeder; AFeeder;
   AFeeder;
   AWorker 0; AWorker 1; AWorker 0; AWorker 1; AWorker 0; AWorker 1;
   AWorker 0; AWorker 1;
   ACollector; ACollector; ACollector; ACollector; ACollector].

(** Worker 0 is interrupted before anything was fed; then the two
    threads move. *)
Definition cancelled : state := run job2 [ASigint 0] start2.

Definition after_cancel : list actor :=
  [AFeeder; AFeeder; AFeeder; ACollector; ACollector].

Definition cancel_schedule : list actor := ASigint 0 :: after_cancel.

(** The result of the failed fit and a collector about to take it. *)
Definition bad_result : result :=
  mk_result "00_0002" false (pixel nan) None None.

Definition collecting : state :=
  set_output_thread CGet (set_output_queue [bad_result] Parallelize_new).

Definition world0 : world := mk_world Parallelize_new model0 [] [].

(** A world in which an earlier run left an archive behind. *)
Definition stale_world : world :=
  mk_world
    (set_chi_files {["Chi/tileA_chi.h5" := [("99_9999", pixel one)]]}
                   Parallelize_new)
    model0 [] [].

Definition env : run_env :=
  mk_env ext 2 100
    (fun path => if String.eqb path "Cuts/tileA_cuts.h5" then archive else [])
    (fun _ => full_schedule).

(** One worker over an archive of one object: under an id with no
    underscore, and under an id that parses. *)
Definition unparsable : list (string * cutout) := [("0001", good)].

Definition job_unparsable : job :=
  mk_job ext model 1 100 (h5_keys unparsable) unparsable "tileA"
         "Chi/tileA_chi.h5".

Definition single : list (string * cutout) := [("00_0001", good)].

Definition job_single : job :=
  mk_job ext model 1 100 (h5_keys single) single "tileA" "Chi/tileA_chi.h5".

(** Two workers behind an input queue of size one; the feeder puts the
    object, passes its last test of the event and both workers are
    interrupted before either takes anything. *)
Definition job_narrow : job :=
  mk_job ext model 2 1 (h5_keys single) single "tileA" "Chi/tileA_chi.h5".

Definition past_test : list actor :=
  [AFeeder; AFeeder; AFeeder; AFeeder; ASigint 0; ASigint 1].

(** The feeder puts the object and worker 0 takes it. *)
Definition take_one : list actor := [AFeeder; AFeeder; AWorker 0].

Definition cutter : Cutter :=
  {| condition := fun _ => true;
     blank := fun _ => false;
     cut := fun _ => good |}.

Definition row (ext_number number : Z) : params :=
  <["EXT_NUMBER" := PInt ext_number]> (<["NUMBER" := PInt number]> ∅).

End Sample.

(** ** Further vocabulary: the cutter *)

(** A row for which [cut_image] reaches [create_group]: it passes
    [condition] and its cutout holds no blank pixel. *)
Definition kept (c : Cutter) (row : params) : bool :=
  condition c row && negb (blank c row).

(** The group name [cut_image] builds for a row, when both numbers are
    integers; a missing ['EXT_NUMBER'] counts as 0. *)
Definition row_id (row : params) : option string :=
  match default (PInt 0) (row !! "EXT_NUMBER"), row !! "NUMBER" with
  | PInt e, Some (PInt n) => Some (object_id e n)
  | _, _ => None
  end.

(** ** Further vocabulary: what the collector has written *)






(** The bounds a job keeps on what it holds: the input queue within its
    capacity, the feeder within the names and the collector within the
    number of tasks. *)
Record within_bounds (j : job) (st : state) : Prop := {
  wb_queue : Z.of_nat (length (input_queue st)) <= capacity (j_max_size j);
  wb_submitted : (submitted st <= length (j_names j))%nat;
  wb_completed : (completed st <= length (j_names j))%nat;
  wb_getting :
    output_thread st = CGet -> (completed st < length (j_names j))%nat
}.


(** The order [sorted] puts file names in: [a <= b] on Python strings of
    ASCII characters. *)
Definition str_le (a b : string) : Prop := String.leb a b = true.

(** [c in s] and [p in s] on strings. *)
Fixpoint has_char (c : ascii) (s : string) : bool :=
  match s with
  | EmptyString => false
  | String d s' => Ascii.eqb d c || has_char c s'
  end.

Fixpoint occurs (p s : string) : bool :=
  match strip_prefix p s with
  | Some _ => true
  | None =>
      match s with
      | EmptyString => false
      | String _ s' => occurs p s'
      end
  end.

(** ** An orderly schedule *)

(** The moves that take one object through a job: the feeder tests its
    loop and puts the item, worker 0 takes it, fits it and puts the
    result, then acknowledges, the collector tests its loop and takes the
    result. *)
Definition one_item : list actor :=
  [AFeeder; AFeeder; AWorker 0; AWorker 0; AWorker 0; ACollector; ACollector].

(** The feeder puts a sentinel and worker [i] takes it. *)
Definition stop_worker (i : nat) : list actor := [AFeeder; AWorker i].

(** Every object in turn, then the feeder's last tests, then every worker
    stopped in turn, then the two threads return. *)
Definition orderly (n_items n_proc : nat) : list actor :=
  concat (replicate n_items one_item)
  ++ [AFeeder; AFeeder]
  ++ concat (stop_worker <$> seq 0 n_proc)
  ++ [AFeeder; ACollector].

(** A job between two objects, [k] of them done: everybody at the head of
    its loop, both queues empty, and none of the names to come in the
    output archive. *)
Record ready (j : job) (k : nat) (s : state) : Prop := {
  rd_event : terminate s = false;
  rd_feeder : feed_thread s = FLoop;
  rd_submitted : submitted s = k;
  rd_input : input_queue s = [];
  rd_output : output_queue s = [];
  rd_processes :
    processes s = replicate (j_n_proc j) (mk_process (j_model j) WGet);
  rd_collector : output_thread s = CLoop;
  rd_completed : completed s = k;
  rd_archive :
    forall name,
      name ∈ drop k (j_names j) ->
      h5_get name (default [] (chi_files s !! j_output_file j)) = None
}.

(** A job whose feeder is putting its sentinels, [i] workers stopped. *)
Record stopping (j : job) (i : nat) (s : state) : Prop := {
  sp_event : terminate s = false;
  sp_feeder : feed_thread s = FStop (j_n_proc j - i);
  sp_input : input_queue s = [];
  sp_processes :
    processes s
    = replicate i (mk_process (j_model j) WStopped)
      ++ replicate (j_n_proc j - i) (mk_process (j_model j) WGet);
  sp_collector : output_thread s = CLoop;
  sp_completed : completed s = length (j_names j)
}.

(** * Properties *)

Example split_two : PyStr.split "_" "03_0042" = ["03"; "0042"].
Proof. reflexivity. Qed.
Example split_three : PyStr.split "_" "a__b" = ["a"; EmptyString; "b"].
Proof. reflexivity. Qed.
Example int_padded : PyStr.int "0042" = Some 42.
Proof. reflexivity. Qed.
Example int_spaces : PyStr.int "  -7 " = Some (-7).
Proof. reflexivity. Qed.
Example int_grouped : PyStr.int "1_000" = Some 1000.
Proof. reflexivity. Qed.
Example int_bad : PyStr.int "4x" = None.
Proof. reflexivity. Qed.
Example int_tab : PyStr.int (String (ascii_of_nat 9) "42 ") = Some 42.
Proof. reflexivity. Qed.
Example int_separator : PyStr.int (String (ascii_of_nat 28) "42") = None.
Proof. reflexivity. Qed.
Example int_empty : PyStr.int EmptyString = None.
Proof. reflexivity. Qed.
Example format_small : PyStr.format_0d 4 42 = "0042".
Proof. reflexivity. Qed.
Example format_neg : PyStr.format_0d 4 (-5) = "-005".
Proof. reflexivity. Qed.
Example format_wide : PyStr.format_0d 4 12345 = "12345".
Proof. reflexivity. Qed.
Example format_zero : PyStr.format_0d 2 0 = "00".
Proof. reflexivity. Qed.

(** ** Decimal strings: printing then parsing *)

Section Decimal.
Import PyStr.

Lemma digit_cases (d : Z) :
  0 <= d < 10 ->
  d = 0 \/ d = 1 \/ d = 2 \/ d = 3 \/ d = 4 \/
  d = 5 \/ d = 6 \/ d = 7 \/ d = 8 \/ d = 9.
Proof. lia. Qed.

Lemma digit_char_spec (d : Z) :
  0 <= d < 10 ->
  is_digit (digit_char d) = true
  /\ digit_val (digit_char d) = d
  /\ Ascii.eqb (digit_char d) underscore = false
  /\ is_space (digit_char d) = false
  /\ Ascii.eqb (digit_char d) minus = false
  /\ Ascii.eqb (digit_char d) plus = false.
Proof.
  intros Hd.
  destruct (digit_cases d Hd) as [->|[->|[->|[->|[->|[->|[->|[->|[->| ->]]]]]]]]];
    vm_compute; intuition congruence.
Qed.

Lemma int_digits_digit (a d : Z) (rest : string) :
  0 <= d < 10 ->
  int_digits a (String (digit_char d) rest) = int_digits (10 * a + d) rest.
Proof.
  intros Hd. destruct (digit_char_spec d Hd) as (Hdig & Hval & _).
  cbn [int_digits]. now rewrite Hdig, Hval.
Qed.

Lemma int_digits_dec (f : nat) :
  forall n rest,
    0 <= n < 2 ^ (Z.of_nat f + 1) ->
    int_digits 0 (dec_digits f n rest) = int_digits n rest.
Proof.
  induction f as [|f IH]; intros n rest Hn.
  - cbn [dec_digits]. change (2 ^ (Z.of_nat 0 + 1)) with 2 in Hn.
    rewrite int_digits_digit by (apply Z.mod_pos_bound; lia).
    f_equal. rewrite Z.mod_small; lia.
  - cbn [dec_digits]. destruct (Z.eqb_spec (n / 10) 0) as [Hq|Hq].
    + rewrite int_digits_digit by (apply Z.mod_pos_bound; lia).
      f_equal. pose proof (Z.div_mod n 10 ltac:(lia)). lia.
    + rewrite IH.
      * rewrite int_digits_digit by (apply Z.mod_pos_bound; lia).
        f_equal. pose proof (Z.div_mod n 10 ltac:(lia)). lia.
      * split; [apply Z.div_pos; lia|].
        replace (Z.of_nat (S f) + 1) with (Z.succ (Z.of_nat f + 1)) in Hn by lia.
        rewrite Z.pow_succ_r in Hn by lia.
        apply Z.div_lt_upper_bound; lia.
Qed.

Lemma log2_fuel (n : Z) :
  0 <= n -> 0 <= n < 2 ^ (Z.of_nat (Z.to_nat (Z.log2 n)) + 1).
Proof.
  intros Hn. split; [assumption|].
  rewrite Z2Nat.id by apply Z.log2_nonneg.
  destruct (Z.eq_dec n 0) as [->|Hne]; [reflexivity|].
  replace (Z.log2 n + 1) with (Z.succ (Z.log2 n)) by lia.
  apply Z.log2_spec. lia.
Qed.

Lemma int_digits_str (n : Z) :
  0 <= n -> int_digits 0 (str_of_nonneg n) = Some n.
Proof.
  intros Hn. unfold str_of_nonneg.
  rewrite int_digits_dec by (apply log2_fuel; assumption).
  reflexivity.
Qed.

Lemma int_digits_zeros (k : nat) (s : string) :
  int_digits 0 (zeros k s) = int_digits 0 s.
Proof.
  induction k as [|k IH]; [reflexivity|].
  cbn [zeros]. change zero with (digit_char 0).
  rewrite int_digits_digit by lia. exact IH.
Qed.

Lemma dec_digits_first (f : nat) :
  forall n acc, digit_first (dec_digits f n acc).
Proof.
  induction f as [|f IH]; intros n acc; cbn [dec_digits].
  - exists (n mod 10), acc. split; [apply Z.mod_pos_bound; lia|reflexivity].
  - destruct (n / 10 =? 0); [|apply IH].
    exists (n mod 10), acc. split; [apply Z.mod_pos_bound; lia|reflexivity].
Qed.

Lemma zeros_first (k : nat) (s : string) :
  digit_first s -> digit_first (zeros k s).
Proof.
  intros Hs. destruct k as [|k]; [exact Hs|].
  exists 0, (zeros k s). split; [lia|reflexivity].
Qed.

Lemma int_unsigned_first (s : string) :
  digit_first s -> int_unsigned s = int_digits 0 s.
Proof.
  intros (d & rest & Hd & ->).
  destruct (digit_char_spec d Hd) as (Hdig & Hval & _).
  cbn [int_unsigned int_digits]. rewrite Hdig, Hval.
  reflexivity.
Qed.

Lemma int_first (s : string) :
  digit_first s -> int s = int_digits 0 s.
Proof.
  intros Hs. rewrite <- int_unsigned_first by exact Hs.
  destruct Hs as (d & rest & Hd & ->).
  destruct (digit_char_spec d Hd) as (_ & _ & _ & Hsp & Hm & Hp).
  unfold int. cbn [lstrip]. now rewrite Hsp, Hm, Hp.
Qed.

(** Parsing what [format] printed gives the number back. *)
Lemma int_format_0d (w : nat) (n : Z) : int (format_0d w n) = Some n.
Proof.
  unfold format_0d. destruct (Z.ltb_spec n 0) as [Hneg|Hpos].
  - unfold int. cbn [lstrip]. change (is_space minus) with false.
    cbn iota. change (Ascii.eqb minus minus) with true. cbn iota.
    rewrite int_unsigned_first
      by (apply zeros_first, dec_digits_first).
    rewrite int_digits_zeros, int_digits_str by lia.
    cbn. f_equal. lia.
  - rewrite int_first by (apply zeros_first, dec_digits_first).
    rewrite int_digits_zeros, int_digits_str by lia.
    f_equal. lia.
Qed.

Lemma plain_dec_digits (f : nat) :
  forall n acc, plain acc = true -> plain (dec_digits f n acc) = true.
Proof.
  assert (Hd : forall n acc, plain acc = true ->
               plain (String (digit_char (n mod 10)) acc) = true).
  { intros n acc Hacc. cbn [plain].
    destruct (digit_char_spec (n mod 10)) as (_ & _ & Hus & _);
      [apply Z.mod_pos_bound; lia|].
    now rewrite Hus, Hacc. }
  induction f as [|f IH]; intros n acc Hacc; cbn [dec_digits].
  - now apply Hd.
  - destruct (n / 10 =? 0); [now apply Hd|]. apply IH. now apply Hd.
Qed.

Lemma plain_zeros (k : nat) (s : string) :
  plain s = true -> plain (zeros k s) = true.
Proof. intros Hs. induction k as [|k IH]; [exact Hs|]. cbn. exact IH. Qed.

Lemma plain_format_0d (w : nat) (n : Z) : plain (format_0d w n) = true.
Proof.
  unfold format_0d.
  destruct (n <? 0); [cbn [plain]; change (Ascii.eqb minus underscore) with false; cbn|];
    apply plain_zeros, plain_dec_digits; reflexivity.
Qed.

Lemma split_plain (s : string) :
  plain s = true -> split underscore s = [s].
Proof.
  induction s as [|c s IH]; [reflexivity|].
  cbn [plain split]. intros [Hc Hs]%andb_true_iff.
  apply negb_true_iff in Hc. rewrite Hc, (IH Hs). reflexivity.
Qed.

Lemma split_joined (a b : string) :
  plain a = true -> plain b = true ->
  split underscore (a +:+ "_" +:+ b) = [a; b].
Proof.
  intros Ha Hb. induction a as [|c a IH].
  - change (EmptyString +:+ "_" +:+ b) with (String underscore b).
    cbn [split]. rewrite Ascii.eqb_refl, (split_plain b Hb). reflexivity.
  - cbn [plain] in Ha. apply andb_true_iff in Ha as [Hc Ha].
    apply negb_true_iff in Hc.
    change (String c a +:+ "_" +:+ b) with (String c (a +:+ "_" +:+ b)).
    cbn [split]. rewrite Hc, (IH Ha). reflexivity.
Qed.

Lemma length_zeros (k : nat) (s : string) :
  String.length (zeros k s) = (k + String.length s)%nat.
Proof. induction k as [|k IH]; [reflexivity|]. cbn. now rewrite IH. Qed.

Lemma length_dec_digits_pos (f : nat) :
  forall n acc, (1 <= String.length (dec_digits f n acc))%nat.
Proof.
  intros n acc. destruct (dec_digits_first f n acc) as (d & rest & _ & ->).
  cbn. lia.
Qed.

(** The printed number is at least [w] characters wide. *)
Lemma length_format_0d (w : nat) (n : Z) :
  (w <= String.length (format_0d w n))%nat.
Proof.
  unfold format_0d. destruct (n <? 0); cbn [String.length];
    rewrite length_zeros; lia.
Qed.

Lemma split_object_id (e n : Z) :
  split underscore (object_id e n) = [format_0d 2 e; format_0d 4 n].
Proof. apply split_joined; apply plain_format_0d. Qed.

End Decimal.

(** ** The worker's loop body *)

(** Runs the sequencing of exceptions as far as the values are known. *)
Ltac res_simpl := cbn [mbind res_bind or_raise unpack2 pool].

(** The three ways [fit_item] ends, read off its definition. *)
Lemma fit_item_cases (model : ModelCPU) (convolved : ndarray) (name : string)
    (data segment noise : ndarray) :
  convolved_models model = Some convolved ->
  let chi_cube := dre_fit model convolved data segment noise in
  (all_nan chi_cube = true /\
   fit_item model name data segment noise
   = Ok (mk_result name false chi_cube None None))
  \/ (all_nan chi_cube = false /\
      exists e, fit_item model name data segment noise = Raise e)
  \/ (all_nan chi_cube = false /\
      exists ext numb e n mosaic,
        PyStr.split PyStr.underscore name = [ext; numb]
        /\ PyStr.int ext = Some e /\ PyStr.int numb = Some n
        /\ fit_item model name data segment noise
           = Ok (mk_result name true chi_cube
                   (Some (<["NUMBER" := PInt n]>
                            (<["EXT_NUMBER" := PInt e]>
                               (get_parameters model chi_cube))))
                   mosaic)).
Proof.
  intros Hc chi_cube. unfold fit_item. rewrite Hc. res_simpl. fold chi_cube.
  destruct (all_nan chi_cube) eqn:Hnan; cbn [negb]; [left; split; reflexivity|].
  right.
  destruct (PyStr.split PyStr.underscore name) as [|ext [|numb [|? ?]]] eqn:Hs;
    res_simpl; try (left; split; [reflexivity|eexists; reflexivity]).
  destruct (PyStr.int ext) as [e|] eqn:He; res_simpl;
    [|left; split; [reflexivity|eexists; reflexivity]].
  destruct (PyStr.int numb) as [n|] eqn:Hn; res_simpl;
    [|left; split; [reflexivity|eexists; reflexivity]].
  destruct (save_mosaics model).
  - repeat (match goal with
            | |- context [or_raise KeyError ?o] => destruct o
            end; res_simpl);
      try (left; split; [reflexivity|eexists; reflexivity]).
    right. split; [reflexivity|]. do 5 eexists. repeat split; eauto.
  - right. split; [reflexivity|]. do 5 eexists. repeat split; eauto.
Qed.

(** ** Object ids written by the cutter *)

(** Every entry of the archive the loop leaves was there before or was
    written for a row of the catalogue the cutter kept, under the id
    printed from that row's two numbers. *)
Lemma cut_rows_entries (c : Cutter) (cat : list params) :
  forall (h5 : list (string * cutout)) k v,
    (k, v) ∈ fst (cut_rows c cat h5) ->
    (k, v) ∈ h5
    \/ exists row e n,
         row ∈ cat
         /\ condition c row = true
         /\ blank c row = false
         /\ default (PInt 0) (row !! "EXT_NUMBER") = PInt e
         /\ row !! "NUMBER" = Some (PInt n)
         /\ k = object_id e n
         /\ v = cut c row.
Proof.
  induction cat as [|row cat IH]; intros h5 k v; cbn [cut_rows fst];
    [now left|].
  assert (Hnext : forall h5',
             (k, v) ∈ fst (cut_rows c cat h5') ->
             (forall x, x ∈ h5' -> x ∈ h5) ->
             (k, v) ∈ h5
             \/ exists row' e n,
                  row' ∈ row :: cat
                  /\ condition c row' = true
                  /\ blank c row' = false
                  /\ default (PInt 0) (row' !! "EXT_NUMBER") = PInt e
                  /\ row' !! "NUMBER" = Some (PInt n)
                  /\ k = object_id e n
                  /\ v = cut c row').
  { intros h5' Hin Hsub.
    destruct (IH h5' k v Hin) as [Hold|(row' & e & n & Hrow & H)].
    - left. now apply Hsub.
    - right. exists row', e, n. split; [now right|exact H]. }
  destruct (condition c row) eqn:Hc; [|intros H; now apply (Hnext h5)].
  destruct (blank c row) eqn:Hb; [intros H; now apply (Hnext h5)|].
  destruct (row !! "NUMBER") as [number|] eqn:Hnum; [|now left].
  destruct (default (PInt 0) (row !! "EXT_NUMBER")) as [e|] eqn:Hext;
    cbn [format_d]; [|now left].
  destruct number as [n|]; cbn [format_d]; [|now left].
  unfold create_group.
  destruct (h5_get _ h5); [now left|].
  intros Hin.
  destruct (IH _ k v Hin) as [Hold|(row' & e' & n' & Hrow & H)].
  - apply elem_of_app in Hold as [Hold|Hnew]; [now left|].
    apply list_elem_of_singleton in Hnew. inversion Hnew; subst k v.
    right. exists row, e, n. repeat split; try assumption. now left.
  - right. exists row', e', n'. split; [now right|exact H].
Qed.

Lemma fit_item_parsed (model : ModelCPU) (name ext numb : string) (e n : Z)
    (data segment noise : ndarray) :
  PyStr.split PyStr.underscore name = [ext; numb] ->
  PyStr.int ext = Some e ->
  PyStr.int numb = Some n ->
  fit_item model name data segment noise <> Raise ValueError.
Proof.
  intros Hs He Hn. unfold fit_item.
  destruct (convolved_models model); res_simpl; [|discriminate].
  destruct (negb _); [|discriminate].
  rewrite Hs. res_simpl. rewrite He. res_simpl. rewrite Hn. res_simpl.
  destruct (save_mosaics model); [|discriminate].
  repeat (match goal with
          | |- context [or_raise KeyError ?o] => destruct o
          end; res_simpl); discriminate.
Qed.

(** C9, as the code has it. Every object id in an archive written by
    [cut_image] names a row of the catalogue that passed the cutter's
    condition and whose cutout was not blank, and the cutout stored under
    the id is that row's: the id is that row's extension number (0 when
    the row has no such column) zero-padded to at least two characters, an
    underscore, and that row's catalogue number zero-padded to at least
    four characters; the worker's split of such an id gives exactly these
    two parts, each converts back to the integer it was printed from, and
    the loop body never fails with a [ValueError] on it. *)
Theorem cutter_ids_parse (c : Cutter) (cat : list params) (name : string) :
  name ∈ h5_keys (fst (cut_image c cat)) ->
  exists row e n,
    row ∈ cat
    /\ condition c row = true
    /\ blank c row = false
    /\ default (PInt 0) (row !! "EXT_NUMBER") = PInt e
    /\ row !! "NUMBER" = Some (PInt n)
    /\ (name, cut c row) ∈ fst (cut_image c cat)
    /\ name = object_id e n
    /\ PyStr.split PyStr.underscore name
       = [PyStr.format_0d 2 e; PyStr.format_0d 4 n]
    /\ PyStr.int (PyStr.format_0d 2 e) = Some e
    /\ PyStr.int (PyStr.format_0d 4 n) = Some n
    /\ (2 <= String.length (PyStr.format_0d 2 e))%nat
    /\ (4 <= String.length (PyStr.format_0d 4 n))%nat
    /\ forall model data segment noise,
        fit_item model name data segment noise <> Raise ValueError.
Proof.
  intros Hin. unfold h5_keys in Hin.
  apply list_elem_of_fmap in Hin as ([k v] & Hk & Hin). cbn in Hk. subst k.
  destruct (cut_rows_entries c cat [] name v Hin)
    as [Hnil|(row & e & n & Hrow & Hc & Hb & Hext & Hnum & Hid & Hv)];
    [inversion Hnil|].
  subst v. exists row, e, n. rewrite Hid in *.
  pose proof (split_object_id e n) as Hs.
  pose proof (int_format_0d 2 e) as He.
  pose proof (int_format_0d 4 n) as Hn.
  repeat split; try assumption; try apply length_format_0d.
  intros model data segment noise.
  exact (fit_item_parsed model _ _ _ e n data segment noise Hs He Hn).
Qed.

Lemma cutter_ids_parse_witness :
  exists row e n,
    row ∈ [Sample.row 3 42]
    /\ default (PInt 0) (row !! "EXT_NUMBER") = PInt e
    /\ row !! "NUMBER" = Some (PInt n)
    /\ "03_0042" = object_id e n
    /\ PyStr.int (PyStr.format_0d 2 e) = Some e
    /\ PyStr.int (PyStr.format_0d 4 n) = Some n.
Proof.
  assert (Hin : "03_0042" ∈ h5_keys (fst (cut_image Sample.cutter [Sample.row 3 42]))).
  { vm_compute. apply list_elem_of_here. }
  destruct (cutter_ids_parse Sample.cutter [Sample.row 3 42] "03_0042" Hin)
    as (row & e & n & Hrow & _ & _ & Hext & Hnum & _ & Hid & _ & He & Hn & _).
  exists row, e, n. repeat split; assumption.
Defined.

(** C9, as stated, fails: a catalogue number of five digits is written
    with five digits, not four. *)
Lemma cutter_id_five_digits :
  h5_keys (fst (cut_image Sample.cutter [Sample.row 0 12345])) = ["00_12345"]
  /\ two_and_four_digits "00_12345" = false.
Proof. split; vm_compute; reflexivity. Qed.

(** ** The collector's loop body *)

(** C3. A result whose score cube is entirely NaN comes out of the worker
    with [success = false], and when the collector takes it from the
    output queue it appends no row to the summary table, writes nothing to
    any output archive and no mosaic file, counts the result as done and
    goes back to its loop test without raising. *)
Theorem failed_result_dropped (j : job) (model : ModelCPU) (convolved : ndarray)
    (name : string) (data segment noise : ndarray) (st : state)
    (q : list result) :
  convolved_models model = Some convolved ->
  Forall (fun x => isnan x = true)
         (cells (dre_fit model convolved data segment noise)) ->
  exists r,
    fit_item model name data segment noise = Ok r
    /\ r_success r = false
    /\ (output_thread st = CGet ->
        output_queue st = r :: q ->
        exists st',
          collector_step j st = Some st'
          /\ table st' = table st
          /\ chi_files st' = chi_files st
          /\ mosaic_files st' = mosaic_files st
          /\ output_queue st' = q
          /\ completed st' = S (completed st)
          /\ out_acks st' = S (out_acks st)
          /\ output_thread st' = CLoop).
Proof.
  intros Hc Hall.
  assert (Hnan : all_nan (dre_fit model convolved data segment noise) = true).
  { unfold all_nan. rewrite forallb_forall. intros x Hx.
    rewrite Forall_forall in Hall. apply Hall. now apply list_elem_of_In. }
  eexists. split; [|split].
  - unfold fit_item. rewrite Hc. res_simpl. rewrite Hnan. reflexivity.
  - reflexivity.
  - intros Hpc Hq. eexists. split.
    + unfold collector_step. rewrite Hpc, Hq. reflexivity.
    + unfold collect. cbn. repeat split; reflexivity.
Qed.

Lemma failed_result_dropped_witness :
  exists st',
    collector_step Sample.job2 Sample.collecting = Some st'
    /\ table st' = [] /\ chi_files st' = ∅ /\ completed st' = 1%nat.
Proof.
  destruct (failed_result_dropped Sample.job2 Sample.model (models Sample.model0)
              "00_0002" (Sample.pixel Sample.nan) (Sample.pixel Sample.one)
              (Sample.pixel Sample.one) Sample.collecting [] eq_refl)
    as (r & Hr & Hs & Hcol).
  - repeat constructor.
  - vm_compute in Hr. inversion Hr; subst r.
    destruct (Hcol eq_refl eq_refl) as (st' & Hstep & Ht & Hchi & _ & _ & Hdone & _).
    exists st'. repeat split; assumption.
Defined.

(** ** [ModelCPU.convolve] *)

Lemma prod_app (a b : list nat) : prod (a ++ b) = (prod a * prod b)%nat.
Proof.
  unfold prod. induction a as [|x a IH]; cbn [app fold_right]; [lia|].
  rewrite IH. lia.
Qed.

Lemma chunk_of_concat {A : Type} (k : nat) (ls : list (list A)) :
  Forall (fun l => length l = k) ls ->
  forall i l, ls !! i = Some l -> take k (drop (i * k) (concat ls)) = l.
Proof.
  induction 1 as [|x ls Hx Hls IH]; intros i l Hl; [discriminate|].
  destruct i as [|i]; cbn in Hl.
  - inversion Hl; subst l. cbn [Nat.mul concat]. rewrite drop_0.
    apply take_app_length'. now symmetry.
  - cbn [concat]. replace (S i * k)%nat with (length x + i * k)%nat by lia.
    rewrite drop_app_add. now apply IH.
Qed.

Lemma slice_cells_length (image : list nat) (a : ndarray) (n i : nat) :
  length (cells a) = (n * prod image)%nat ->
  (i < n)%nat ->
  length (cells (slice image a i)) = prod image.
Proof.
  intros Hlen Hi. cbn. rewrite length_take, length_drop. nia.
Qed.

Lemma np_array_same_shape (image : list nat) (l : list ndarray) :
  Forall (fun a => shape a = image) l ->
  l <> [] ->
  np_array l = Ok (mk_ndarray (length l :: image) (concat (map cells l))).
Proof.
  intros Hl Hne. destruct l as [|a l']; [congruence|].
  unfold np_array.
  assert (Ha : shape a = image) by (now inversion Hl).
  replace (forallb _ (a :: l')) with true; [now rewrite Ha|].
  symmetry. apply forallb_forall. intros b Hb.
  rewrite Forall_forall in Hl. unfold shape_eqb.
  apply bool_decide_eq_true. rewrite Ha. apply Hl. now apply list_elem_of_In.
Qed.

Lemma length_concat_uniform {A : Type} (k : nat) (ls : list (list A)) :
  Forall (fun l => length l = k) ls ->
  length (concat ls) = (length ls * k)%nat.
Proof.
  induction 1 as [|x ls Hx _ IH]; [reflexivity|].
  cbn. rewrite length_app, IH, Hx. reflexivity.
Qed.

(** What [convolve] computes on a well-shaped cube of at least three
    axes when the PSF file exists. *)
Lemma convolve_computes (ext : Externals) (self : ModelCPU) (psf_file : string)
    (n_proc : nat) (psf : ndarray) :
  get_psf ext psf_file = Some psf ->
  (1 <= n_proc)%nat ->
  mode_same ext ->
  well_shaped (models self) ->
  (3 <= length (shape (models self)))%nat ->
  let s := shape (models self) in
  let lead := take (length s - 2) s in
  let image := drop (length s - 2) s in
  flatten_shape s = Ok (prod lead :: image)
  /\ exists cube,
      convolve ext self psf_file n_proc = Ok (set_convolved self cube)
      /\ shape cube = s
      /\ length (cells cube) = prod s
      /\ forall i,
          (i < prod lead)%nat ->
          slice image cube i
          = to_shared_mem ext
              (fftconvolve_same ext (slice image (models self) i) psf).
Proof.
  intros Hpsf Hn Hsame Hwf Hdim s lead image.
  assert (Hs : s = lead ++ image) by (symmetry; apply take_drop).
  assert (Hlead : lead <> []).
  { intros Hnil. apply (f_equal length) in Hnil. subst lead.
    rewrite length_take in Hnil. cbn in Hnil. subst s. lia. }
  assert (Hflat : flatten_shape s = Ok (prod lead :: image)).
  { unfold flatten_shape. fold lead image. destruct lead; congruence. }
  split; [exact Hflat|].
  assert (Hsize : length (cells (models self)) = (prod lead * prod image)%nat).
  { rewrite Hwf. fold s. rewrite Hs at 1. apply prod_app. }
  set (flat := mk_ndarray (prod lead :: image) (cells (models self))).
  assert (Hreshape : reshape (prod lead :: image) (models self) = Ok flat).
  { unfold reshape. cbn [prod fold_right]. fold (prod image).
    rewrite Hsize, Nat.eqb_refl. reflexivity. }
  set (convolved :=
         map (fun img => fftconvolve_same ext img psf) (slices flat)).
  assert (Hslices : slices flat
                    = map (slice image (models self)) (seq 0 (prod lead))).
  { reflexivity. }
  assert (Hlenc : length convolved = prod lead).
  { unfold convolved. rewrite Hslices, !length_map, length_seq. reflexivity. }
  assert (Hshapes : Forall (fun a => shape a = image) convolved).
  { unfold convolved. rewrite Hslices, Forall_map, Forall_map.
    apply Forall_forall. intros i _. cbn. apply Hsame. }
  assert (Hlens : Forall (fun l => length l = prod image) (map cells convolved)).
  { unfold convolved. rewrite Hslices, !Forall_map.
    apply Forall_forall. intros i Hi. cbn beta.
    destruct (Hsame (slice image (models self) i) psf) as [_ ->].
    apply elem_of_seq in Hi.
    apply (slice_cells_length image (models self) (prod lead)); [exact Hsize|lia]. }
  assert (Hstack : exists stacked,
             np_array convolved = Ok stacked
             /\ cells stacked = concat (map cells convolved)).
  { destruct (decide (convolved = [])) as [Hnil|Hne].
    - rewrite Hnil. eexists. split; reflexivity.
    - rewrite (np_array_same_shape image convolved Hshapes Hne).
      eexists. split; reflexivity. }
  destruct Hstack as (stacked & Hstacked & Hcells).
  assert (Hlen : length (cells stacked) = prod s).
  { rewrite Hcells, (length_concat_uniform (prod image)) by exact Hlens.
    rewrite length_map, Hlenc, Hs. symmetry. apply prod_app. }
  exists (to_shared_mem ext (mk_ndarray s (cells stacked))).
  split; [|split; [reflexivity|split]].
  - unfold convolve. rewrite Hpsf.
    destruct n_proc as [|n_proc]; [lia|]. res_simpl.
    fold s. rewrite Hflat. res_simpl. rewrite Hreshape. res_simpl.
    fold convolved. rewrite Hstacked. res_simpl.
    unfold reshape. rewrite Hlen, Nat.eqb_refl. reflexivity.
  - cbn. rewrite length_map. exact Hlen.
  - intros i Hi. unfold slice at 1, to_shared_mem at 1. cbn [cells shape].
    rewrite Hcells.
    assert (Hith : convolved !! i
                   = Some (fftconvolve_same ext (slice image (models self) i) psf)).
    { unfold convolved. rewrite Hslices, !list_lookup_fmap.
      rewrite (lookup_seq_lt 0 (prod lead) i Hi). reflexivity. }
    change (map (c_float ext) (concat (map cells convolved)))
      with (c_float ext <$> concat (map cells convolved)).
    rewrite <- fmap_drop, <- fmap_take.
    rewrite (chunk_of_concat (prod image) (map cells convolved) Hlens i
               (cells (fftconvolve_same ext (slice image (models self) i) psf))).
    + unfold to_shared_mem. f_equal. symmetry. apply Hsame.
    + change (map cells convolved) with (cells <$> convolved).
      rewrite list_lookup_fmap, Hith. reflexivity.
Qed.

(** ** Runs of a job *)

Lemma step_trans (j : job) (a : actor) (st st' : state) :
  step j a st = Some st' -> trans j st st'.
Proof.
  destruct a as [|i|  |i| ]; cbn [step].
  - unfold feeder_step. intros H.
    destruct (feed_thread st) as [| | |[|k]| |] eqn:Hpc; try discriminate.
    + destruct (submitted st <? length (j_names j))%nat eqn:Hlt;
        destruct (terminate st) eqn:Hterm; cbn in H; inversion H; subst st'.
      * apply feed_exit; auto.
      * apply Nat.ltb_lt in Hlt. now apply feed_enter.
      * apply feed_exit; auto.
      * apply Nat.ltb_ge in Hlt. apply feed_exit; auto.
    + destruct (j_names j !! submitted st) as [name|] eqn:Hname;
        [|inversion H; now apply feed_key_error].
      destruct (h5_get name (j_input j)) as [c|] eqn:Hc;
        [|inversion H; now apply feed_key_error].
      destruct (queue_full _ _) eqn:Hfull; inversion H; subst st'.
      * now apply feed_full.
      * now apply feed_put.
    + destruct (terminate st) eqn:Hterm; cbn in H; inversion H; subst st'.
      * now apply feed_cancelled.
      * now apply feed_sentinels.
    + inversion H. now apply feed_return.
    + destruct (queue_full _ _) eqn:Hfull; inversion H; subst st'.
      now apply feed_stop.
  - unfold worker_step. intros H.
    destruct (processes st !! i) as [p|] eqn:Hp; [|discriminate].
    destruct (p_pc p) as [|name data segment noise| | | |] eqn:Hpc;
      try discriminate.
    + destruct (input_queue st) as [|[name data segment noise|] q] eqn:Hq;
        inversion H; subst st'.
      * now apply work_get.
      * now apply work_stop.
    + destruct (fit_item _ _ _ _ _) as [r|e] eqn:Hfit; inversion H; subst st'.
      * now apply (work_push j st i p name data segment noise).
      * now apply (work_raise j st i p name data segment noise).
    + inversion H. now apply work_ack.
  - unfold collector_step. intros H.
    destruct (output_thread st) eqn:Hpc; try discriminate.
    + destruct (completed st <? length (j_names j))%nat eqn:Hlt;
        destruct (terminate st) eqn:Hterm; cbn in H; inversion H; subst st'.
      * apply collect_exit; auto.
      * apply Nat.ltb_lt in Hlt. now apply collect_enter.
      * apply collect_exit; auto.
      * apply Nat.ltb_ge in Hlt. apply collect_exit; auto.
    + destruct (output_queue st) as [|r q] eqn:Hq; inversion H; subst st'.
      * now apply collect_empty.
      * now apply collect_result.
  - unfold sigint_step. intros H.
    destruct (processes st !! i) as [p|] eqn:Hp; [|discriminate].
    destruct (p_pc p) eqn:Hpc; inversion H; subst st';
      apply work_sigint; try assumption; now rewrite Hpc.
  - intros H. inversion H. apply main_abort.
Qed.

(** A property kept by every move holds all along every schedule. *)
Lemma run_invariant (j : job) (P : state -> Prop) :
  (forall st st', P st -> trans j st st' -> P st') ->
  forall sched st, P st -> P (run j sched st).
Proof.
  intros Hkeep sched. induction sched as [|a sched IH]; intros st Hst;
    cbn [run]; [exact Hst|].
  apply IH. destruct (step j a st) as [st'|] eqn:Hstep; cbn; [|exact Hst].
  eapply Hkeep; [exact Hst|]. eapply step_trans, Hstep.
Qed.

Lemma stop_processes_invariant (j : job) (P : state -> Prop) :
  (forall st st', P st -> trans j st st' -> P st') ->
  forall sched st, P st -> P (snd (stop_processes j sched st)).
Proof.
  intros Hkeep sched. induction sched as [|a sched IH]; intros st Hst;
    cbn [stop_processes]; [destruct (joined st); exact Hst|].
  destruct (joined st); [exact Hst|].
  assert (Hnext : P (default st (step j a st))).
  { destruct (step j a st) as [st'|] eqn:Hstep; cbn; [|exact Hst].
    eapply Hkeep; [exact Hst|]. eapply step_trans, Hstep. }
  destruct a; try (apply IH; exact Hnext). exact Hst.
Qed.

(** ** Counting lemmas *)

Lemma tally_insert (w : worker_pc -> nat) (ps : list process) (i : nat)
    (p q : process) :
  ps !! i = Some p ->
  (tally w (<[i := q]> ps) + w (p_pc p) = tally w ps + w (p_pc q))%nat.
Proof.
  revert i. induction ps as [|x ps IH]; intros i Hi; [discriminate|].
  destruct i as [|i].
  - cbn in *. inversion Hi; subst x. lia.
  - specialize (IH i Hi).
    change (<[S i := q]> (x :: ps)) with (x :: <[i := q]> ps).
    cbn [tally]. lia.
Qed.

Lemma tally_replicate (w : worker_pc -> nat) (n : nat) (p : process) :
  tally w (replicate n p) = (n * w (p_pc p))%nat.
Proof.
  induction n as [|n IH]; cbn in *; [reflexivity|].
  rewrite IH. reflexivity.
Qed.

Lemma count_items_app (l1 l2 : list msg) :
  count_items (l1 ++ l2) = (count_items l1 + count_items l2)%nat.
Proof. unfold count_items. now rewrite List.filter_app, length_app. Qed.

Lemma count_stops_app (l1 l2 : list msg) :
  count_stops (l1 ++ l2) = (count_stops l1 + count_stops l2)%nat.
Proof. unfold count_stops. now rewrite List.filter_app, length_app. Qed.

Lemma count_items_one (m : msg) :
  count_items [m] = if is_item m then 1%nat else 0%nat.
Proof. unfold count_items. cbn. now destruct (is_item m). Qed.

Lemma count_stops_one (m : msg) :
  count_stops [m] = if is_item m then 0%nat else 1%nat.
Proof. unfold count_stops, is_stop. cbn. now destruct (is_item m). Qed.

Lemma count_items_replicate_stop (k : nat) :
  count_items (replicate k STOP) = 0%nat.
Proof.
  induction k as [|k IH]; [reflexivity|].
  change (replicate (S k) STOP) with ([STOP] ++ replicate k STOP).
  now rewrite count_items_app, IH.
Qed.

Lemma count_items_fed (j : job) (names : list string) (items : list msg) :
  Forall2 (is_item_of j) names items -> count_items items = length names.
Proof.
  induction 1 as [|name m names items (c & _ & ->) _ IH]; [reflexivity|].
  change (Item name (obj c) (seg c) (rms c) :: items)
    with ([Item name (obj c) (seg c) (rms c)] ++ items).
  rewrite count_items_app, IH. reflexivity.
Qed.

(** What [collect] leaves alone, and its two ways out. *)
Lemma collect_frame (j : job) (r : result) (st : state) :
  let st' := collect j r st in
  terminate st' = terminate st
  /\ input_queue st' = input_queue st
  /\ output_queue st' = output_queue st
  /\ feed_thread st' = feed_thread st
  /\ submitted st' = submitted st
  /\ processes st' = processes st
  /\ in_acks st' = in_acks st
  /\ put_log st' = put_log st
  /\ got_log st' = got_log st
  /\ pushed_log st' = pushed_log st
  /\ ((output_thread st' = CLoop /\ completed st' = S (completed st))
      \/ (exists e, output_thread st' = CRaised e)
         /\ completed st' = completed st).
Proof.
  unfold collect. destruct (r_success r).
  - destruct (create_dataset _ _ _ _ _) as [files|e].
    + destruct (save_mosaics (j_model j)); cbn; repeat split; left; split; reflexivity.
    + cbn. repeat split. right. split; [eexists|]; reflexivity.
  - cbn. repeat split. left. split; reflexivity.
Qed.

(** ** The job invariant *)

(** Replaces the fields of [collect j r st] that [collect] leaves alone
    by those of [st], and splits on how [collect] ended. *)
Ltac frame_collect :=
  match goal with
  | |- context [collect ?j ?r ?s] =>
      let F := fresh "F" in
      pose proof (collect_frame j r s) as F; cbn in F;
      destruct F as (Ft & Fiq & Foq & Fft & Fsub & Fps & Facks & Fput
                     & Fgot & Fpushed & Fout);
      rewrite ?Ft, ?Fiq, ?Foq, ?Fft, ?Fsub, ?Fps, ?Facks, ?Fput, ?Fgot,
        ?Fpushed;
      destruct Fout as [[Fpc Fdone]|[[e Fpc] Fdone]]; rewrite ?Fpc, ?Fdone
  end.

(** The four tallies after the program counter of process [i] changed. *)
Ltac tally_pc Hp :=
  match goal with
  | |- context [<[?i := ?q]> (processes ?st)] =>
      pose proof (tally_insert fitting (processes st) i _ q Hp);
      pose proof (tally_insert acking (processes st) i _ q Hp);
      pose proof (tally_insert raised (processes st) i _ q Hp);
      pose proof (tally_insert stopped (processes st) i _ q Hp);
      pose proof (tally_insert interrupted (processes st) i _ q Hp)
  end.

Lemma keep_models (j : job) (st st' : state) :
  trans j st st' ->
  Forall (fun p => p_model p = j_model j) (processes st) ->
  Forall (fun p => p_model p = j_model j) (processes st').
Proof.
  intros Ht Hst.
  destruct Ht; cbn; try frame_collect; try assumption;
    (apply Forall_insert; [assumption|]; cbn;
     eapply (Forall_lookup_1 _ _ _ _ Hst); eassumption).
Qed.

Lemma keep_n_proc (j : job) (st st' : state) :
  trans j st st' ->
  length (processes st') = length (processes st).
Proof.
  intros Ht.
  destruct Ht; cbn; try frame_collect; try reflexivity; apply length_insert.
Qed.

Lemma keep_fifo (j : job) (st st' : state) :
  trans j st st' ->
  put_log st = got_log st ++ input_queue st ->
  put_log st' = got_log st' ++ input_queue st'.
Proof.
  intros Ht Hst.
  destruct Ht; cbn; try frame_collect; try assumption;
    try (rewrite Hst, <- app_assoc; reflexivity);
    match goal with
    | Hq : input_queue _ = _ :: _ |- _ =>
        rewrite Hst, Hq, <- app_assoc; reflexivity
    end.
Qed.

Lemma keep_stopped (j : job) (st st' : state) :
  trans j st st' ->
  count_stops (got_log st) = tally stopped (processes st) ->
  count_stops (got_log st') = tally stopped (processes st').
Proof.
  intros Ht Hst.
  destruct Ht; cbn; try frame_collect; try assumption;
    match goal with
    | Hp : processes _ !! _ = Some _ |- _ => tally_pc Hp
    end;
    rewrite ?count_stops_app, ?count_stops_one; cbn;
    match goal with
    | Hpc : p_pc _ = _ |- _ => rewrite Hpc in *; cbn in *; lia
    | Halive : worker_alive (p_pc ?p) = true |- _ =>
        destruct (p_pc p); try discriminate; cbn in *; lia
    end.
Qed.

Ltac count_pc :=
  rewrite ?count_items_app, ?count_items_one, ?length_app; cbn;
  try match goal with
      | Hp : processes _ !! _ = Some _ |- _ => tally_pc Hp
      end;
  match goal with
  | Hpc : p_pc _ = _ |- _ => rewrite Hpc in *; cbn in *; lia
  | _ => lia
  end.

Lemma keep_consumed (j : job) (st st' : state) :
  trans j st st' ->
  (terminate st = false ->
   count_items (got_log st)
   = (length (pushed_log st) + tally fitting (processes st)
      + tally raised (processes st))%nat) ->
  terminate st' = false ->
  count_items (got_log st')
  = (length (pushed_log st') + tally fitting (processes st')
     + tally raised (processes st'))%nat.
Proof.
  intros Ht Hst.
  destruct Ht; cbn; try frame_collect; intros Hterm; try discriminate;
    specialize (Hst Hterm); try assumption; count_pc.
Qed.

Lemma keep_acked (j : job) (st st' : state) :
  trans j st st' ->
  (terminate st = false ->
   length (pushed_log st) = (in_acks st + tally acking (processes st))%nat) ->
  terminate st' = false ->
  length (pushed_log st') = (in_acks st' + tally acking (processes st'))%nat.
Proof.
  intros Ht Hst.
  destruct Ht; cbn; try frame_collect; intros Hterm; try discriminate;
    specialize (Hst Hterm); try assumption; count_pc.
Qed.

Lemma keep_uninterrupted (j : job) (st st' : state) :
  trans j st st' ->
  (terminate st = false -> tally interrupted (processes st) = 0%nat) ->
  terminate st' = false ->
  tally interrupted (processes st') = 0%nat.
Proof.
  intros Ht Hst.
  destruct Ht; cbn; try frame_collect; intros Hterm; try discriminate;
    specialize (Hst Hterm); try assumption; count_pc.
Qed.

Lemma keep_collected (j : job) (st st' : state) :
  trans j st st' ->
  length (pushed_log st)
  = (completed st + length (output_queue st)
     + collector_raised (output_thread st))%nat ->
  length (pushed_log st')
  = (completed st' + length (output_queue st')
     + collector_raised (output_thread st'))%nat.
Proof.
  intros Ht Hst.
  destruct Ht; cbn; try frame_collect; rewrite ?length_app; cbn;
    repeat match goal with
           | H : output_thread st = _ |- _ =>
               try rewrite H in Hst; try rewrite H; clear H
           | H : output_queue st = _ |- _ =>
               try rewrite H in Hst; try rewrite H; clear H
           end; cbn in Hst |- *; lia.
Qed.

Lemma keep_returned (j : job) (st st' : state) :
  trans j st st' ->
  (output_thread st = CDone -> terminate st = false ->
   (length (j_names j) <= completed st)%nat) ->
  output_thread st' = CDone -> terminate st' = false ->
  (length (j_names j) <= completed st')%nat.
Proof.
  intros Ht Hst.
  destruct Ht; cbn; try frame_collect; intros Hpc Hterm;
    try discriminate; try (now apply Hst); try congruence.
  destruct H0 as [Hle|Hset]; [exact Hle|congruence].
Qed.

Lemma keep_submitted (j : job) (st st' : state) :
  trans j st st' ->
  (submitted st <= length (j_names j))%nat ->
  (submitted st' <= length (j_names j))%nat.
Proof.
  intros Ht Hst.
  destruct Ht; cbn; try frame_collect; try assumption.
  apply lookup_lt_Some in H0. lia.
Qed.

Lemma replicate_snoc {A : Type} (k : nat) (x : A) :
  replicate k x ++ [x] = replicate (S k) x.
Proof. induction k as [|k IH]; [reflexivity|]. cbn. now rewrite IH. Qed.

Lemma keep_fed (j : job) (st st' : state) :
  trans j st st' ->
  (submitted st <= length (j_names j))%nat ->
  (exists k, fed j st k /\ sentinels_due j st k) ->
  exists k, fed j st' k /\ sentinels_due j st' k.
Proof.
  intros Ht Hsub (k & (items & Hlog & Hitems) & Hdue).
  unfold sentinels_due in Hdue.
  destruct Ht;
    try (rewrite H in Hdue);
    try (exists k; split;
         [exists items; cbn; try frame_collect; split; assumption
         |unfold sentinels_due; cbn; try frame_collect;
          try rewrite H; try (destruct (feed_thread st));
          intuition (try congruence; try lia)]; fail).
  - (* the timed put succeeded *)
    destruct Hdue as [-> _]. exists 0%nat. split; [|reflexivity].
    exists (items ++ [Item name (obj c) (seg c) (rms c)]). cbn. split.
    + rewrite Hlog. cbn. now rewrite !app_nil_r.
    + rewrite (take_S_r _ _ _ H0). apply Forall2_app; [exact Hitems|].
      repeat constructor. exists c. split; [assumption|reflexivity].
  - (* one more sentinel *)
    destruct Hdue as [Hk Hall]. exists (S k). split.
    + exists items. cbn. split; [|exact Hitems].
      now rewrite Hlog, <- app_assoc, replicate_snoc.
    + unfold sentinels_due. cbn. split; [lia|exact Hall].
Qed.

Lemma job_inv_trans (j : job) (st st' : state) :
  job_inv j st -> trans j st st' -> job_inv j st'.
Proof.
  intros [] Ht. constructor.
  - now apply (keep_models j st).
  - now rewrite (keep_n_proc j st st' Ht).
  - now apply (keep_fed j st).
  - now apply (keep_submitted j st).
  - now apply (keep_fifo j st).
  - now apply (keep_consumed j st).
  - now apply (keep_acked j st).
  - now apply (keep_stopped j st).
  - now apply (keep_uninterrupted j st).
  - now apply (keep_collected j st).
  - now apply (keep_returned j st).
Qed.

Lemma job_inv_start (j : job) (st0 : state) :
  queues_empty st0 -> job_inv j (start_processes j st0).
Proof.
  intros (Hiq & Hoq).
  constructor; cbn; rewrite ?Hiq, ?Hoq, ?tally_replicate; cbn;
    try reflexivity; try lia; try discriminate;
    try (intros; unfold count_items, count_stops; cbn; lia).
  - now apply Forall_replicate.
  - apply length_replicate.
  - exists 0%nat. split; [|reflexivity].
    exists []. cbn. split; [reflexivity|constructor].
Qed.

Lemma job_inv_run (j : job) (sched : list actor) (st0 : state) :
  queues_empty st0 -> job_inv j (run j sched (start_processes j st0)).
Proof.
  intros Hempty. apply run_invariant;
    [apply job_inv_trans|now apply job_inv_start].
Qed.

(** ** Results on the output queue *)

Lemma all_nan_Forall (a : ndarray) :
  all_nan a = true <-> Forall (fun x => isnan x = true) (cells a).
Proof.
  unfold all_nan. rewrite forallb_forall, Forall_forall.
  split; intros H x Hx; apply H; now apply list_elem_of_In.
Qed.

Lemma fit_item_flagged (model : ModelCPU) (name : string)
    (data segment noise : ndarray) (r : result) :
  fit_item model name data segment noise = Ok r -> flagged r.
Proof.
  intros Hr.
  destruct (convolved_models model) as [convolved|] eqn:Hc;
    [|unfold fit_item in Hr; rewrite Hc in Hr; discriminate Hr].
  unfold flagged. rewrite <- all_nan_Forall.
  destruct (fit_item_cases model convolved name data segment noise Hc)
    as [[Hnan Hr']|[[_ [e Hr']]|[Hnan (ext & numb & e & n & mo & _ & _ & _ & Hr')]]];
    rewrite Hr' in Hr; inversion Hr; subst r; cbn; rewrite Hnan;
    split; congruence.
Qed.

Lemma fit_item_labelled (model : ModelCPU) (name : string)
    (data segment noise : ndarray) (r : result) :
  fit_item model name data segment noise = Ok r ->
  r_name r = name /\ labelled r.
Proof.
  intros Hr.
  destruct (convolved_models model) as [convolved|] eqn:Hc;
    [|unfold fit_item in Hr; rewrite Hc in Hr; discriminate Hr].
  destruct (fit_item_cases model convolved name data segment noise Hc)
    as [[_ Hr']|[[_ [e Hr']]|[_ (ext & numb & e & n & mo & Hsp & He & Hn & Hr')]]];
    rewrite Hr' in Hr; inversion Hr; subst r; cbn;
    (split; [reflexivity|]); intros Hs; cbn in Hs; try discriminate.
  exists ext, numb, e, n. eexists. repeat split; eauto.
  - rewrite lookup_insert_ne by discriminate. apply lookup_insert_eq.
  - apply lookup_insert_eq.
Qed.

(** Every result ever put on the output queue of a job came out of the
    loop body of a worker. *)
Lemma pushed_from_fit (j : job) (sched : list actor) (st0 : state) :
  Forall (fun r => exists model name data segment noise,
              fit_item model name data segment noise = Ok r)
         (pushed_log (run j sched (start_processes j st0))).
Proof.
  apply (run_invariant j
           (fun s => Forall (fun r => exists model name data segment noise,
                                 fit_item model name data segment noise = Ok r)
                            (pushed_log s)));
    [|cbn; constructor].
  clear. intros st st' Hst Ht.
  destruct Ht; cbn; try frame_collect; try assumption.
  apply Forall_app. split; [exact Hst|]. repeat constructor. eauto 10.
Qed.

(** C2. For every work item a worker takes, the loop body either puts a
    result whose success flag is true exactly when the score cube returned
    by the fitting kernel has a cell that is not NaN, or dies from an
    exception, which only happens on the success branch: an all-NaN cube
    always yields a result. So every result ever put on the output queue
    of a job has its flag true exactly when its cube is not entirely NaN. *)
Theorem success_iff_not_all_nan (model : ModelCPU) (convolved : ndarray)
    (name : string) (data segment noise : ndarray)
    (j : job) (sched : list actor) (st0 : state) :
  convolved_models model = Some convolved ->
  let chi_cube := dre_fit model convolved data segment noise in
  ((exists r,
       fit_item model name data segment noise = Ok r
       /\ r_chi_cube r = chi_cube
       /\ (r_success r = true
           <-> ~ Forall (fun x => isnan x = true) (cells chi_cube)))
   \/ (exists e,
          fit_item model name data segment noise = Raise e
          /\ ~ Forall (fun x => isnan x = true) (cells chi_cube)))
  /\ Forall flagged (pushed_log (run j sched (start_processes j st0))).
Proof.
  intros Hc chi_cube. split.
  - pose proof (all_nan_Forall chi_cube) as Hall.
    destruct (fit_item_cases model convolved name data segment noise Hc)
      as [[Hnan Hr]|[[Hnan [e Hr]]|[Hnan (ext & numb & e & n & mo & _ & _ & _ & Hr)]]];
      fold chi_cube in Hnan, Hr.
    + left. eexists. split; [exact Hr|]. cbn. split; [reflexivity|].
      split; [discriminate|]. intros Hno. exfalso. apply Hno, Hall, Hnan.
    + right. exists e. split; [exact Hr|]. rewrite <- Hall. congruence.
    + left. eexists. split; [exact Hr|]. cbn. split; [reflexivity|].
      split; [|reflexivity]. intros _. rewrite <- Hall. congruence.
  - eapply Forall_impl; [apply pushed_from_fit|].
    intros r (m & nm & d & s & n & Hr). eapply fit_item_flagged, Hr.
Qed.

Lemma success_iff_not_all_nan_witness :
  (exists r,
      fit_item Sample.model "00_0001" (Sample.pixel Sample.one)
               (Sample.pixel Sample.one) (Sample.pixel Sample.one) = Ok r
      /\ r_success r = true)
  /\ Forall flagged
            (pushed_log (run Sample.job2 Sample.full_schedule Sample.start2)).
Proof.
  destruct (success_iff_not_all_nan Sample.model (models Sample.model0)
              "00_0001" (Sample.pixel Sample.one) (Sample.pixel Sample.one)
              (Sample.pixel Sample.one) Sample.job2 Sample.full_schedule
              Parallelize_new eq_refl)
    as [[(r & Hr & _ & Hs)|(e & He & _)] Hrun].
  - split; [|exact Hrun]. exists r. split; [exact Hr|]. apply Hs. intros Hall.
    inversion Hall as [|x l Hx _]. discriminate Hx.
  - vm_compute in He. discriminate He.
Defined.

(** C7. A result with [success = true] carries parameters in which
    ['EXT_NUMBER'] and ['NUMBER'] are the integers parsed from the two
    parts of its object id around the underscore; this holds of the
    result of the loop body and so of every successful result ever put
    on the output queue of a job. *)
Theorem parameters_carry_parsed_id (model : ModelCPU) (name : string)
    (data segment noise : ndarray) (r : result)
    (j : job) (sched : list actor) (st0 : state) :
  fit_item model name data segment noise = Ok r ->
  r_success r = true ->
  (r_name r = name
   /\ exists ext numb e n (p : params),
       PyStr.split PyStr.underscore (r_name r) = [ext; numb]
       /\ PyStr.int ext = Some e
       /\ PyStr.int numb = Some n
       /\ r_parameters r = Some p
       /\ p !! "EXT_NUMBER" = Some (PInt e)
       /\ p !! "NUMBER" = Some (PInt n))
  /\ Forall labelled (pushed_log (run j sched (start_processes j st0))).
Proof.
  intros Hr Hs. split.
  - destruct (fit_item_labelled model name data segment noise r Hr)
      as [Hname Hlab].
    split; [exact Hname|exact (Hlab Hs)].
  - eapply Forall_impl; [apply pushed_from_fit|].
    intros r' (m & nm & d & s & n & Hr'). eapply fit_item_labelled, Hr'.
Qed.

Lemma parameters_carry_parsed_id_witness :
  (exists p : params,
      p !! "EXT_NUMBER" = Some (PInt 0) /\ p !! "NUMBER" = Some (PInt 1))
  /\ Forall labelled
            (pushed_log (run Sample.job2 Sample.full_schedule Sample.start2)).
Proof.
  destruct (parameters_carry_parsed_id Sample.model "00_0001"
              (Sample.pixel Sample.one) (Sample.pixel Sample.one)
              (Sample.pixel Sample.one) _ Sample.job2 Sample.full_schedule
              Parallelize_new eq_refl eq_refl)
    as ((_ & ext & numb & e & n & p & Hsp & He & Hn & _ & Hpe & Hpn) & Hrun).
  split; [|exact Hrun].
  vm_compute in Hsp. inversion Hsp; subst ext numb.
  vm_compute in He. inversion He; subst e.
  vm_compute in Hn. inversion Hn; subst n.
  exists p. split; assumption.
Defined.

(** ** The feeder *)

Lemma h5_get_key {A : Type} (name : string) (f : list (string * A)) :
  name ∈ h5_keys f -> is_Some (h5_get name f).
Proof.
  induction f as [|[k v] f IH]; cbn; [intros H; inversion H|].
  intros H. destruct (String.eqb_spec k name) as [->|Hne]; [eauto|].
  apply IH. apply elem_of_cons in H as [H|H]; [congruence|exact H].
Qed.

Lemma count_stops_fed (j : job) (names : list string) (items : list msg) :
  Forall2 (is_item_of j) names items -> count_stops items = 0%nat.
Proof.
  induction 1 as [|name m names items (c & _ & ->) _ IH]; [reflexivity|].
  change (Item name (obj c) (seg c) (rms c) :: items)
    with ([Item name (obj c) (seg c) (rms c)] ++ items).
  rewrite count_stops_app, IH. reflexivity.
Qed.

(** Once the event is set while no sentinel has been put and the feeder is
    not in its sentinel loop, no sentinel is ever put. *)
Lemma no_sentinel_after_cancel (j : job) (sched : list actor) (st : state) :
  terminate st = true ->
  count_stops (put_log st) = 0%nat ->
  (forall r, feed_thread st <> FStop r) ->
  count_stops (put_log (run j sched st)) = 0%nat.
Proof.
  intros Hterm Hstops Hpc.
  apply (run_invariant j
           (fun s => terminate s = true /\ count_stops (put_log s) = 0%nat
                     /\ forall r, feed_thread s <> FStop r));
    [|now repeat split].
  clear. intros st st' (Hterm & Hstops & Hpc) Ht.
  destruct Ht; cbn; try frame_collect;
    rewrite ?count_stops_app, ?count_stops_one, ?Hstops; cbn;
    repeat split; (assumption || discriminate || congruence).
Qed.

(** C5. With the names taken from the input archive, all along any run
    of a job started with both queues empty:
    - the history of the input queue is the first [submitted] items of the
      archive, each once and in archive order, followed by at most one
      sentinel per worker, sentinels only after the last item;
    - a timed put that finds the queue full changes nothing and sends the
      feeder back to its loop test with the same [submitted];
    - when the feeder has returned and the event is clear, the history is
      every item of the archive followed by exactly [n_proc] sentinels;
    - when the event is set before the last item is submitted, no sentinel
      is ever put. *)
Theorem feeder_submits_all_in_order (j : job) (sched : list actor)
    (st0 : state) :
  queues_empty st0 ->
  j_names j = h5_keys (j_input j) ->
  let st := run j sched (start_processes j st0) in
  (exists k, fed j st k
             /\ (k <= j_n_proc j)%nat
             /\ (0 < k -> submitted st = length (j_names j))%nat)
  /\ (feed_thread st = FPut ->
      queue_full (j_max_size j) (input_queue st) = true ->
      feeder_step j st = Some (set_feed_thread FLoop st))
  /\ (feed_thread st = FDone -> terminate st = false ->
      exists items,
        put_log st = items ++ replicate (j_n_proc j) STOP
        /\ Forall2 (is_item_of j) (h5_keys (j_input j)) items)
  /\ (terminate st = true ->
      (submitted st < length (j_names j))%nat ->
      forall more, count_stops (put_log (run j more st)) = 0%nat).
Proof.
  intros Hempty Hnames st.
  destruct (job_inv_run j sched st0 Hempty) as [_ _ (k & Hfed & Hdue) Hsub _ _ _ _ _ _ _].
  fold st in Hfed, Hdue, Hsub. unfold sentinels_due in Hdue.
  repeat split.
  - exists k. split; [exact Hfed|].
    destruct (feed_thread st); intuition lia.
  - intros Hpc Hfull. rewrite Hpc in Hdue. destruct Hdue as [_ Hlt].
    unfold feeder_step. rewrite Hpc.
    destruct (lookup_lt_is_Some_2 _ _ Hlt) as [name Hname]. rewrite Hname.
    destruct (h5_get_key name (j_input j)) as [c Hc].
    { rewrite <- Hnames. eapply list_elem_of_lookup_2, Hname. }
    now rewrite Hc, Hfull.
  - intros Hpc Hterm. rewrite Hpc in Hdue.
    destruct Hdue as [_ Hall]. destruct (Hall Hterm) as [-> Hsubm].
    destruct Hfed as (items & Hlog & Hitems). exists items. split; [exact Hlog|].
    rewrite Hsubm, firstn_all in Hitems. now rewrite <- Hnames.
  - intros Hterm Hlt more.
    destruct Hfed as (items & Hlog & Hitems).
    assert (Hk : k = 0%nat)
      by (destruct (feed_thread st); intuition (try congruence; try lia)).
    subst k. apply no_sentinel_after_cancel; [exact Hterm| |].
    + rewrite Hlog, count_stops_app. cbn.
      now rewrite (count_stops_fed j _ _ Hitems).
    + intros r Hpc. rewrite Hpc in Hdue. lia.
Qed.

Lemma feeder_submits_all_in_order_witness :
  exists items,
    put_log (run Sample.job2 Sample.full_schedule Sample.start2)
    = items ++ [STOP; STOP]
    /\ Forall2 (is_item_of Sample.job2) ["00_0001"; "00_0002"] items.
Proof.
  assert (Hempty : queues_empty Parallelize_new) by (split; reflexivity).
  destruct (feeder_submits_all_in_order Sample.job2 Sample.full_schedule
              Parallelize_new Hempty eq_refl) as (_ & _ & Hdone & _).
  exact (Hdone eq_refl eq_refl).
Defined.

(** ** The feeder on its own *)

Lemma run_app (j : job) (s1 s2 : list actor) (st : state) :
  run j (s1 ++ s2) st = run j s2 (run j s1 st).
Proof.
  revert st. induction s1 as [|a s1 IH]; intros st; [reflexivity|].
  cbn [app run]. apply IH.
Qed.

Lemma run_feeder_step (j : job) (sched : list actor) (st st' : state) :
  feeder_step j st = Some st' ->
  run j (AFeeder :: sched) st = run j sched st'.
Proof. intros H. cbn [run step]. now rewrite H. Qed.

Lemma queue_has_room (max_size : Z) (q : list msg) :
  Z.of_nat (length q) < capacity max_size -> queue_full max_size q = false.
Proof. intros H. unfold queue_full. apply Z.leb_gt. exact H. Qed.

(** [k] items go through in [2 * k] moves when the queue has room. *)
Lemma feeder_submits (j : job) (k : nat) :
  forall st,
    j_names j = h5_keys (j_input j) ->
    feed_thread st = FLoop ->
    terminate st = false ->
    (submitted st + k <= length (j_names j))%nat ->
    Z.of_nat (length (input_queue st) + k) <= capacity (j_max_size j) ->
    let st' := run j (replicate (2 * k) AFeeder) st in
    feed_thread st' = FLoop
    /\ terminate st' = false
    /\ submitted st' = (submitted st + k)%nat
    /\ length (input_queue st') = (length (input_queue st) + k)%nat.
Proof.
  induction k as [|k IH]; intros st Hnames Hpc Hterm Hsub Hroom.
  - cbn. repeat split; (assumption || lia).
  - replace (2 * S k)%nat with (S (S (2 * k))) by lia.
    change (replicate (S (S (2 * k))) AFeeder)
      with (AFeeder :: AFeeder :: replicate (2 * k) AFeeder).
    assert (Hlt : (submitted st < length (j_names j))%nat) by lia.
    destruct (lookup_lt_is_Some_2 _ _ Hlt) as [name Hname].
    destruct (h5_get_key name (j_input j)) as [c Hc].
    { rewrite <- Hnames. eapply list_elem_of_lookup_2, Hname. }
    rewrite (run_feeder_step j _ st (set_feed_thread FPut st)).
    2: { unfold feeder_step. rewrite Hpc, Hterm.
         apply Nat.ltb_lt in Hlt. now rewrite Hlt. }
    erewrite run_feeder_step.
    2: { unfold feeder_step. cbn. rewrite Hname, Hc.
         rewrite queue_has_room by lia. reflexivity. }
    match goal with
    | |- context [run j _ ?s] =>
        destruct (IH s Hnames) as (Hpc' & Hterm' & Hsub' & Hlen');
        [reflexivity|exact Hterm|cbn; lia|cbn; rewrite length_app; cbn; lia|]
    end.
    remember (replicate (2 * k) AFeeder) as rest eqn:Hrest.
    cbn in Hsub', Hlen'. rewrite length_app in Hlen'. cbn in Hlen'.
    repeat split; try assumption; lia.
Qed.

(** [r] sentinels go through in [r + 1] moves when the queue has room. *)
Lemma feeder_stops (j : job) (r : nat) :
  forall st,
    feed_thread st = FStop r ->
    Z.of_nat (length (input_queue st) + r) <= capacity (j_max_size j) ->
    let st' := run j (replicate (S r) AFeeder) st in
    feed_thread st' = FDone /\ terminate st' = terminate st.
Proof.
  induction r as [|r IH]; intros st Hpc Hroom.
  - cbn. unfold feeder_step. rewrite Hpc. cbn. split; reflexivity.
  - change (replicate (S (S r)) AFeeder)
      with (AFeeder :: replicate (S r) AFeeder).
    erewrite run_feeder_step.
    2: { unfold feeder_step. rewrite Hpc.
         rewrite queue_has_room by lia. reflexivity. }
    match goal with
    | |- context [run j _ ?s] =>
        destruct (IH s) as (Hpc' & Hterm');
        [reflexivity|cbn; rewrite length_app; cbn; lia|]
    end.
    split; [exact Hpc'|exact Hterm'].
Qed.

(** With room for every item and every sentinel, the feeder alone, never
    cancelled, returns after [2 * n + n_proc + 3] moves. *)
Lemma feeder_completes (j : job) (st0 : state) :
  queues_empty st0 ->
  j_names j = h5_keys (j_input j) ->
  terminate st0 = false ->
  Z.of_nat (length (j_names j) + j_n_proc j) <= capacity (j_max_size j) ->
  let sched :=
    replicate (2 * length (j_names j)) AFeeder
    ++ [AFeeder; AFeeder] ++ replicate (S (j_n_proc j)) AFeeder in
  feed_thread (run j sched (start_processes j st0)) = FDone
  /\ terminate (run j sched (start_processes j st0)) = false.
Proof.
  intros (Hiq & _) Hnames Hterm Hroom sched. unfold sched.
  rewrite run_app.
  destruct (feeder_submits j (length (j_names j)) (start_processes j st0)
              Hnames)
    as (Hpc1 & Hterm1 & Hsub1 & Hlen1);
    [reflexivity|exact Hterm|cbn; lia|cbn; rewrite Hiq; cbn; lia|].
  remember (run j (replicate (2 * length (j_names j)) AFeeder)
                (start_processes j st0)) as st1 eqn:Hst1.
  cbn in Hsub1, Hlen1. rewrite Hiq in Hlen1. cbn in Hlen1.
  change ([AFeeder; AFeeder] ++ replicate (S (j_n_proc j)) AFeeder)
    with (AFeeder :: AFeeder :: replicate (S (j_n_proc j)) AFeeder).
  rewrite (run_feeder_step j _ st1 (set_feed_thread FCheck st1)).
  2: { unfold feeder_step. rewrite Hpc1, Hterm1, Hsub1.
       now rewrite Nat.ltb_irrefl. }
  erewrite run_feeder_step.
  2: { unfold feeder_step. cbn. rewrite Hterm1. reflexivity. }
  match goal with
  | |- context [run j _ ?s] =>
      destruct (feeder_stops j (j_n_proc j) s) as (Hpc2 & Hterm2);
      [reflexivity|cbn; lia|]
  end.
  split; [exact Hpc2|]. rewrite Hterm2. cbn. exact Hterm1.
Qed.

(** ** The workers *)

Lemma tally_dead (ps : list process) :
  forallb (fun p => negb (worker_alive (p_pc p))) ps = true ->
  tally fitting ps = 0%nat /\ tally acking ps = 0%nat.
Proof.
  induction ps as [|p ps IH]; cbn; [auto|].
  intros [Hp Hps]%andb_true_iff. destruct (IH Hps) as [-> ->].
  destruct (p_pc p); cbn in *; try discriminate; auto.
Qed.

Lemma keep_counts (j : job) (st st' : state) :
  trans j st st' -> counts_bound st -> counts_bound st'.
Proof.
  unfold counts_bound. intros Ht (Hack & Hput & Hgot).
  destruct Ht; cbn; try frame_collect; try (repeat split; assumption);
    match goal with
    | Hp : processes _ !! _ = Some _ |- _ => tally_pc Hp
    end;
    rewrite ?count_items_app, ?count_items_one, ?length_app; cbn;
    match goal with
    | Hpc : p_pc _ = _ |- _ => rewrite Hpc in *; cbn in *; lia
    | Halive : worker_alive (p_pc ?p) = true |- _ =>
        destruct (p_pc p); try discriminate; cbn in *; lia
    end.
Qed.

Lemma counts_run (j : job) (sched : list actor) (st0 : state) :
  counts_bound (run j sched (start_processes j st0)).
Proof.
  apply (run_invariant j counts_bound).
  - intros s s' Hs Ht. exact (keep_counts j s s' Ht Hs).
  - unfold counts_bound. cbn. rewrite !tally_replicate. cbn.
    unfold count_items. cbn. lia.
Qed.

(** From [WFit] with an exception: the process ends there, with nothing
    put on the output queue and no [task_done]. *)
Lemma worker_raise_ends (i : nat) (p : process) (name : string)
    (data segment noise : ndarray) (e : exn) (st : state) :
  processes st !! i = Some p ->
  p_pc p = WFit name data segment noise ->
  fit_item (p_model p) name data segment noise = Raise e ->
  exists st1,
    worker_step i st = Some st1
    /\ output_queue st1 = output_queue st
    /\ pushed_log st1 = pushed_log st
    /\ in_acks st1 = in_acks st
    /\ p_pc <$> processes st1 !! i = Some (WRaised e)
    /\ worker_step i st1 = None.
Proof.
  intros Hp Hpc Hfit.
  assert (Hi : (i < length (processes st))%nat) by (eapply lookup_lt_Some, Hp).
  eexists. split; [unfold worker_step; rewrite Hp, Hpc, Hfit; reflexivity|].
  cbn. repeat split.
  - now rewrite list_lookup_insert_eq.
  - unfold worker_step. cbn. now rewrite list_lookup_insert_eq.
Qed.

(** An interrupt of a live worker: the event is set and the process ends
    there, with nothing put on the output queue and no [task_done]. *)
Lemma worker_sigint_ends (i : nat) (p : process) (st : state) :
  processes st !! i = Some p ->
  worker_alive (p_pc p) = true ->
  exists st1,
    sigint_step i st = Some st1
    /\ terminate st1 = true
    /\ output_queue st1 = output_queue st
    /\ pushed_log st1 = pushed_log st
    /\ in_acks st1 = in_acks st
    /\ p_pc <$> processes st1 !! i = Some WInterrupted
    /\ worker_step i st1 = None.
Proof.
  intros Hp Halive.
  assert (Hi : (i < length (processes st))%nat) by (eapply lookup_lt_Some, Hp).
  unfold sigint_step. rewrite Hp.
  destruct (p_pc p); try discriminate; eexists;
    (split; [reflexivity|]); cbn; repeat split;
    try (now rewrite list_lookup_insert_eq);
    unfold worker_step; cbn; now rewrite list_lookup_insert_eq.
Qed.

(** Once every worker process has ended, nothing more is put on the output
    queue and nothing more is acknowledged on the input queue. *)
Lemma dead_workers_idle (j : job) (sched : list actor) (st : state) :
  forallb (fun p => negb (worker_alive (p_pc p))) (processes st) = true ->
  processes (run j sched st) = processes st
  /\ pushed_log (run j sched st) = pushed_log st
  /\ in_acks (run j sched st) = in_acks st.
Proof.
  intros Hdead.
  apply (run_invariant j
           (fun s => processes s = processes st
                     /\ pushed_log s = pushed_log st
                     /\ in_acks s = in_acks st));
    [|repeat split].
  intros s s' (Hps & Hpushed & Hacks) Ht.
  destruct Ht; cbn; try frame_collect; try (repeat split; assumption);
    exfalso;
    match goal with
    | Hp : processes _ !! _ = Some ?p |- _ =>
        rewrite Hps in Hp; apply list_elem_of_lookup_2, list_elem_of_In in Hp;
        rewrite forallb_forall in Hdead; specialize (Hdead p Hp);
        destruct (p_pc p); discriminate
    end.
Qed.

(** From [WFit] with a result: one put on the output queue, then one
    [task_done] on the input queue, then back to [get]. *)
Lemma worker_push_then_ack (i : nat) (p : process) (name : string)
    (data segment noise : ndarray) (r : result) (st : state) :
  processes st !! i = Some p ->
  p_pc p = WFit name data segment noise ->
  fit_item (p_model p) name data segment noise = Ok r ->
  exists st1 st2,
    worker_step i st = Some st1
    /\ output_queue st1 = output_queue st ++ [r]
    /\ in_acks st1 = in_acks st
    /\ worker_step i st1 = Some st2
    /\ output_queue st2 = output_queue st1
    /\ in_acks st2 = S (in_acks st)
    /\ p_pc <$> processes st2 !! i = Some WGet.
Proof.
  intros Hp Hpc Hfit.
  assert (Hi : (i < length (processes st))%nat) by (eapply lookup_lt_Some, Hp).
  eexists. eexists. split; [|split; [|split; [|split]]].
  - unfold worker_step. rewrite Hp, Hpc, Hfit. reflexivity.
  - reflexivity.
  - reflexivity.
  - unfold worker_step. cbn.
    rewrite list_lookup_insert_eq by exact Hi. cbn. reflexivity.
  - cbn. repeat split.
    rewrite list_lookup_insert_eq by (rewrite length_insert; exact Hi).
    reflexivity.
Qed.

(** C6, as the code has it. All along any run of a job started with both
    queues empty:
    - a worker holding an item for which the loop body yields a result
      puts exactly that one result, then acknowledges once, then goes back
      to [get];
    - a worker holding an item for which the loop body raises puts
      nothing, acknowledges nothing and ends there;
    - a worker interrupted while it holds an item, or between its put and
      its [task_done], puts nothing more, acknowledges nothing and ends
      there;
    - whatever the event, the acknowledgments made are at most the results
      put, the results put at most the items taken, and the items taken
      and not acknowledged are held by workers that are fitting, about to
      acknowledge, dead from an exception or interrupted;
    - while the event is clear, the items taken from the input queue are
      the results put so far plus the items being fitted plus those whose
      loop body died, and the results put are the acknowledgments made
      plus the workers between their put and their [task_done];
    - when the run has completed normally, the acknowledgments on the
      input queue, the items submitted, the items of the archive and the
      results put are all the same number, and no worker died. *)
Theorem acknowledgments_match_items (j : job) (sched : list actor)
    (st0 : state) :
  queues_empty st0 ->
  let st := run j sched (start_processes j st0) in
  (forall i p name data segment noise r,
      processes st !! i = Some p ->
      p_pc p = WFit name data segment noise ->
      fit_item (p_model p) name data segment noise = Ok r ->
      exists st1 st2,
        worker_step i st = Some st1
        /\ output_queue st1 = output_queue st ++ [r]
        /\ in_acks st1 = in_acks st
        /\ worker_step i st1 = Some st2
        /\ output_queue st2 = output_queue st1
        /\ in_acks st2 = S (in_acks st)
        /\ p_pc <$> processes st2 !! i = Some WGet)
  /\ (forall i p name data segment noise e,
      processes st !! i = Some p ->
      p_pc p = WFit name data segment noise ->
      fit_item (p_model p) name data segment noise = Raise e ->
      exists st1,
        worker_step i st = Some st1
        /\ output_queue st1 = output_queue st
        /\ pushed_log st1 = pushed_log st
        /\ in_acks st1 = in_acks st
        /\ p_pc <$> processes st1 !! i = Some (WRaised e)
        /\ worker_step i st1 = None)
  /\ (forall i p,
      processes st !! i = Some p ->
      worker_alive (p_pc p) = true ->
      exists st1,
        sigint_step i st = Some st1
        /\ terminate st1 = true
        /\ output_queue st1 = output_queue st
        /\ pushed_log st1 = pushed_log st
        /\ in_acks st1 = in_acks st
        /\ p_pc <$> processes st1 !! i = Some WInterrupted
        /\ worker_step i st1 = None)
  /\ counts_bound st
  /\ (terminate st = false ->
      count_items (got_log st)
      = (length (pushed_log st) + tally fitting (processes st)
         + tally raised (processes st))%nat
      /\ length (pushed_log st)
         = (in_acks st + tally acking (processes st))%nat)
  /\ (completed_normally st ->
      in_acks st = submitted st
      /\ submitted st = length (j_names j)
      /\ length (pushed_log st) = length (j_names j)
      /\ tally raised (processes st) = 0%nat).
Proof.
  intros Hempty st.
  destruct (job_inv_run j sched st0 Hempty)
    as [_ _ (k & (items & Hlog & Hitems) & _) Hsub Hfifo Hcons Hack _ _ Hcoll Hret].
  fold st in Hlog, Hitems, Hsub, Hfifo, Hcons, Hack, Hcoll, Hret.
  split; [|split; [|split; [|split; [|split]]]].
  - intros i p name data segment noise r. apply worker_push_then_ack.
  - intros i p name data segment noise e. apply worker_raise_ends.
  - intros i p. apply worker_sigint_ends.
  - apply counts_run.
  - intros Hterm. split; [now apply Hcons|now apply Hack].
  - intros (Hjoined & Hterm & Hpc).
    specialize (Hcons Hterm). specialize (Hack Hterm).
    specialize (Hret Hpc Hterm). rewrite Hpc in Hcoll. cbn in Hcoll.
    unfold joined in Hjoined.
    apply andb_true_iff in Hjoined as [[_ Hdead]%andb_true_iff _].
    destruct (tally_dead _ Hdead) as [Hfit Hacking].
    rewrite Hfit in Hcons. rewrite Hacking in Hack.
    assert (Hput : count_items (put_log st) = submitted st).
    { rewrite Hlog, count_items_app, count_items_replicate_stop.
      rewrite (count_items_fed j _ _ Hitems), length_take. lia. }
    rewrite Hfifo, count_items_app in Hput. lia.
Qed.

Lemma acknowledgments_match_items_witness :
  in_acks (run Sample.job2 Sample.full_schedule Sample.start2) = 2%nat.
Proof.
  assert (Hempty : queues_empty Parallelize_new) by (split; reflexivity).
  destruct (acknowledgments_match_items Sample.job2 Sample.full_schedule
              Parallelize_new Hempty) as (_ & _ & _ & _ & _ & Hdone).
  destruct Hdone as (Hacks & Hsub & _).
  - repeat split; reflexivity.
  - exact (eq_trans Hacks Hsub).
Defined.

(** C6, as stated, fails: an item can be consumed without any result and
    without an acknowledgment. With one worker and one object, the worker
    takes the item and dies in the parse of an id that has no underscore;
    or, the id being well formed, it is interrupted while it fits the
    item. In both runs one item has been taken, and under every schedule
    that follows no result is ever put and nothing is ever
    acknowledged. *)
Lemma consumed_item_without_result :
  (let st :=
     run Sample.job_unparsable (Sample.take_one ++ [AWorker 0])
         (start_processes Sample.job_unparsable Parallelize_new) in
   count_items (got_log st) = 1%nat
   /\ p_pc <$> processes st !! 0%nat = Some (WRaised ValueError)
   /\ forall sched,
       pushed_log (run Sample.job_unparsable sched st) = []
       /\ in_acks (run Sample.job_unparsable sched st) = 0%nat)
  /\ (let st :=
        run Sample.job_single (Sample.take_one ++ [ASigint 0])
            (start_processes Sample.job_single Parallelize_new) in
      count_items (got_log st) = 1%nat
      /\ p_pc <$> processes st !! 0%nat = Some WInterrupted
      /\ forall sched,
          pushed_log (run Sample.job_single sched st) = []
          /\ in_acks (run Sample.job_single sched st) = 0%nat).
Proof.
  split; intros st; (split; [reflexivity|]); (split; [reflexivity|]);
    intros sched.
  - destruct (dead_workers_idle Sample.job_unparsable sched st eq_refl)
      as (_ & -> & ->).
    split; reflexivity.
  - destruct (dead_workers_idle Sample.job_single sched st eq_refl)
      as (_ & -> & ->).
    split; reflexivity.
Qed.

(** ** Between two jobs *)

Lemma count_total (l : list msg) :
  (count_items l + count_stops l = length l)%nat.
Proof.
  induction l as [|m l IH]; [reflexivity|].
  change (m :: l) with ([m] ++ l).
  rewrite count_items_app, count_stops_app, count_items_one, count_stops_one.
  destruct (is_item m); cbn; lia.
Qed.

Lemma count_stops_replicate_stop (k : nat) :
  count_stops (replicate k STOP) = k.
Proof.
  induction k as [|k IH]; [reflexivity|].
  change (replicate (S k) STOP) with ([STOP] ++ replicate k STOP).
  now rewrite count_stops_app, IH.
Qed.

Lemma tally_all_dead (ps : list process) :
  forallb (fun p => negb (worker_alive (p_pc p))) ps = true ->
  (tally stopped ps + tally raised ps + tally interrupted ps = length ps)%nat.
Proof.
  induction ps as [|p ps IH]; cbn; [reflexivity|].
  intros [Hp Hps]%andb_true_iff. specialize (IH Hps).
  destruct (p_pc p); cbn in *; try discriminate; lia.
Qed.


(** ** Cancellation *)

Lemma terminate_stays (j : job) (st st' : state) :
  trans j st st' -> terminate st = true -> terminate st' = true.
Proof.
  intros Ht Hst. destruct Ht; cbn; try frame_collect; auto.
Qed.

Lemma terminate_monotone (j : job) (sched : list actor) (st : state) :
  terminate st = true -> terminate (run j sched st) = true.
Proof.
  apply (run_invariant j (fun s => terminate s = true)).
  intros s s' Hs Ht. exact (terminate_stays j s s' Ht Hs).
Qed.

(** Moves of the others leave the feeder's locals and the input queue's
    history of puts alone. *)
Lemma others_keep_feeder (j : job) (a : actor) (st st' : state) :
  is_feeder a = false ->
  step j a st = Some st' ->
  feed_thread st' = feed_thread st
  /\ submitted st' = submitted st
  /\ put_log st' = put_log st.
Proof.
  intros Ha Hstep. destruct a; try discriminate; cbn in Hstep;
    unfold worker_step, sigint_step, collector_step in Hstep;
    repeat case_match; simplify_eq; cbn; try frame_collect; auto.
Qed.

Lemma others_keep_collector (j : job) (a : actor) (st st' : state) :
  is_collector a = false ->
  step j a st = Some st' ->
  output_thread st' = output_thread st
  /\ completed st' = completed st.
Proof.
  intros Ha Hstep. destruct a; try discriminate; cbn in Hstep;
    unfold worker_step, sigint_step, feeder_step in Hstep;
    repeat case_match; simplify_eq; cbn; auto.
Qed.

(** With the event set, a move of the feeder from its submission loop
    brings it strictly closer to its return, puts no sentinel and at most
    the one item whose timed put was under way. *)
Lemma feeder_move_after_cancel (j : job) (st : state) :
  terminate st = true ->
  feeder_submitting (feed_thread st) ->
  exists st',
    feeder_step j st = Some st'
    /\ (feeder_rank (feed_thread st') < feeder_rank (feed_thread st))%nat
    /\ (forall r, feed_thread st' <> FStop r)
    /\ count_stops (put_log st') = count_stops (put_log st)
    /\ (submitted st' + putting (feed_thread st')
        <= submitted st + putting (feed_thread st))%nat.
Proof.
  intros Hterm Hpc. unfold feeder_step.
  destruct (feed_thread st) eqn:Hft; try contradiction; rewrite ?Hterm;
    cbn [negb]; rewrite ?andb_false_r;
    repeat case_match; eexists; (split; [reflexivity|]); cbn;
    rewrite ?count_stops_app, ?count_stops_one; cbn;
    repeat split; (lia || discriminate).
Qed.

(** With the event set, a feeder in its submission loop has returned or
    died once it has moved three times, whatever the others do. *)
Lemma feeder_returns_after_cancel (j : job) (sched : list actor) :
  forall st bound,
    terminate st = true ->
    (forall r, feed_thread st <> FStop r) ->
    (feeder_rank (feed_thread st) <= feeder_moves sched)%nat ->
    (submitted st + putting (feed_thread st)
     <= bound)%nat ->
    feeder_alive (feed_thread (run j sched st)) = false
    /\ count_stops (put_log (run j sched st)) = count_stops (put_log st)
    /\ (submitted (run j sched st) <= bound)%nat.
Proof.
  induction sched as [|a sched IH]; intros st bound Hterm Hpc Hrank Hsub.
  - cbn in *. destruct (feed_thread st) eqn:Hft; cbn in *; try lia;
      try (repeat split; (reflexivity || lia)).
    exfalso. eapply Hpc. reflexivity.
  - cbn [run]. destruct (is_feeder a) eqn:Ha.
    + destruct a; try discriminate. cbn [step].
      assert (Hm : feeder_moves (AFeeder :: sched) = S (feeder_moves sched))
        by reflexivity.
      rewrite Hm in Hrank.
      destruct (feed_thread st) eqn:Hft.
      1-3: (destruct (feeder_move_after_cancel j st Hterm)
             as (st1 & Hstep & Hlt & Hpc1 & Hstops & Hsub1);
            [rewrite Hft; exact I|];
            rewrite Hstep; cbn [default]; rewrite Hft in Hlt, Hsub1;
            assert (Hterm1 : terminate st1 = true)
              by (eapply terminate_stays;
                  [eapply (step_trans j AFeeder), Hstep|exact Hterm]);
            destruct (IH st1 bound Hterm1 Hpc1) as (Hdead & Hstops' & Hbound);
            [cbn in *; lia|cbn in *; lia|];
            repeat split;
            [exact Hdead|exact (eq_trans Hstops' Hstops)|exact Hbound]).
      * exfalso. eapply Hpc. reflexivity.
      * unfold feeder_step. rewrite Hft. cbn [default].
        apply IH; rewrite ?Hft; auto; cbn; try lia; discriminate.
      * unfold feeder_step. rewrite Hft. cbn [default].
        apply IH; rewrite ?Hft; auto; cbn; try lia; discriminate.
    + assert (Hmoves : feeder_moves (a :: sched) = feeder_moves sched)
        by (unfold feeder_moves; cbn; now rewrite Ha).
      rewrite Hmoves in Hrank.
      destruct (step j a st) as [st1|] eqn:Hstep; cbn [default];
        [|now apply IH].
      destruct (others_keep_feeder j a st st1 Ha Hstep) as (Hft & Hs & Hlog).
      assert (Hterm1 : terminate st1 = true)
        by (eapply terminate_stays; [eapply step_trans, Hstep|exact Hterm]).
      destruct (IH st1 bound Hterm1) as (Hdead & Hstops & Hbound).
      { rewrite Hft. exact Hpc. }
      { rewrite Hft. exact Hrank. }
      { rewrite Hft, Hs. exact Hsub. }
      repeat split;
        [exact Hdead|exact (eq_trans Hstops (f_equal count_stops Hlog))
        |exact Hbound].
Qed.

(** With the event set, a move of a live collector brings it strictly
    closer to its return and collects at most the one result whose timed
    get was under way. *)
Lemma collector_move_after_cancel (j : job) (st : state) :
  terminate st = true ->
  collector_alive (output_thread st) = true ->
  exists st',
    collector_step j st = Some st'
    /\ (collector_rank (output_thread st') < collector_rank (output_thread st))%nat
    /\ (completed st' + getting (output_thread st')
        <= completed st + getting (output_thread st))%nat.
Proof.
  intros Hterm Hpc. unfold collector_step.
  destruct (output_thread st) eqn:Hot; try discriminate; rewrite ?Hterm;
    cbn [negb]; rewrite ?andb_false_r.
  - eexists. split; [reflexivity|]. cbn. lia.
  - destruct (output_queue st) as [|r q].
    + eexists. split; [reflexivity|]. cbn. lia.
    + eexists. split; [reflexivity|]. frame_collect; cbn; lia.
Qed.

(** With the event set, the collector has returned or died once it has
    moved twice, whatever the others do. *)
Lemma collector_returns_after_cancel (j : job) (sched : list actor) :
  forall st bound,
    terminate st = true ->
    (collector_rank (output_thread st) <= collector_moves sched)%nat ->
    (completed st + getting (output_thread st) <= bound)%nat ->
    collector_alive (output_thread (run j sched st)) = false
    /\ (completed (run j sched st) <= bound)%nat.
Proof.
  induction sched as [|a sched IH]; intros st bound Hterm Hrank Hsub.
  - cbn in *. destruct (output_thread st) eqn:Hot; cbn in *;
      try (unfold collector_moves in Hrank; cbn in Hrank; lia);
      split; (reflexivity || lia).
  - cbn [run]. destruct (is_collector a) eqn:Ha.
    + destruct a; try discriminate. cbn [step].
      assert (Hm : collector_moves (ACollector :: sched)
                   = S (collector_moves sched)) by reflexivity.
      rewrite Hm in Hrank.
      destruct (collector_alive (output_thread st)) eqn:Halive.
      * destruct (collector_move_after_cancel j st Hterm Halive)
          as (st1 & Hstep & Hlt & Hsub1).
        rewrite Hstep.
        assert (Hterm1 : terminate st1 = true)
          by (eapply terminate_stays;
              [eapply (step_trans j ACollector), Hstep|exact Hterm]).
        apply (IH st1 bound Hterm1); lia.
      * assert (Hnone : collector_step j st = None)
          by (unfold collector_step; destruct (output_thread st);
              (discriminate || reflexivity)).
        rewrite Hnone. apply (IH st bound Hterm); [|exact Hsub].
        destruct (output_thread st); cbn in *; (discriminate || lia).
    + assert (Hmoves : collector_moves (a :: sched) = collector_moves sched)
        by (unfold collector_moves; cbn; now rewrite Ha).
      rewrite Hmoves in Hrank.
      destruct (step j a st) as [st1|] eqn:Hstep;
        [|apply (IH st bound Hterm Hrank Hsub)].
      destruct (others_keep_collector j a st st1 Ha Hstep) as (Hot & Hc).
      assert (Hterm1 : terminate st1 = true)
        by (eapply terminate_stays; [eapply step_trans, Hstep|exact Hterm]).
      apply (IH st1 bound Hterm1); rewrite Hot, ?Hc; assumption.
Qed.

(** A worker never reads the event. *)
Lemma worker_ignores_event (i : nat) (b : bool) (st : state) :
  worker_step i (set_terminate b st) = set_terminate b <$> worker_step i st.
Proof.
  unfold worker_step. cbn.
  destruct (processes st !! i) as [p|]; [|reflexivity].
  destruct (p_pc p); try reflexivity.
  - destruct (input_queue st) as [|[]]; reflexivity.
  - destruct (fit_item _ _ _ _ _); reflexivity.
Qed.

(** Moves that are not signals leave a state alone in which both threads
    have ended and every live worker sits in [get] on an empty queue. *)
Lemma idle_forever (j : job) (sched : list actor) (st : state) :
  feeder_alive (feed_thread st) = false ->
  collector_alive (output_thread st) = false ->
  input_queue st = [] ->
  Forall (fun p => p_pc p = WGet \/ worker_alive (p_pc p) = false)
         (processes st) ->
  Forall no_signal sched ->
  run j sched st = st.
Proof.
  intros Hf Hc Hq Hps Hsched.
  induction Hsched as [|a sched Ha _ IH]; [reflexivity|].
  cbn [run]. replace (step j a st) with (@None state); [exact IH|].
  symmetry. destruct a; try contradiction; cbn.
  - unfold feeder_step. destruct (feed_thread st); (discriminate || reflexivity).
  - unfold worker_step. destruct (processes st !! i) as [p|] eqn:Hp;
      [|reflexivity].
    rewrite Forall_lookup in Hps. destruct (Hps i p Hp) as [Hpc|Hpc].
    + now rewrite Hpc, Hq.
    + destruct (p_pc p); (discriminate || reflexivity).
  - unfold collector_step.
    destruct (output_thread st); (discriminate || reflexivity).
Qed.

(** From [get] with a sentinel at the head of the input queue: the
    process takes it and ends. *)
Lemma worker_stops_on_sentinel (i : nat) (p : process) (q : list msg)
    (st : state) :
  processes st !! i = Some p ->
  p_pc p = WGet ->
  input_queue st = STOP :: q ->
  exists st1,
    worker_step i st = Some st1
    /\ input_queue st1 = q
    /\ output_queue st1 = output_queue st
    /\ p_pc <$> processes st1 !! i = Some WStopped
    /\ worker_step i st1 = None.
Proof.
  intros Hp Hpc Hq.
  assert (Hi : (i < length (processes st))%nat) by (eapply lookup_lt_Some, Hp).
  eexists. split; [unfold worker_step; rewrite Hp, Hpc, Hq; reflexivity|].
  cbn. repeat split.
  - now rewrite list_lookup_insert_eq.
  - unfold worker_step. cbn. now rewrite list_lookup_insert_eq.
Qed.

Lemma feeder_step_processes (j : job) (st st' : state) :
  feeder_step j st = Some st' -> processes st' = processes st.
Proof.
  unfold feeder_step. intros H.
  repeat case_match; inversion H; reflexivity.
Qed.

Lemma collector_step_processes (j : job) (st st' : state) :
  collector_step j st = Some st' -> processes st' = processes st.
Proof.
  unfold collector_step. intros H.
  repeat case_match; inversion H; try reflexivity.
  now destruct (collect_frame j r (set_output_queue l st))
    as (_ & _ & _ & _ & _ & Hps & _).
Qed.

(** A move after which worker [i] is no longer alive is one of the three
    that end it. *)
Lemma step_ends_worker (j : job) (a : actor) (i : nat) (st st' : state) :
  step j a st = Some st' ->
  alive_at i st = true ->
  alive_at i st' = false ->
  ends_worker i a st.
Proof.
  unfold alive_at. intros Hstep Halive Hdead.
  destruct (processes st !! i) as [p|] eqn:Hp; [|discriminate].
  destruct a as [|k| |k|]; cbn [step] in Hstep.
  - rewrite (feeder_step_processes j st st' Hstep), Hp in Hdead. congruence.
  - unfold worker_step in Hstep.
    destruct (processes st !! k) as [pk|] eqn:Hk; [|discriminate].
    assert (Hlt : (k < length (processes st))%nat)
      by (eapply lookup_lt_Some, Hk).
    destruct (decide (k = i)) as [->|Hne].
    + rewrite Hp in Hk. inversion Hk; subst pk.
      exists p. split; [exact Hp|]. split; [reflexivity|].
      destruct (p_pc p) as [|name data segment noise| | | |] eqn:Hpc;
        try discriminate.
      * destruct (input_queue st) as [|[name data segment noise|] q] eqn:Hq;
          inversion Hstep; subst st'; cbn in Hdead;
          rewrite list_lookup_insert_eq in Hdead by exact Hlt;
          [discriminate|].
        left. split; [reflexivity|now exists q].
      * destruct (fit_item _ _ _ _ _) as [r|e] eqn:Hfit;
          inversion Hstep; subst st'; cbn in Hdead;
          rewrite list_lookup_insert_eq in Hdead by exact Hlt;
          [discriminate|].
        right. now exists name, data, segment, noise, e.
      * inversion Hstep; subst st'. cbn in Hdead.
        rewrite list_lookup_insert_eq in Hdead by exact Hlt. discriminate.
    + exfalso.
      assert (Hsame : processes st' !! i = Some p).
      { destruct (p_pc pk); try discriminate;
          [destruct (input_queue st) as [|[] ?]
          |destruct (fit_item _ _ _ _ _)|];
          inversion Hstep; subst st'; cbn;
          now rewrite list_lookup_insert_ne. }
      rewrite Hsame in Hdead. congruence.
  - rewrite (collector_step_processes j st st' Hstep), Hp in Hdead. congruence.
  - unfold sigint_step in Hstep.
    destruct (processes st !! k) as [pk|] eqn:Hk; [|discriminate].
    destruct (decide (k = i)) as [->|Hne].
    + exists p. split; [exact Hp|]. split; [reflexivity|exact Halive].
    + exfalso.
      assert (Hsame : processes st' !! i = Some p).
      { destruct (p_pc pk); inversion Hstep; subst st'; cbn;
          now rewrite list_lookup_insert_ne. }
      rewrite Hsame in Hdead. congruence.
  - inversion Hstep; subst st'. cbn in Hdead. rewrite Hp in Hdead. congruence.
Qed.

(** A worker alive at the start of a schedule and not at its end was
    ended, somewhere along the schedule, by one of the three moves. *)
Lemma worker_end_cause (j : job) (i : nat) (sched : list actor) :
  forall st,
    alive_at i st = true ->
    alive_at i (run j sched st) = false ->
    exists pre a post,
      sched = pre ++ a :: post /\ ends_worker i a (run j pre st).
Proof.
  induction sched as [|a sched IH]; intros st Halive Hdead; cbn [run] in Hdead;
    [congruence|].
  destruct (step j a st) as [st1|] eqn:Hstep; cbn [default] in Hdead.
  - destruct (alive_at i st1) eqn:Hnext.
    + destruct (IH st1 Hnext Hdead) as (pre & b & post & -> & Hends).
      exists (a :: pre), b, post. split; [reflexivity|].
      cbn [run]. now rewrite Hstep.
    + exists [], a, sched. split; [reflexivity|].
      exact (step_ends_worker j a i st st1 Hstep Halive Hnext).
  - destruct (IH st Halive Hdead) as (pre & b & post & -> & Hends).
    exists (a :: pre), b, post. split; [reflexivity|].
    cbn [run]. now rewrite Hstep.
Qed.

Lemma joined_no_worker (i : nat) (st : state) :
  joined st = true -> alive_at i st = false.
Proof.
  unfold joined, alive_at.
  intros [[_ Hdead]%andb_true_iff _]%andb_true_iff.
  destruct (processes st !! i) as [p|] eqn:Hp; [|reflexivity].
  rewrite forallb_forall in Hdead.
  apply list_elem_of_lookup_2, list_elem_of_In in Hp.
  specialize (Hdead p Hp). now apply negb_true_iff in Hdead.
Qed.

(** A feeder that waits to put a sentinel on a full input queue, with no
    worker process left to take anything from it, waits for ever. *)
Lemma feeder_blocked_forever (j : job) (sched : list actor) (k : nat)
    (st : state) :
  feed_thread st = FStop (S k) ->
  queue_full (j_max_size j) (input_queue st) = true ->
  forallb (fun p => negb (worker_alive (p_pc p))) (processes st) = true ->
  feed_thread (run j sched st) = FStop (S k).
Proof.
  intros Hpc Hfull Hdead.
  apply (run_invariant j
           (fun s => feed_thread s = FStop (S k)
                     /\ input_queue s = input_queue st
                     /\ processes s = processes st));
    [|repeat split; assumption].
  intros s s' (Hft & Hiq & Hps) Ht.
  destruct Ht; cbn; try frame_collect; try (repeat split; assumption);
    try congruence;
    exfalso;
    match goal with
    | Hp : processes _ !! _ = Some ?p |- _ =>
        rewrite Hps in Hp; apply list_elem_of_lookup_2, list_elem_of_In in Hp;
        rewrite forallb_forall in Hdead; specialize (Hdead p Hp);
        destruct (p_pc p); discriminate
    end.
Qed.

(** C1, as the code has it. Once the event is set it stays set. A feeder
    that has not yet passed its last test of the event (it is in its
    submission loop or at that test) puts no sentinel and at most the one
    item whose timed put was under way, and has returned once it has moved
    three times; a feeder that has passed the test puts its sentinels
    whatever the event, with a put that has no timeout: on a full input
    queue it cannot move, and with no worker process left it waits for
    ever. The collector collects at most the one result whose timed get
    was under way and has returned once it has moved twice. A worker never
    reads the event: it ends on a sentinel taken from the input queue, on
    an exception of its loop body, or on its own interrupt, which sets the
    event and ends the process at once without a further put; a worker
    alive before a schedule and not after it was ended along it by one of
    these three moves, so a job that has ended has had one for every
    worker. When both threads have ended and the input queue is empty, a
    worker sitting in [get] stays there under every schedule without
    signals. *)
Theorem cancellation_stops_the_threads (j : job) (sched : list actor)
    (st : state) :
  terminate st = true ->
  terminate (run j sched st) = true
  /\ (feeder_submitting (feed_thread st) ->
      (3 <= feeder_moves sched)%nat ->
      feeder_alive (feed_thread (run j sched st)) = false
      /\ count_stops (put_log (run j sched st)) = count_stops (put_log st)
      /\ (submitted (run j sched st) <= S (submitted st))%nat)
  /\ ((2 <= collector_moves sched)%nat ->
      collector_alive (output_thread (run j sched st)) = false
      /\ (completed (run j sched st) <= S (completed st))%nat)
  /\ (forall i b,
         worker_step i (set_terminate b st)
         = set_terminate b <$> worker_step i st)
  /\ (forall i p,
         processes st !! i = Some p ->
         worker_alive (p_pc p) = true ->
         exists st',
           sigint_step i st = Some st'
           /\ terminate st' = true
           /\ output_queue st' = output_queue st
           /\ p_pc <$> processes st' !! i = Some WInterrupted)
  /\ (feeder_alive (feed_thread st) = false ->
      collector_alive (output_thread st) = false ->
      input_queue st = [] ->
      Forall (fun p => p_pc p = WGet \/ worker_alive (p_pc p) = false)
             (processes st) ->
      Forall no_signal sched ->
      run j sched st = st)
  /\ (forall k,
         feed_thread st = FStop (S k) ->
         (queue_full (j_max_size j) (input_queue st) = false ->
          exists st',
            feeder_step j st = Some st'
            /\ put_log st' = put_log st ++ [STOP]
            /\ input_queue st' = input_queue st ++ [STOP]
            /\ feed_thread st' = FStop k)
         /\ (queue_full (j_max_size j) (input_queue st) = true ->
             feeder_step j st = None
             /\ (forallb (fun p => negb (worker_alive (p_pc p)))
                         (processes st) = true ->
                 feed_thread (run j sched st) = FStop (S k))))
  /\ (forall i p q,
         processes st !! i = Some p ->
         p_pc p = WGet ->
         input_queue st = STOP :: q ->
         exists st',
           worker_step i st = Some st'
           /\ input_queue st' = q
           /\ output_queue st' = output_queue st
           /\ p_pc <$> processes st' !! i = Some WStopped
           /\ worker_step i st' = None)
  /\ (forall i p name data segment noise e,
         processes st !! i = Some p ->
         p_pc p = WFit name data segment noise ->
         fit_item (p_model p) name data segment noise = Raise e ->
         exists st',
           worker_step i st = Some st'
           /\ output_queue st' = output_queue st
           /\ pushed_log st' = pushed_log st
           /\ in_acks st' = in_acks st
           /\ p_pc <$> processes st' !! i = Some (WRaised e)
           /\ worker_step i st' = None)
  /\ (forall i,
         alive_at i st = true ->
         alive_at i (run j sched st) = false ->
         exists pre a post,
           sched = pre ++ a :: post /\ ends_worker i a (run j pre st))
  /\ (joined (run j sched st) = true ->
      forall i,
        alive_at i st = true ->
        exists pre a post,
          sched = pre ++ a :: post /\ ends_worker i a (run j pre st)).
Proof.
  intros Hterm. split; [now apply terminate_monotone|].
  split; [|split; [|split; [|split; [|split; [|split; [|split; [|split;
    [|split]]]]]]]].
  - intros Hpc Hmoves.
    apply feeder_returns_after_cancel; try assumption.
    + intros r Hr. rewrite Hr in Hpc. exact Hpc.
    + destruct (feed_thread st); cbn; lia.
    + destruct (feed_thread st); cbn; lia.
  - intros Hmoves.
    apply collector_returns_after_cancel; try assumption.
    + destruct (output_thread st); cbn; lia.
    + destruct (output_thread st); cbn; lia.
  - intros i b. apply worker_ignores_event.
  - intros i p Hp Halive.
    assert (Hi : (i < length (processes st))%nat) by (eapply lookup_lt_Some, Hp).
    unfold sigint_step. rewrite Hp.
    destruct (p_pc p); try discriminate; eexists;
      (split; [reflexivity|]); cbn;
      rewrite list_lookup_insert_eq by exact Hi; auto.
  - apply idle_forever.
  - intros k Hpc. split; intros Hfull.
    + eexists. split; [unfold feeder_step; rewrite Hpc, Hfull; reflexivity|].
      repeat split.
    + split; [unfold feeder_step; now rewrite Hpc, Hfull|].
      now apply feeder_blocked_forever.
  - intros i p q. apply worker_stops_on_sentinel.
  - intros i p name data segment noise e. apply worker_raise_ends.
  - intros i. apply worker_end_cause.
  - intros Hjoined i Halive. apply worker_end_cause; [exact Halive|].
    now apply joined_no_worker.
Qed.

Lemma cancellation_stops_the_threads_witness :
  feeder_alive
    (feed_thread (run Sample.job2 Sample.after_cancel Sample.cancelled)) = false
  /\ collector_alive
       (output_thread (run Sample.job2 Sample.after_cancel Sample.cancelled))
     = false.
Proof.
  destruct (cancellation_stops_the_threads Sample.job2 Sample.after_cancel
              Sample.cancelled eq_refl) as (_ & Hfeed & Hcoll & _).
  split.
  - apply Hfeed; [exact I|]. vm_compute. lia.
  - apply Hcoll. vm_compute. lia.
Defined.

(** C1, as stated, fails: worker 0 is interrupted and sets the event
    before anything was fed; the feeder and the collector return, and
    worker 1 stays in [get] on the empty queue under every schedule
    without further signals, so the job never has all its processes
    ended. *)
Lemma cancelled_worker_never_stops :
  terminate (run Sample.job2 Sample.cancel_schedule Sample.start2) = true
  /\ forall sched,
      Forall no_signal sched ->
      let st :=
        run Sample.job2 sched
            (run Sample.job2 Sample.cancel_schedule Sample.start2) in
      joined st = false /\ p_pc <$> processes st !! 1%nat = Some WGet.
Proof.
  split; [reflexivity|]. intros sched Hsched st. subst st.
  rewrite idle_forever; try assumption; try reflexivity.
  - split; reflexivity.
  - constructor; [right; reflexivity|].
    constructor; [left; reflexivity|constructor].
Qed.

(** A feeder past its last test of the event is not stopped by it: with
    the queue full and both workers interrupted, the event is set and the
    feeder waits in its put of a sentinel under every schedule. *)
Example cancelled_feeder_never_returns :
  let st :=
    run Sample.job_narrow Sample.past_test
        (start_processes Sample.job_narrow Parallelize_new) in
  terminate st = true
  /\ forall sched,
      feeder_alive (feed_thread (run Sample.job_narrow sched st)) = true
      /\ joined (run Sample.job_narrow sched st) = false.
Proof.
  intros st. split; [reflexivity|]. intros sched.
  assert (Hpc : feed_thread (run Sample.job_narrow sched st) = FStop 2)
    by (now apply feeder_blocked_forever).
  unfold joined. rewrite Hpc. split; reflexivity.
Qed.

(** ** Convolution before fitting *)

(** Every process of a job holds the model the job was started with. *)
Lemma stop_processes_models (j : job) (sched : list actor) (st0 : state) :
  let st := snd (stop_processes j sched (start_processes j st0)) in
  length (processes st) = j_n_proc j
  /\ Forall (fun p => p_model p = j_model j) (processes st).
Proof.
  apply (stop_processes_invariant j
           (fun s => length (processes s) = j_n_proc j
                     /\ Forall (fun p => p_model p = j_model j) (processes s))).
  - intros s s' [Hn Hm] Ht. split.
    + now rewrite (keep_n_proc j s s' Ht).
    + now apply (keep_models j s).
  - cbn. split; [apply length_replicate|now apply Forall_replicate].
Qed.

(** C8. On a well-shaped model cube of at least three axes, with the PSF
    file present and a same-size convolution, [convolve] flattens all axes
    but the last two into one batch axis (the leading three when the cube
    has five), convolves every slice of the batch with the PSF on its own,
    and gives a cube of exactly the model cube's shape whose [i]-th slice
    is the convolution of the model's [i]-th slice, stored as [c_float].
    [fit_file] starts its worker processes only after that: every process
    of the job holds the model with this complete cube. *)
Theorem convolve_before_fit (env : run_env) (w : world)
    (filename input_name input_file output_file psf_file : string)
    (psf : ndarray) :
  get_psf (e_ext env) psf_file = Some psf ->
  (1 <= e_n_proc env)%nat ->
  mode_same (e_ext env) ->
  well_shaped (models (w_model w)) ->
  (3 <= length (shape (models (w_model w))))%nat ->
  let s := shape (models (w_model w)) in
  let lead := take (length s - 2) s in
  let image := drop (length s - 2) s in
  flatten_shape s = Ok (prod lead :: image)
  /\ (forall a b c h x,
         s = [a; b; c; h; x] -> flatten_shape s = Ok [(a * b * c)%nat; h; x])
  /\ exists cube,
      convolve (e_ext env) (w_model w) psf_file (e_n_proc env)
      = Ok (set_convolved (w_model w) cube)
      /\ shape cube = s
      /\ length (cells cube) = prod s
      /\ (forall i,
             (i < prod lead)%nat ->
             slice image cube i
             = to_shared_mem (e_ext env)
                 (fftconvolve_same (e_ext env)
                    (slice image (models (w_model w)) i) psf))
      /\ let w' := end_world (fit_file env filename input_name input_file
                                       output_file psf_file w) in
         w_model w' = set_convolved (w_model w) cube
         /\ length (processes (w_par w')) = e_n_proc env
         /\ Forall (fun p => convolved_models (p_model p) = Some cube)
                   (processes (w_par w')).
Proof.
  intros Hpsf Hn Hsame Hwf Hdim s lead image.
  destruct (convolve_computes (e_ext env) (w_model w) psf_file (e_n_proc env)
              psf Hpsf Hn Hsame Hwf Hdim)
    as (Hflat & cube & Hconv & Hshape & Hlen & Hslices).
  fold s lead image in Hflat, Hshape, Hlen, Hslices.
  split; [exact Hflat|]. split.
  - intros a b c h x Hs. rewrite Hflat. unfold lead, image. rewrite Hs. cbn.
    do 2 f_equal. lia.
  - exists cube. repeat split; try assumption.
    all: unfold fit_file; cbn [print w_model]; rewrite Hconv;
      set (j := job_of env (set_convolved (w_model w) cube) input_name
                       input_file output_file);
      match goal with
      | |- context [stop_processes j ?sched (start_processes j ?st0)] =>
          pose proof (stop_processes_models j sched st0) as [Hlenp Hmodels];
          destruct (stop_processes j sched (start_processes j st0))
            as [[| |] st]
      end; cbn in *; try reflexivity; try assumption;
      eapply Forall_impl; try exact Hmodels; cbn; intros p ->; reflexivity.
Qed.

Lemma convolve_before_fit_witness :
  exists cube,
    convolve Sample.ext Sample.model0 "PSF/tileA.psf" 2
    = Ok (set_convolved Sample.model0 cube)
    /\ shape cube = [1; 1; 2; 1; 1]%nat.
Proof.
  assert (Hsame : mode_same Sample.ext) by (intros in1 in2; split; reflexivity).
  destruct (convolve_before_fit Sample.env Sample.world0 "tileA_cuts.h5" "tileA"
              "Cuts/tileA_cuts.h5" "Chi/tileA_chi.h5" "PSF/tileA.psf"
              Sample.psf eq_refl ltac:(cbn; lia) Hsame eq_refl ltac:(cbn; lia))
    as (_ & _ & cube & Hconv & Hshape & _).
  exists cube. split; [exact Hconv|exact Hshape].
Defined.

(** ** The directory driver *)

(** C4. When the PSF file of an input file is missing, [convolve] fails
    with [FileNotFoundError]; [fit_file] catches it, prints the warning
    and returns without starting a thread or a process: the [Parallelize]
    object is as before, the output archive of the file, removed before
    the call, does not exist, and no summary table is saved. The event
    being clear, the loop of [fit_dir] goes on with the next file. *)
Theorem missing_psf_skips_file (env : run_env)
    (input_dir output_dir psf_dir filename : string) (rest : list string)
    (w : world) :
  get_psf (e_ext env) (psf_path psf_dir filename) = None ->
  terminate (w_par w) = false ->
  let input_file := path_join input_dir filename in
  let output_file := output_path output_dir filename in
  let psf := psf_path psf_dir filename in
  let n := length (h5_keys (e_read_cuts env input_file)) in
  let skipped :=
    print (PrSkipping psf)
      (print PrConvolving
         (print (PrFile input_file n) (remove_output output_file w))) in
  convolve (e_ext env) (w_model w) psf (e_n_proc env) = Raise FileNotFoundError
  /\ fit_file env filename (tile_name filename) input_file output_file psf
              (remove_output output_file w)
     = Returned skipped
  /\ w_par skipped
     = set_chi_files (delete output_file (chi_files (w_par w))) (w_par w)
  /\ chi_files (w_par skipped) !! output_file = None
  /\ w_cats skipped = w_cats w
  /\ fit_dir_loop env input_dir output_dir psf_dir (filename :: rest) w
     = fit_dir_loop env input_dir output_dir psf_dir rest skipped.
Proof.
  intros Hpsf Hterm input_file output_file psf n skipped.
  assert (Hconv : forall m, convolve (e_ext env) m psf (e_n_proc env)
                            = Raise FileNotFoundError).
  { intros m. unfold convolve. fold psf in Hpsf. now rewrite Hpsf. }
  assert (Hfit : fit_file env filename (tile_name filename) input_file
                          output_file psf (remove_output output_file w)
                 = Returned skipped).
  { unfold fit_file. now rewrite Hconv. }
  repeat split; try assumption; try apply Hconv.
  - cbn. apply lookup_delete_eq.
  - cbn [fit_dir_loop]. fold input_file output_file psf. rewrite Hfit.
    cbn. now rewrite Hterm.
Qed.

Lemma missing_psf_skips_file_witness :
  fit_dir_loop Sample.env "Cuts" "Chi" "PSF" ["tileB_cuts.h5"] Sample.world0
  = Returned
      (print PrTotal
         (print (PrSkipping "PSF/tileB.psf")
            (print PrConvolving
               (print (PrFile "Cuts/tileB_cuts.h5" 0)
                  (remove_output "Chi/tileB_chi.h5" Sample.world0))))).
Proof.
  destruct (missing_psf_skips_file Sample.env "Cuts" "Chi" "PSF"
              "tileB_cuts.h5" [] Sample.world0 eq_refl eq_refl)
    as (_ & _ & _ & _ & _ & Hloop).
  exact Hloop.
Defined.

(** A move does not look at the output archives, except the collector at
    the archive of its own job. *)
Lemma step_same_but_chi (j : job) (a : actor) (paths : list string)
    (s1 s2 : state) :
  j_output_file j ∈ paths ->
  same_but_chi paths s1 s2 ->
  match step j a s1, step j a s2 with
  | Some s1', Some s2' => same_but_chi paths s1' s2'
  | None, None => True
  | _, _ => False
  end.
Proof.
  intros Hout [Heq Hagree].
  destruct s1 as [t1 iq1 oq1 ft1 sub1 ps1 ot1 c1 tb1 chi1 mo1 ia1 oa1 pl1 gl1 ul1].
  destruct s2 as [t2 iq2 oq2 ft2 sub2 ps2 ot2 c2 tb2 chi2 mo2 ia2 oa2 pl2 gl2 ul2].
  cbn in Heq, Hagree. injection Heq as -> -> -> -> -> -> -> -> -> -> -> -> -> -> ->.
  pose proof (Hagree _ Hout) as Hmine.
  destruct a; cbn [step];
    unfold feeder_step, worker_step, sigint_step, collector_step, collect,
      create_dataset, abort;
    cbn; rewrite ?Hmine;
    repeat case_match; simplify_eq; cbn;
    try exact I; try (split; [reflexivity|exact Hagree]).
  all: split; [reflexivity|]; cbn; intros p Hp; rewrite !lookup_insert;
    case_decide; [reflexivity|now apply Hagree].
Qed.

Lemma joined_same_but_chi (paths : list string) (s1 s2 : state) :
  same_but_chi paths s1 s2 -> joined s1 = joined s2.
Proof.
  intros [Heq _]. destruct s1, s2. cbn in Heq.
  now injection Heq as -> -> -> -> -> -> -> -> -> -> -> -> -> -> ->.
Qed.

Lemma stop_processes_same_but_chi (j : job) (paths : list string)
    (sched : list actor) :
  j_output_file j ∈ paths ->
  forall s1 s2,
    same_but_chi paths s1 s2 ->
    fst (stop_processes j sched s1) = fst (stop_processes j sched s2)
    /\ same_but_chi paths (snd (stop_processes j sched s1))
                    (snd (stop_processes j sched s2)).
Proof.
  intros Hout. induction sched as [|a sched IH]; intros s1 s2 Hs;
    cbn [stop_processes]; rewrite (joined_same_but_chi paths s1 s2 Hs).
  - destruct (joined s2); split; (reflexivity || exact Hs).
  - destruct (joined s2); [split; (reflexivity || exact Hs)|].
    pose proof (step_same_but_chi j a paths s1 s2 Hout Hs) as Hstep.
    destruct a; try (split; (reflexivity || exact Hs));
      destruct (step j _ s1), (step j _ s2); try contradiction;
      apply IH; assumption.
Qed.

Lemma same_but_chi_fields (paths : list string) (s1 s2 : state) :
  same_but_chi paths s1 s2 ->
  terminate s1 = terminate s2 /\ table s1 = table s2.
Proof.
  intros [Heq _]. destruct s1, s2. cbn in Heq.
  now injection Heq as -> -> -> -> -> -> -> -> -> -> -> -> -> -> ->.
Qed.

Lemma same_but_chi_subset (paths paths' : list string) (s1 s2 : state) :
  (forall p, p ∈ paths' -> p ∈ paths) ->
  same_but_chi paths s1 s2 -> same_but_chi paths' s1 s2.
Proof. intros Hsub [Heq Hagree]. split; [exact Heq|]. auto. Qed.

Lemma start_same_but_chi (j : job) (paths : list string) (s1 s2 : state) :
  same_but_chi paths s1 s2 ->
  same_but_chi paths (start_processes j (set_table [] s1))
               (start_processes j (set_table [] s2)).
Proof.
  intros [Heq Hagree]. destruct s1, s2. cbn in Heq, Hagree.
  injection Heq as -> -> -> -> -> -> -> -> -> -> -> -> -> -> ->.
  split; [reflexivity|exact Hagree].
Qed.

Lemma abort_same_but_chi (paths : list string) (s1 s2 : state) :
  same_but_chi paths s1 s2 -> same_but_chi paths (abort s1) (abort s2).
Proof.
  intros [Heq Hagree]. destruct s1, s2. cbn in Heq, Hagree.
  injection Heq as -> -> -> -> -> -> -> -> -> -> -> -> -> -> ->.
  split; [reflexivity|exact Hagree].
Qed.

(** [fit_file] looks at no output archive but its own. *)
Lemma fit_file_same_but_archives (env : run_env)
    (filename input_name input_file output_file psf : string)
    (paths : list string) (w1 w2 : world) :
  output_file ∈ paths ->
  same_but_archives paths w1 w2 ->
  let o1 := fit_file env filename input_name input_file output_file psf w1 in
  let o2 := fit_file env filename input_name input_file output_file psf w2 in
  same_ending o1 o2 /\ same_but_archives paths (end_world o1) (end_world o2).
Proof.
  intros Hout (Hpar & Hmodel & Hcats & Hconsole).
  destruct w1 as [par1 model1 cats1 console1].
  destruct w2 as [par2 model2 cats2 console2].
  cbn in Hpar, Hmodel, Hcats, Hconsole. subst model2 cats2 console2.
  unfold fit_file. cbn [print w_model w_par w_cats w_console].
  destruct (convolve _ _ _ _) as [model|e].
  - set (j := job_of env model input_name input_file output_file).
    destruct (stop_processes_same_but_chi j paths (e_sched env filename) Hout
                _ _ (start_same_but_chi j paths par1 par2 Hpar))
      as [Hend Hst].
    destruct (stop_processes j _ (start_processes j (set_table [] par1)))
      as [e1 st1].
    destruct (stop_processes j _ (start_processes j (set_table [] par2)))
      as [e2 st2].
    cbn in Hend, Hst. subst e2.
    destruct (same_but_chi_fields paths st1 st2 Hst) as [_ Htable].
    destruct e1; cbn; rewrite ?Htable; (split; [exact I|]);
      (split; [first [exact Hst|now apply abort_same_but_chi]|repeat split]).
  - destruct e; cbn; (split; [first [exact I|reflexivity]|]);
      (split; [exact Hpar|repeat split]).
Qed.

Lemma remove_output_same (output_file : string) (paths : list string)
    (w1 w2 : world) :
  same_but_archives paths w1 w2 ->
  same_but_archives (output_file :: paths)
                    (remove_output output_file w1)
                    (remove_output output_file w2).
Proof.
  intros ([Heq Hagree] & Hmodel & Hcats & Hconsole).
  repeat split; try assumption.
  cbn. intros p Hp. rewrite !lookup_delete. case_decide; [reflexivity|].
  apply Hagree. apply elem_of_cons in Hp as [Hp|Hp]; [congruence|exact Hp].
Qed.

Lemma print_same (l : line) (paths : list string) (w1 w2 : world) :
  same_but_archives paths w1 w2 ->
  same_but_archives paths (print l w1) (print l w2).
Proof.
  intros (Hpar & Hmodel & Hcats & Hconsole).
  repeat split; try apply Hpar; try assumption. cbn. now rewrite Hconsole.
Qed.

(** Two runs of the loop from worlds that differ at most in the output
    archives enter the same files, end the same way, and leave the same
    archive at the output path of every file they entered. *)
Lemma fit_dir_loop_same (env : run_env) (input_dir output_dir psf_dir : string)
    (files : list string) :
  forall paths w1 w2,
    same_but_archives paths w1 w2 ->
    let o1 := fit_dir_loop env input_dir output_dir psf_dir files w1 in
    let o2 := fit_dir_loop env input_dir output_dir psf_dir files w2 in
    processed env input_dir output_dir psf_dir files w1
    = processed env input_dir output_dir psf_dir files w2
    /\ same_ending o1 o2
    /\ same_but_archives
         (map (output_path output_dir)
              (processed env input_dir output_dir psf_dir files w1) ++ paths)
         (end_world o1) (end_world o2).
Proof.
  induction files as [|f rest IH]; intros paths w1 w2 Hw.
  - cbn. split; [reflexivity|]. split; [exact I|]. now apply print_same.
  - cbn [fit_dir_loop processed].
    set (p := output_path output_dir f).
    pose proof (remove_output_same p paths w1 w2 Hw) as Hrm.
    destruct (fit_file_same_but_archives env f (tile_name f)
                (path_join input_dir f) p (psf_path psf_dir f) (p :: paths)
                _ _ (list_elem_of_here _ _) Hrm) as [Hend Hrel].
    destruct (fit_file env f _ _ p _ (remove_output p w1)) as [w1'|w1'|e1 w1'];
      destruct (fit_file env f _ _ p _ (remove_output p w2)) as [w2'|w2'|e2 w2'];
      try contradiction; cbn in Hrel; cbn [map app];
      try (split; [reflexivity|]; split; [exact Hend|exact Hrel]).
    destruct Hrel as (Hpar & Hrest).
    destruct (same_but_chi_fields _ _ _ Hpar) as [Hterm _]. rewrite <- Hterm.
    destruct (terminate (w_par w1')).
    + cbn. split; [reflexivity|]. split; [exact I|].
      apply print_same. split; [exact Hpar|exact Hrest].
    + destruct (IH (p :: paths) w1' w2' (conj Hpar Hrest)) as (Hproc & Hend' & Hrel').
      rewrite <- Hproc. split; [reflexivity|]. split; [exact Hend'|].
      destruct Hrel' as (Hpar' & Hrest'). split; [|exact Hrest'].
      eapply same_but_chi_subset; [|exact Hpar'].
      intros q. rewrite !elem_of_cons, !elem_of_app, !elem_of_cons. tauto.
Qed.

(** C10. For every file whose iteration [fit_dir] enters, the output
    archive at the derived path is removed before [fit_file] is called, so
    the job starts with no archive there; and at the end of the run the
    archive at that path is the one the same run leaves when it starts
    with no output archive at all: nothing in it comes from before the
    run. The two runs enter the same files and end the same way. *)
Theorem output_archives_hold_this_run_only (env : run_env)
    (input_dir output_dir psf_dir : string) (listing : list string)
    (w : world) :
  let files :=
    processed env input_dir output_dir psf_dir (sorted listing)
              (print PrRunning w) in
  let o := fit_dir env input_dir output_dir psf_dir listing w in
  let o0 :=
    fit_dir env input_dir output_dir psf_dir listing (clear_archives w) in
  (forall f j w',
      let p := output_path output_dir f in
      chi_files (w_par (remove_output p w')) !! p = None
      /\ chi_files
           (start_processes j (set_table [] (w_par (remove_output p w')))) !! p
         = None)
  /\ files = processed env input_dir output_dir psf_dir (sorted listing)
                       (print PrRunning (clear_archives w))
  /\ same_ending o o0
  /\ forall f,
      f ∈ files ->
      chi_files (w_par (end_world o)) !! output_path output_dir f
      = chi_files (w_par (end_world o0)) !! output_path output_dir f.
Proof.
  intros files o o0. split.
  - intros f j w' p. split; cbn; apply lookup_delete_eq.
  - assert (Hw : same_but_archives [] (print PrRunning w)
                                   (print PrRunning (clear_archives w))).
    { repeat split. cbn. intros p Hp. inversion Hp. }
    destruct (fit_dir_loop_same env input_dir output_dir psf_dir
                (sorted listing) [] _ _ Hw) as (Hfiles & Hend & Hrel).
    split; [exact Hfiles|]. split; [exact Hend|].
    intros f Hf. destruct Hrel as [[_ Hagree] _]. apply Hagree.
    rewrite app_nil_r. apply list_elem_of_fmap. exists f. split; [reflexivity|exact Hf].
Qed.

Lemma output_archives_hold_this_run_only_witness :
  chi_files
    (w_par (end_world (fit_dir Sample.env "Cuts" "Chi" "PSF" ["tileA_cuts.h5"]
                               Sample.stale_world)))
    !! "Chi/tileA_chi.h5"
  = chi_files
      (w_par (end_world (fit_dir Sample.env "Cuts" "Chi" "PSF"
                                 ["tileA_cuts.h5"]
                                 (clear_archives Sample.stale_world))))
      !! "Chi/tileA_chi.h5".
Proof.
  destruct (output_archives_hold_this_run_only Sample.env "Cuts" "Chi" "PSF"
              ["tileA_cuts.h5"] Sample.stale_world) as (_ & _ & _ & Hsame).
  apply (Hsame "tileA_cuts.h5"). vm_compute. apply list_elem_of_here.
Defined.

(** An archive left by an earlier run is replaced by what this run
    writes: the one object whose fit succeeds. *)
Example stale_archive_replaced :
  chi_files
    (w_par (end_world (fit_dir Sample.env "Cuts" "Chi" "PSF" ["tileA_cuts.h5"]
                               Sample.stale_world)))
    !! "Chi/tileA_chi.h5"
  = Some [("00_0001", Sample.pixel Sample.one)].
Proof. vm_compute. reflexivity. Qed.

(** * Further properties *)

(** ** The cutter's archive *)

Lemma h5_get_None {A : Type} (name : string) (f : list (string * A)) :
  h5_get name f = None <-> name ∉ h5_keys f.
Proof.
  induction f as [|[k v] f IH]; cbn.
  - split; [intros _ H; inversion H|reflexivity].
  - destruct (String.eqb_spec k name) as [->|Hne].
    + split; [discriminate|]. intros H. exfalso. apply H. left.
    + rewrite IH, not_elem_of_cons.
      split; [intros H; split; [congruence|exact H]|tauto].
Qed.

Lemma h5_get_app_new {A : Type} (name : string) (v : A)
    (f : list (string * A)) :
  name ∉ h5_keys f -> h5_get name (f ++ [(name, v)]) = Some v.
Proof.
  induction f as [|[k w] f IH]; cbn.
  - intros _. now rewrite String.eqb_refl.
  - rewrite not_elem_of_cons. intros [Hne Hnot].
    destruct (String.eqb_spec k name) as [->|_]; [congruence|now apply IH].
Qed.

Lemma h5_get_app_old {A : Type} (name : string) (v : A)
    (f g : list (string * A)) :
  h5_get name f = Some v -> h5_get name (f ++ g) = Some v.
Proof.
  induction f as [|[k w] f IH]; cbn; [discriminate|].
  destruct (String.eqb k name); [tauto|exact IH].
Qed.

(** One row of the loop, when it is kept and its id is new. *)
Lemma cut_rows_kept (c : Cutter) (row : params) (cat : list params)
    (h5 : list (string * cutout)) (id : string) :
  kept c row = true ->
  row_id row = Some id ->
  id ∉ h5_keys h5 ->
  cut_rows c (row :: cat) h5 = cut_rows c cat (h5 ++ [(id, cut c row)]).
Proof.
  unfold kept, row_id. intros [Hc Hb]%andb_true_iff Hid Hnew.
  apply negb_true_iff in Hb. cbn [cut_rows]. rewrite Hc, Hb.
  destruct (default (PInt 0) (row !! "EXT_NUMBER")) as [e|]; [|discriminate].
  destruct (row !! "NUMBER") as [[n|]|]; try discriminate.
  inversion Hid; subst id. cbn [format_d]. unfold create_group.
  apply h5_get_None in Hnew. unfold object_id in Hnew. now rewrite Hnew.
Qed.

Lemma cut_rows_skipped (c : Cutter) (row : params) (cat : list params)
    (h5 : list (string * cutout)) :
  kept c row = false ->
  cut_rows c (row :: cat) h5 = cut_rows c cat h5.
Proof.
  unfold kept. intros H. cbn [cut_rows].
  destruct (condition c row); [|reflexivity].
  destruct (blank c row); [reflexivity|discriminate].
Qed.

(** The loop over two catalogues in a row: the second part runs on what
    the first left, unless the first was ended by an exception. *)
Lemma cut_rows_app (c : Cutter) (cat1 cat2 : list params) :
  forall h5,
    cut_rows c (cat1 ++ cat2) h5
    = match cut_rows c cat1 h5 with
      | (h5', None) => cut_rows c cat2 h5'
      | (h5', Some e) => (h5', Some e)
      end.
Proof.
  induction cat1 as [|row cat1 IH]; intros h5; [reflexivity|].
  cbn [app cut_rows].
  repeat (case_match; try reflexivity; try apply IH).
Qed.

Lemma cut_rows_distinct (c : Cutter) (cat : list params) :
  forall h5 : list (string * cutout),
    NoDup (h5_keys h5) -> NoDup (h5_keys (fst (cut_rows c cat h5))).
Proof.
  induction cat as [|row cat IH]; intros h5 Hh5; cbn [cut_rows fst];
    [exact Hh5|].
  repeat (case_match; try exact Hh5; try (now apply IH)).
  apply IH.
  match goal with
  | H : create_group ?id _ _ = Ok _ |- _ =>
      unfold create_group in H; destruct (h5_get id h5) eqn:Hget;
      [discriminate|]; inversion H; subst
  end.
  unfold h5_keys. rewrite map_app. cbn.
  apply NoDup_app. split; [exact Hh5|]. split.
  - intros k Hk Hin. apply list_elem_of_singleton in Hin. subst k.
    apply h5_get_None in Hget. contradiction.
  - apply NoDup_singleton.
Qed.

Lemma h5_get_distinct {A : Type} (k : string) (v : A)
    (f : list (string * A)) :
  NoDup (h5_keys f) -> (k, v) ∈ f -> h5_get k f = Some v.
Proof.
  induction f as [|[k' v'] f IH]; intros Hnd Hin; [inversion Hin|].
  cbn in Hnd. apply NoDup_cons in Hnd as [Hnot Hnd].
  apply elem_of_cons in Hin as [Heq|Hin].
  - inversion Heq; subst. cbn. now rewrite String.eqb_refl.
  - cbn. destruct (String.eqb_spec k' k) as [->|_]; [|now apply IH].
    exfalso. apply Hnot. unfold h5_keys.
    apply list_elem_of_fmap. exists (k, v). split; [reflexivity|exact Hin].
Qed.

(** X1. Whatever the catalogue and however the loop ends, the group
    names of the archive [cut_image] leaves are pairwise distinct, and
    looking a name up in the archive gives the very cutout written under
    it. *)
Theorem cut_image_keys_distinct (c : Cutter) (cat : list params) :
  NoDup (h5_keys (fst (cut_image c cat)))
  /\ forall k v,
      (k, v) ∈ fst (cut_image c cat) ->
      h5_get k (fst (cut_image c cat)) = Some v.
Proof.
  assert (Hnd : NoDup (h5_keys (fst (cut_image c cat))))
    by (apply cut_rows_distinct; constructor).
  split; [exact Hnd|]. intros k v. now apply h5_get_distinct.
Qed.

(** X2. Two rows get the same group name exactly when they agree on the
    extension number and on the catalogue number. *)
Theorem object_id_injective (e n e' n' : Z) :
  object_id e n = object_id e' n' <-> e = e' /\ n = n'.
Proof.
  split; [|intros [-> ->]; reflexivity].
  intros Heq.
  pose proof (split_object_id e n) as Hs.
  rewrite Heq, split_object_id in Hs. inversion Hs as [[He Hn]].
  pose proof (int_format_0d 2 e) as Hie. rewrite <- He, int_format_0d in Hie.
  pose proof (int_format_0d 4 n) as Hin. rewrite <- Hn, int_format_0d in Hin.
  split; congruence.
Qed.

Lemma cut_rows_all_kept (c : Cutter) (cat : list params) :
  forall ids h5,
    mapM row_id (List.filter (kept c) cat) = Some ids ->
    NoDup (h5_keys h5 ++ ids) ->
    cut_rows c cat h5
    = (h5 ++ zip ids (cut c <$> List.filter (kept c) cat), None).
Proof.
  induction cat as [|row cat IH]; intros ids h5 Hids Hnd.
  - cbn in Hids. inversion Hids; subst ids. cbn. now rewrite app_nil_r.
  - cbn [List.filter] in *. destruct (kept c row) eqn:Hk.
    + cbn in Hids. destruct (row_id row) as [id|] eqn:Hid; [|discriminate].
      cbn in Hids.
      destruct (mapM row_id (List.filter (kept c) cat)) as [ids'|] eqn:Hrest;
        [|discriminate].
      cbn in Hids. inversion Hids; subst ids.
      rewrite (cut_rows_kept c row cat h5 id Hk Hid).
      * rewrite (IH ids' (h5 ++ [(id, cut c row)]) eq_refl).
        -- cbn. now rewrite <- app_assoc.
        -- unfold h5_keys in *. rewrite map_app, <- app_assoc. exact Hnd.
      * apply NoDup_app in Hnd as (_ & Hdisj & _).
        intros Hin. apply (Hdisj id Hin). left.
    + rewrite (cut_rows_skipped c row cat h5 Hk). now apply IH.
Qed.

(** X3. When every kept row carries integer numbers and no two kept rows
    share a group name, [cut_image] ends without an exception and the
    archive holds exactly one group per kept row, in catalogue order,
    named by the row's id and holding the row's cutout. *)
Theorem cut_image_writes_kept_rows (c : Cutter) (cat : list params)
    (ids : list string) :
  mapM row_id (List.filter (kept c) cat) = Some ids ->
  NoDup ids ->
  cut_image c cat = (zip ids (cut c <$> List.filter (kept c) cat), None).
Proof.
  intros Hids Hnd. unfold cut_image.
  now rewrite (cut_rows_all_kept c cat ids [] Hids Hnd).
Qed.

Lemma cut_image_writes_kept_rows_witness :
  cut_image Sample.cutter [Sample.row 0 1; Sample.row 0 2]
  = ([("00_0001", Sample.good); ("00_0002", Sample.good)], None).
Proof.
  apply (cut_image_writes_kept_rows Sample.cutter
           [Sample.row 0 1; Sample.row 0 2] ["00_0001"; "00_0002"]).
  - vm_compute. reflexivity.
  - repeat constructor; intros H; repeat (apply elem_of_cons in H as [H|H];
      [discriminate H|]); inversion H.
Defined.

(** X4. The first row at which the loop fails ends it: a kept row
    without ['NUMBER'] raises [KeyError], a kept row with a number that is
    not an integer or with an id already in the archive raises
    [ValueError]; in each case the archive keeps the groups written
    before and no later row is written. A kept row with a new id adds
    its group and the loop goes on. *)
Theorem cut_image_first_failure (c : Cutter) (pre post : list params)
    (row : params) (h5 : list (string * cutout)) :
  cut_image c pre = (h5, None) ->
  kept c row = true ->
  (row !! "NUMBER" = None ->
   cut_image c (pre ++ row :: post) = (h5, Some KeyError))
  /\ (is_Some (row !! "NUMBER") -> row_id row = None ->
      cut_image c (pre ++ row :: post) = (h5, Some ValueError))
  /\ (forall id,
         row_id row = Some id -> id ∈ h5_keys h5 ->
         cut_image c (pre ++ row :: post) = (h5, Some ValueError))
  /\ (forall id,
         row_id row = Some id -> id ∉ h5_keys h5 ->
         cut_image c (pre ++ row :: post)
         = cut_rows c post (h5 ++ [(id, cut c row)])).
Proof.
  intros Hpre Hk. unfold cut_image in *. rewrite cut_rows_app, Hpre.
  pose proof Hk as Hk'. unfold kept in Hk'.
  apply andb_true_iff in Hk' as [Hc Hb]. apply negb_true_iff in Hb.
  repeat split.
  - intros Hnum. cbn [cut_rows]. now rewrite Hc, Hb, Hnum.
  - intros [v Hv] Hid. cbn [cut_rows]. rewrite Hc, Hb, Hv.
    unfold row_id in Hid. rewrite Hv in Hid.
    destruct (default (PInt 0) (row !! "EXT_NUMBER")); cbn [format_d];
      [|reflexivity].
    destruct v; [discriminate|reflexivity].
  - intros id Hid Hin. cbn [cut_rows]. rewrite Hc, Hb.
    unfold row_id in Hid.
    destruct (default (PInt 0) (row !! "EXT_NUMBER")) as [e|]; [|discriminate].
    destruct (row !! "NUMBER") as [[n|]|]; try discriminate.
    inversion Hid; subst id. cbn [format_d]. unfold create_group.
    destruct (h5_get _ h5) eqn:Hget; [reflexivity|].
    apply h5_get_None in Hget. contradiction.
  - intros id Hid Hnew. now apply cut_rows_kept.
Qed.

Lemma cut_image_first_failure_witness :
  cut_image Sample.cutter [Sample.row 0 1; Sample.row 0 1; Sample.row 0 2]
  = ([("00_0001", Sample.good)], Some ValueError).
Proof.
  destruct (cut_image_first_failure Sample.cutter [Sample.row 0 1]
              [Sample.row 0 2] (Sample.row 0 1) [("00_0001", Sample.good)]
              eq_refl eq_refl) as (_ & _ & Hdup & _).
  apply (Hdup "00_0001"); [reflexivity|]. vm_compute. apply list_elem_of_here.
Defined.

(** ** What the collector writes *)








(** ** What [fit_file] saves *)




(** ** Bounds *)

Lemma keep_within_bounds (j : job) (st st' : state) :
  trans j st st' -> within_bounds j st -> within_bounds j st'.
Proof.
  intros Ht [Hq Hsub Hdone Hget].
  assert (Hroom : forall m,
             queue_full (j_max_size j) (input_queue st) = false ->
             Z.of_nat (length (input_queue st ++ [m]))
             <= capacity (j_max_size j)).
  { intros m Hfull. unfold queue_full in Hfull. apply Z.leb_gt in Hfull.
    rewrite length_app. cbn. lia. }
  destruct Ht; try frame_collect; constructor; cbn;
    rewrite ?Fiq, ?Fsub, ?Fpc, ?Fdone; try assumption; try discriminate;
    try (now apply Hroom);
    try match goal with
        | Hq' : input_queue st = _ :: _ |- _ =>
            rewrite Hq' in Hq; cbn in Hq; lia
        end;
    try match goal with
        | Hn : j_names j !! _ = Some _ |- _ =>
            apply lookup_lt_Some in Hn; lia
        end;
    try (intros _; assumption);
    try match goal with
        | Hpc : output_thread st = CGet |- _ =>
            specialize (Hget Hpc); cbn in *; lia
        end.
Qed.

(** X7. All along any run of a job started with an input queue within
    its capacity: the input queue never holds more messages than its
    capacity ([max_size], or the largest semaphore value when [max_size]
    is not positive), the feeder never goes past the names of the
    archive, and the collector never counts more results than there are
    names. *)
Theorem job_stays_within_bounds (j : job) (sched : list actor) (st0 : state) :
  Z.of_nat (length (input_queue st0)) <= capacity (j_max_size j) ->
  let st := run j sched (start_processes j st0) in
  Z.of_nat (length (input_queue st)) <= capacity (j_max_size j)
  /\ (submitted st <= length (j_names j))%nat
  /\ (completed st <= length (j_names j))%nat.
Proof.
  intros Hq st.
  assert (Hwb : within_bounds j st).
  { apply (run_invariant j (within_bounds j)).
    - intros s s' Hs Ht. exact (keep_within_bounds j s s' Ht Hs).
    - constructor; cbn; lia || discriminate. }
  destruct Hwb as [H1 H2 H3 _]. auto.
Qed.

Lemma job_stays_within_bounds_witness :
  Z.of_nat
    (length (input_queue
               (run Sample.job2 Sample.full_schedule
                    (start_processes Sample.job2 Parallelize_new))))
  <= 100.
Proof.
  exact (proj1 (job_stays_within_bounds Sample.job2 Sample.full_schedule
                  Parallelize_new ltac:(cbn; lia))).
Defined.

(** ** Sentinels *)

(** X8. All along any run of a job started with both queues empty, the
    acknowledgments on the input queue are at most the items put on it:
    a sentinel is never acknowledged. When the run has completed
    normally, the feeder has put exactly one sentinel per worker, every
    worker has taken exactly one and ended on it, and these sentinels are
    the only puts on the input queue left without an acknowledgment. *)
Theorem sentinels_are_never_acknowledged (j : job) (sched : list actor)
    (st0 : state) :
  queues_empty st0 ->
  let st := run j sched (start_processes j st0) in
  (in_acks st + count_stops (put_log st) <= length (put_log st))%nat
  /\ (completed_normally st ->
      count_stops (put_log st) = j_n_proc j
      /\ count_stops (got_log st) = j_n_proc j
      /\ tally stopped (processes st) = j_n_proc j
      /\ length (put_log st) = (in_acks st + j_n_proc j)%nat).
Proof.
  intros Hempty st.
  destruct (job_inv_run j sched st0 Hempty)
    as [_ Hn (k & (items & Hlog & Hitems) & Hdue) Hsub Hfifo Hcons Hack
          Hstopped Hunint Hcoll Hret].
  fold st in Hn, Hlog, Hitems, Hdue, Hsub, Hfifo, Hcons, Hack, Hstopped,
    Hunint, Hcoll, Hret.
  pose proof (counts_run j sched st0) as (Hb1 & Hb2 & Hb3). fold st in Hb1, Hb2, Hb3.
  pose proof (count_total (put_log st)) as Htotal.
  assert (Hgot : (count_items (got_log st) <= count_items (put_log st))%nat)
    by (rewrite Hfifo, count_items_app; lia).
  split; [lia|].
  intros (Hjoined & Hterm & Hpc).
  specialize (Hcons Hterm). specialize (Hack Hterm).
  specialize (Hunint Hterm). specialize (Hret Hpc Hterm).
  rewrite Hpc in Hcoll. cbn in Hcoll.
  unfold joined in Hjoined.
  apply andb_true_iff in Hjoined as [[Hfeed Hdead]%andb_true_iff _].
  destruct (tally_dead _ Hdead) as [Hfit Hacking].
  pose proof (tally_all_dead _ Hdead) as Hall.
  rewrite Hfit in Hcons. rewrite Hacking in Hack.
  assert (Hput : count_items (put_log st) = submitted st).
  { rewrite Hlog, count_items_app, count_items_replicate_stop.
    rewrite (count_items_fed j _ _ Hitems), length_take. lia. }
  assert (Hputs : count_stops (put_log st) = k).
  { rewrite Hlog, count_stops_app, count_stops_replicate_stop.
    now rewrite (count_stops_fed j _ _ Hitems). }
  assert (Hk : (k <= j_n_proc j)%nat).
  { unfold sentinels_due in Hdue. destruct (feed_thread st); intuition lia. }
  pose proof (count_total (input_queue st)) as Hqt.
  pose proof (count_total (got_log st)) as Hgt.
  assert (Hput' := Hput). rewrite Hfifo, count_items_app in Hput'.
  assert (Hputs' := Hputs). rewrite Hfifo, count_stops_app in Hputs'.
  lia.
Qed.

Lemma sentinels_are_never_acknowledged_witness :
  count_stops
    (put_log (run Sample.job2 Sample.full_schedule
                  (start_processes Sample.job2 Parallelize_new)))
  = 2%nat.
Proof.
  assert (Hempty : queues_empty Parallelize_new) by (split; reflexivity).
  destruct (sentinels_are_never_acknowledged Sample.job2 Sample.full_schedule
              Parallelize_new Hempty) as (_ & Hdone).
  destruct Hdone as (Hstops & _).
  - repeat split; reflexivity.
  - exact Hstops.
Defined.

(** ** When [convolve] fails *)

(** With the PSF file present, [convolve] raises nothing but
    [ValueError] and [TypeError]. *)
Lemma convolve_raises (ext : Externals) (self : ModelCPU) (psf_file : string)
    (n_proc : nat) (psf : ndarray) (e : exn) :
  get_psf ext psf_file = Some psf ->
  convolve ext self psf_file n_proc = Raise e ->
  e = ValueError \/ e = TypeError.
Proof.
  intros Hpsf. unfold convolve. rewrite Hpsf. res_simpl.
  destruct (pool n_proc) as [[]|e0] eqn:Hpool; res_simpl.
  2: { intros H. inversion H; subst e0.
       destruct n_proc; inversion Hpool. now left. }
  destruct (flatten_shape _) as [fshape|e1] eqn:Hflat; res_simpl.
  2: { intros H. inversion H; subst e1. unfold flatten_shape in Hflat.
       case_match; inversion Hflat. now right. }
  destruct (reshape fshape _) as [flat|e2] eqn:Hflatten; res_simpl.
  2: { intros H. inversion H; subst e2. unfold reshape in Hflatten.
       case_match; inversion Hflatten. now left. }
  destruct (np_array _) as [stacked|e3] eqn:Hstack; res_simpl.
  2: { intros H. inversion H; subst e3. unfold np_array in Hstack.
       repeat case_match; inversion Hstack. now left. }
  destruct (reshape _ stacked) as [cube|e4] eqn:Hcube; res_simpl;
    [discriminate|].
  intros H. inversion H; subst e4. unfold reshape in Hcube.
  case_match; inversion Hcube. now left.
Qed.

(** X9. [convolve] raises [FileNotFoundError] exactly when the PSF file
    is missing, whatever else is wrong. With the PSF file present and a
    same-size convolution, it succeeds exactly when the pool has at least
    one process and the model cube is well shaped with at least three
    axes; otherwise it raises [ValueError] for a pool of no process,
    else [TypeError] for a cube of fewer than three axes, else
    [ValueError] for a cube whose cells do not fill its shape. *)
Theorem convolve_fails_or_succeeds (ext : Externals) (self : ModelCPU)
    (psf_file : string) (n_proc : nat) :
  mode_same ext ->
  (convolve ext self psf_file n_proc = Raise FileNotFoundError
   <-> get_psf ext psf_file = None)
  /\ ((exists model, convolve ext self psf_file n_proc = Ok model)
      <-> get_psf ext psf_file <> None
          /\ (1 <= n_proc)%nat
          /\ (3 <= length (shape (models self)))%nat
          /\ well_shaped (models self))
  /\ (get_psf ext psf_file <> None ->
      (n_proc = 0%nat -> convolve ext self psf_file n_proc = Raise ValueError)
      /\ ((1 <= n_proc)%nat ->
          (length (shape (models self)) < 3)%nat ->
          convolve ext self psf_file n_proc = Raise TypeError)
      /\ ((1 <= n_proc)%nat ->
          (3 <= length (shape (models self)))%nat ->
          ~ well_shaped (models self) ->
          convolve ext self psf_file n_proc = Raise ValueError)).
Proof.
  intros Hsame.
  set (s := shape (models self)).
  assert (Hs : s = take (length s - 2) s ++ drop (length s - 2) s)
    by (symmetry; apply take_drop).
  assert (Hflat : (3 <= length s)%nat ->
                  flatten_shape s
                  = Ok (prod (take (length s - 2) s) :: drop (length s - 2) s)).
  { intros Hdim. unfold flatten_shape.
    destruct (take (length s - 2) s) eqn:Hlead; [|reflexivity].
    apply (f_equal length) in Hlead. rewrite length_take in Hlead.
    cbn in Hlead. lia. }
  assert (Hshort : (length s < 3)%nat -> flatten_shape s = Raise TypeError).
  { intros Hdim. unfold flatten_shape.
    replace (length s - 2)%nat with 0%nat by lia. reflexivity. }
  assert (Hsize : prod (prod (take (length s - 2) s) :: drop (length s - 2) s)
                  = prod s).
  { transitivity (prod (take (length s - 2) s ++ drop (length s - 2) s));
      [now rewrite prod_app|now rewrite take_drop]. }
  assert (Hbad : get_psf ext psf_file <> None ->
                 (1 <= n_proc)%nat -> (3 <= length s)%nat ->
                 ~ well_shaped (models self) ->
                 convolve ext self psf_file n_proc = Raise ValueError).
  { intros Hpsf Hn Hdim Hwf. unfold convolve.
    destruct (get_psf ext psf_file) as [psf|]; [|congruence]. res_simpl.
    destruct n_proc; [lia|]. res_simpl. fold s. rewrite (Hflat Hdim).
    res_simpl. unfold reshape. rewrite Hsize.
    destruct (Nat.eqb_spec (prod s) (length (cells (models self))))
      as [Heq|_]; [|reflexivity].
    exfalso. apply Hwf. unfold well_shaped. now rewrite <- Heq. }
  split; [|split].
  - split.
    + destruct (get_psf ext psf_file) as [psf|] eqn:Hpsf; [|reflexivity].
      intros H.
      destruct (convolve_raises ext self psf_file n_proc psf _ Hpsf H);
        discriminate.
    + intros Hnone. unfold convolve. now rewrite Hnone.
  - split.
    + intros [model Hok].
      destruct (get_psf ext psf_file) as [psf|] eqn:Hpsf;
        [|unfold convolve in Hok; rewrite Hpsf in Hok; discriminate].
      split; [discriminate|].
      destruct n_proc as [|n];
        [unfold convolve in Hok; rewrite Hpsf in Hok; discriminate|].
      split; [lia|].
      destruct (le_lt_dec 3 (length s)) as [Hdim|Hdim].
      * split; [exact Hdim|].
        destruct (Nat.eq_dec (length (cells (models self))) (prod s))
          as [Hwf|Hwf]; [exact Hwf|].
        rewrite Hbad in Hok; (discriminate || lia || exact Hwf).
      * exfalso. unfold convolve in Hok. rewrite Hpsf in Hok.
        revert Hok. res_simpl. fold s. rewrite (Hshort Hdim). discriminate.
    + intros (Hpsf & Hn & Hdim & Hwf).
      destruct (get_psf ext psf_file) as [psf|] eqn:Hget; [|congruence].
      destruct (convolve_computes ext self psf_file n_proc psf Hget Hn Hsame
                  Hwf Hdim) as (_ & cube & Hconv & _).
      eexists. exact Hconv.
  - intros Hpsf. split; [|split].
    + intros ->. unfold convolve.
      destruct (get_psf ext psf_file); [reflexivity|congruence].
    + intros Hn Hdim. unfold convolve.
      destruct (get_psf ext psf_file); [|congruence]. res_simpl.
      destruct n_proc; [lia|]. res_simpl. fold s. now rewrite (Hshort Hdim).
    + intros Hn Hdim Hwf. now apply Hbad.
Qed.

Lemma convolve_fails_or_succeeds_witness :
  convolve Sample.ext Sample.model0 "PSF/tileA.psf" 0 = Raise ValueError.
Proof.
  assert (Hsame : mode_same Sample.ext) by (intros in1 in2; split; reflexivity).
  destruct (convolve_fails_or_succeeds Sample.ext Sample.model0 "PSF/tileA.psf"
              0 Hsame) as (_ & _ & Hfail).
  destruct Hfail as (Hzero & _); [discriminate|].
  exact (Hzero eq_refl).
Defined.

(** ** After an abort *)




(** ** The order of the files *)

Lemma ascii_compare_N (a b : ascii) :
  Ascii.compare a b = N.compare (N_of_ascii a) (N_of_ascii b).
Proof. reflexivity. Qed.

Lemma str_le_cons (a b : ascii) (s t : string) :
  str_le (String a s) (String b t)
  <-> (N_of_ascii a < N_of_ascii b)%N \/ a = b /\ str_le s t.
Proof.
  unfold str_le, String.leb. cbn [String.compare].
  rewrite ascii_compare_N.
  destruct (N.compare_spec (N_of_ascii a) (N_of_ascii b)) as [Heq|Hlt|Hgt].
  - apply (f_equal ascii_of_N) in Heq. rewrite !ascii_N_embedding in Heq.
    subst b. split; [now right|]. intros [Hlt|[_ H]]; [lia|exact H].
  - split; [now left|reflexivity].
  - split; [discriminate|]. intros [Hlt|[-> _]]; lia.
Qed.

#[local] Instance str_le_trans : Transitive str_le.
Proof.
  intros s. induction s as [|a s IH]; intros [|b t] [|c u]; try easy.
  rewrite !str_le_cons. intros [Hab|[-> Hst]] [Hbc|[-> Htu]].
  - left. lia.
  - now left.
  - now left.
  - right. split; [reflexivity|]. now apply (IH t u).
Qed.

#[local] Instance str_le_antisym : AntiSymm (=) str_le.
Proof. intros s t. apply String.leb_antisym. Qed.

Lemma insert_sorted_perm (x : string) (l : list string) :
  insert_sorted x l ≡ₚ x :: l.
Proof.
  induction l as [|y l IH]; cbn; [reflexivity|].
  destruct (String.leb x y); [reflexivity|].
  rewrite IH. apply Permutation_swap.
Qed.

Lemma sorted_perm (l : list string) : sorted l ≡ₚ l.
Proof.
  induction l as [|x l IH]; cbn; [reflexivity|].
  fold (sorted l). now rewrite insert_sorted_perm, IH.
Qed.

Lemma insert_sorted_Sorted (x : string) (l : list string) :
  Sorted str_le l -> Sorted str_le (insert_sorted x l).
Proof.
  induction l as [|y l IH]; intros Hl; cbn.
  - repeat constructor.
  - destruct (String.leb x y) eqn:Hxy.
    + constructor; [exact Hl|]. now constructor.
    + assert (Hyx : str_le y x).
      { destruct (String.leb_total x y) as [H|H]; [congruence|exact H]. }
      apply Sorted_inv in Hl as [Hl Hhd].
      constructor; [now apply IH|].
      destruct l as [|z l]; cbn.
      * now constructor.
      * destruct (String.leb x z); constructor; [exact Hyx|].
        now apply HdRel_inv in Hhd.
Qed.

Lemma sorted_Sorted (l : list string) : Sorted str_le (sorted l).
Proof.
  induction l as [|x l IH]; cbn; [constructor|].
  now apply insert_sorted_Sorted.
Qed.

(** X11. [fit_dir] does not depend on the order in which [os.listdir]
    gives the file names: it goes through them in ascending order, each
    name as many times as the listing has it, and two listings of the
    same names end the run in the same way and in the same world. *)
Theorem fit_dir_ignores_listing_order (env : run_env)
    (input_dir output_dir psf_dir : string) (listing1 listing2 : list string)
    (w : world) :
  listing1 ≡ₚ listing2 ->
  Sorted str_le (sorted listing1)
  /\ sorted listing1 ≡ₚ listing1
  /\ sorted listing1 = sorted listing2
  /\ fit_dir env input_dir output_dir psf_dir listing1 w
     = fit_dir env input_dir output_dir psf_dir listing2 w.
Proof.
  intros Hperm.
  assert (Heq : sorted listing1 = sorted listing2).
  { apply (Sorted_unique str_le); try apply sorted_Sorted.
    now rewrite !sorted_perm. }
  split; [apply sorted_Sorted|]. split; [apply sorted_perm|].
  split; [exact Heq|]. unfold fit_dir. now rewrite Heq.
Qed.

Lemma fit_dir_ignores_listing_order_witness :
  sorted ["tileB_cuts.h5"; "tileA_cuts.h5"]
  = sorted ["tileA_cuts.h5"; "tileB_cuts.h5"].
Proof.
  exact (proj1 (proj2 (proj2 (fit_dir_ignores_listing_order
                                Sample.env "Cuts" "Chi" "PSF"
                                ["tileB_cuts.h5"; "tileA_cuts.h5"]
                                ["tileA_cuts.h5"; "tileB_cuts.h5"]
                                Sample.world0
                                (Permutation_swap _ _ []))))).
Defined.

(** ** The names [fit_dir] derives from a file name *)

Lemma split_absent (c : ascii) (s : string) :
  has_char c s = false -> PyStr.split c s = [s].
Proof.
  induction s as [|d s IH]; cbn; [reflexivity|].
  intros [Hd Hs]%orb_false_iff. rewrite Hd, (IH Hs). reflexivity.
Qed.

Lemma append_cons (c : ascii) (s t : string) :
  String c s +:+ t = String c (s +:+ t).
Proof. reflexivity. Qed.

Lemma has_char_app (c : ascii) (s t : string) :
  has_char c (s +:+ t) = has_char c s || has_char c t.
Proof.
  induction s as [|d s IH]; [reflexivity|].
  rewrite append_cons. cbn [has_char]. now rewrite IH, orb_assoc.
Qed.

Lemma basename_plain (s : string) :
  has_char slash s = false -> basename s = s.
Proof. intros H. unfold basename. now rewrite split_absent. Qed.

Lemma replace_fuel_absent (p : string) (fuel : nat) :
  forall s, occurs p s = false -> replace_fuel fuel p EmptyString s = s.
Proof.
  induction fuel as [|fuel IH]; intros s Hs; [reflexivity|].
  cbn [replace_fuel]. destruct s as [|c s]; cbn [occurs] in Hs;
    destruct (strip_prefix p _); try discriminate; [reflexivity|].
  now rewrite (IH s Hs).
Qed.

(** The marker does not begin inside a name and end in a marker that
    follows it: it does not overlap itself. *)
Lemma marker_not_astride (s : string) :
  s <> EmptyString ->
  strip_prefix "_cuts.h5" s = None ->
  strip_prefix "_cuts.h5" (s +:+ "_cuts.h5") = None.
Proof.
  intros Hs H.
  destruct s as [|c s]; [contradiction|]. clear Hs.
  rewrite append_cons. cbn [strip_prefix] in *.
  destruct (Ascii.eqb _ c); [|reflexivity].
  do 7 (destruct s as [|c' s]; [reflexivity|];
        rewrite append_cons; cbn [strip_prefix] in *;
        destruct (Ascii.eqb _ c'); [|reflexivity]; clear c').
  discriminate.
Qed.

Lemma replace_marker_suffix (fuel : nat) :
  forall name,
    occurs "_cuts.h5" name = false ->
    (String.length name < fuel)%nat ->
    replace_fuel fuel "_cuts.h5" EmptyString (name +:+ "_cuts.h5") = name.
Proof.
  induction fuel as [|fuel IH]; intros name Hname Hfuel; [lia|].
  destruct name as [|c name].
  - destruct fuel; reflexivity.
  - cbn [occurs] in Hname.
    destruct (strip_prefix "_cuts.h5" (String c name)) eqn:Hhere;
      [discriminate|].
    cbn [replace_fuel].
    rewrite (marker_not_astride (String c name)) by (discriminate || exact Hhere).
    rewrite append_cons, IH; [reflexivity|exact Hname|].
    cbn in Hfuel. lia.
Qed.

Lemma length_append (s t : string) :
  String.length (s +:+ t) = (String.length s + String.length t)%nat.
Proof.
  induction s as [|c s IH]; [reflexivity|].
  rewrite append_cons. cbn [String.length]. now rewrite IH.
Qed.

(** X12. For an input file [<name>_cuts.h5], where [name] holds no
    slash and no [_cuts.h5], [fit_dir] takes [name] as the name of the
    tile, writes the archive [<name>_chi.h5] of the output directory and
    reads the PSF [<name>.psf] of the PSF directory. A file name that
    holds no [_cuts.h5] at all is the name of its tile as it is,
    extension included. *)
Theorem names_derived_from_file_name (name output_dir psf_dir : string) :
  has_char slash name = false ->
  occurs "_cuts.h5" name = false ->
  tile_name (name +:+ "_cuts.h5") = name
  /\ output_path output_dir (name +:+ "_cuts.h5")
     = path_join output_dir (name +:+ "_chi.h5")
  /\ psf_path psf_dir (name +:+ "_cuts.h5")
     = path_join psf_dir (name +:+ ".psf")
  /\ tile_name name = name.
Proof.
  intros Hslash Hmarker.
  assert (Htile : tile_name (name +:+ "_cuts.h5") = name).
  { unfold tile_name. rewrite basename_plain
      by (rewrite has_char_app, Hslash; reflexivity).
    unfold replace. apply replace_marker_suffix; [exact Hmarker|].
    rewrite length_append. cbn. lia. }
  unfold output_path, psf_path. rewrite Htile.
  repeat split; try reflexivity.
  unfold tile_name. rewrite basename_plain by exact Hslash.
  now apply replace_fuel_absent.
Qed.

Lemma names_derived_from_file_name_witness :
  tile_name "tileA_cuts.h5" = "tileA"
  /\ psf_path "PSF" "tileA_cuts.h5" = "PSF/tileA.psf".
Proof.
  destruct (names_derived_from_file_name "tileA" "Chi" "PSF" eq_refl eq_refl)
    as (Htile & _ & Hpsf & _).
  split; [exact Htile|exact Hpsf].
Defined.

(** ** A worker that died *)

(** X13. In a job started with both queues empty, once the loop body of
    a worker has died from an exception the collector can no longer
    return from its loop unless the event is set: it waits for a result
    that will never come, so the job does not complete normally. *)
Theorem dead_worker_hangs_the_collector (j : job) (sched : list actor)
    (st0 : state) :
  queues_empty st0 ->
  let st := run j sched (start_processes j st0) in
  (0 < tally raised (processes st))%nat ->
  terminate st = false ->
  output_thread st <> CDone
  /\ (completed st < length (j_names j))%nat
  /\ forall more,
      let st' := run j more st in
      (0 < tally raised (processes st'))%nat /\ ~ completed_normally st'.
Proof.
  intros Hempty st Hraised Hterm.
  assert (Hstuck : forall s,
             job_inv j s -> (0 < tally raised (processes s))%nat ->
             terminate s = false ->
             output_thread s <> CDone
             /\ (completed s < length (j_names j))%nat).
  { intros s [_ _ (k & (items & Hlog & Hitems) & _) Hsub Hfifo Hcons _ _ _
                Hcoll Hret] Hr Ht.
    specialize (Hcons Ht).
    assert (Hput : count_items (put_log s) = submitted s).
    { rewrite Hlog, count_items_app, count_items_replicate_stop.
      rewrite (count_items_fed j _ _ Hitems), length_take. lia. }
    rewrite Hfifo, count_items_app in Hput.
    split; [|lia].
    intros Hpc. specialize (Hret Hpc Ht). lia. }
  destruct (Hstuck st (job_inv_run j sched st0 Hempty) Hraised Hterm)
    as [Hpc Hdone].
  split; [exact Hpc|]. split; [exact Hdone|].
  intros more st'.
  assert (Hr' : (tally raised (processes st)
                 <= tally raised (processes st'))%nat).
  { apply (run_invariant j
             (fun s => (tally raised (processes st)
                        <= tally raised (processes s))%nat)); [|lia].
    intros s s' Hs Ht.
    destruct Ht; cbn; try frame_collect; try assumption;
      match goal with
      | Hp : processes _ !! _ = Some _ |- _ => tally_pc Hp
      end;
      match goal with
      | Hpc' : p_pc _ = _ |- _ => rewrite Hpc' in *; cbn in *; lia
      | Halive : worker_alive (p_pc ?p) = true |- _ =>
          destruct (p_pc p); try discriminate; cbn in *; lia
      end. }
  split; [lia|].
  intros (Hjoined & Hterm' & Hpc').
  assert (Hinv' : job_inv j st').
  { unfold st', st. rewrite <- run_app. now apply job_inv_run. }
  destruct (Hstuck st' Hinv' ltac:(lia) Hterm') as [Hne _]. contradiction.
Qed.

Lemma dead_worker_hangs_the_collector_witness :
  let st :=
    run Sample.job_unparsable (Sample.take_one ++ [AWorker 0])
        (start_processes Sample.job_unparsable Parallelize_new) in
  output_thread st <> CDone.
Proof.
  assert (Hempty : queues_empty Parallelize_new) by (split; reflexivity).
  intros st.
  destruct (dead_worker_hangs_the_collector Sample.job_unparsable
              (Sample.take_one ++ [AWorker 0]) Parallelize_new Hempty)
    as (Hpc & _).
  - vm_compute. lia.
  - reflexivity.
  - exact Hpc.
Defined.

(** ** Nothing lost *)




(** ** A schedule on which a job completes *)

Lemma run_step (j : job) (a : actor) (sched : list actor) (st st' : state) :
  step j a st = Some st' -> run j (a :: sched) st = run j sched st'.
Proof. intros H. cbn [run]. now rewrite H. Qed.

Lemma empty_queue_has_room (max_size : Z) : queue_full max_size [] = false.
Proof.
  unfold queue_full, capacity, SEM_VALUE_MAX. cbn [length].
  destruct (Z.leb_spec max_size 0); apply Z.leb_gt; lia.
Qed.

Lemma fit_item_name (model : ModelCPU) (name : string)
    (data segment noise : ndarray) (r : result) :
  fit_item model name data segment noise = Ok r -> r_name r = name.
Proof.
  unfold fit_item.
  destruct (convolved_models model); res_simpl; [|discriminate].
  destruct (negb _); [|intros H; inversion H; reflexivity].
  destruct (PyStr.split PyStr.underscore name) as [|ext [|numb [|? ?]]];
    res_simpl; try discriminate.
  destruct (PyStr.int ext); res_simpl; [|discriminate].
  destruct (PyStr.int numb); res_simpl; [|discriminate].
  destruct (save_mosaics model); [|intros H; inversion H; reflexivity].
  repeat (match goal with
          | |- context [or_raise KeyError ?o] => destruct o
          end; res_simpl); try discriminate.
  intros H; inversion H; reflexivity.
Qed.

Lemma h5_get_snoc_other {A : Type} (name k : string) (v : A)
    (f : list (string * A)) :
  k <> name -> h5_get name f = None -> h5_get name (f ++ [(k, v)]) = None.
Proof.
  intros Hne. induction f as [|[k' v'] f IH]; cbn.
  - intros _. destruct (String.eqb_spec k name); [contradiction|reflexivity].
  - destruct (String.eqb k' name); [discriminate|exact IH].
Qed.

(** One object goes through. *)
Lemma one_item_ready (j : job) (k : nat) (s : state) :
  j_names j = h5_keys (j_input j) ->
  NoDup (j_names j) ->
  (1 <= j_n_proc j)%nat ->
  (forall name c,
      h5_get name (j_input j) = Some c ->
      exists r, fit_item (j_model j) name (obj c) (seg c) (rms c) = Ok r) ->
  (k < length (j_names j))%nat ->
  ready j k s ->
  ready j (S k) (run j one_item s).
Proof.
  intros Hnames Hnodup Hproc Hfits Hk
         [Hev Hfeed Hsub Hin Hout Hps Hcoll Hdone Harch].
  destruct (lookup_lt_is_Some_2 (j_names j) k Hk) as [name Hname].
  assert (Hkey : name ∈ h5_keys (j_input j)).
  { rewrite <- Hnames. eapply list_elem_of_lookup_2, Hname. }
  destruct (h5_get_key name (j_input j) Hkey) as [c Hc].
  destruct (Hfits name c Hc) as [r Hr].
  pose proof (fit_item_name _ _ _ _ _ _ Hr) as Hrname.
  assert (Hp0 : processes s !! 0%nat = Some (mk_process (j_model j) WGet)).
  { rewrite Hps. apply lookup_replicate_2. lia. }
  assert (Hlt : (submitted s <? length (j_names j))%nat = true)
    by (apply Nat.ltb_lt; lia).
  assert (Hlt' : (completed s <? length (j_names j))%nat = true)
    by (apply Nat.ltb_lt; lia).
  unfold one_item.
  (* the feeder enters its loop and puts the item *)
  erewrite run_step
    by (cbn [step]; unfold feeder_step; rewrite Hfeed, Hlt, Hev; reflexivity).
  erewrite run_step
    by (cbn [step]; unfold feeder_step; cbn; rewrite Hsub, Hname, Hc, Hin,
          empty_queue_has_room; reflexivity).
  (* worker 0 takes it, fits it, puts the result and acknowledges *)
  erewrite run_step
    by (cbn [step]; unfold worker_step; cbn; rewrite Hp0; cbn; reflexivity).
  erewrite run_step
    by (cbn [step]; unfold worker_step; cbn;
        rewrite Hps, list_lookup_insert_eq
          by (rewrite length_replicate; lia);
        cbn; rewrite Hr; reflexivity).
  erewrite run_step
    by (cbn [step]; unfold worker_step; cbn;
        rewrite list_lookup_insert_eq
          by (rewrite length_insert, Hps, length_replicate; lia);
        cbn; reflexivity).
  (* the collector enters its loop and takes the result *)
  erewrite run_step
    by (cbn [step]; unfold collector_step; cbn -[Nat.ltb];
        rewrite Hcoll, Hlt', Hev; reflexivity).
  erewrite run_step
    by (cbn [step]; unfold collector_step; cbn; rewrite Hout; cbn;
        reflexivity).
  cbn [run].
  assert (Hback : <[0%nat := mk_process (j_model j) WGet]>
                    (<[0%nat := mk_process (j_model j) WAck]>
                       (<[0%nat := mk_process (j_model j)
                                     (WFit name (obj c) (seg c) (rms c))]>
                          (processes s)))
                  = processes s).
  { rewrite !list_insert_insert_eq. apply list_insert_id. exact Hp0. }
  assert (Hfresh : h5_get name (default [] (chi_files s !! j_output_file j))
                   = None).
  { apply Harch.
    eapply list_elem_of_lookup_2. rewrite lookup_drop, Nat.add_0_r.
    exact Hname. }
  assert (Hlater : forall name',
             name' ∈ drop (S k) (j_names j) ->
             name' <> name
             /\ h5_get name' (default [] (chi_files s !! j_output_file j))
                = None).
  { intros name' Hin'. split.
    - intros ->. rewrite <- (take_drop_middle _ _ _ Hname) in Hnodup.
      apply NoDup_app in Hnodup as (_ & _ & Hnd).
      apply NoDup_cons in Hnd as [Hnot _]. contradiction.
    - apply Harch. rewrite (drop_S _ _ _ Hname). now right. }
  unfold collect. destruct (r_success r) eqn:Hs.
  - cbn. unfold create_dataset. cbn. rewrite Hrname, Hfresh.
    destruct (save_mosaics (j_model j)); constructor; cbn;
      rewrite ?Hback; try assumption; try reflexivity; try congruence;
      intros name' Hin'; destruct (Hlater name' Hin') as [Hne Hold];
      rewrite lookup_insert_eq; cbn;
      apply h5_get_snoc_other; congruence.
  - constructor; cbn; rewrite ?Hback; try assumption; try reflexivity;
      try congruence.
    intros name' Hin'. now apply Hlater.
Qed.

(** Every object in turn. *)
Lemma all_items_ready (j : job) (n : nat) :
  j_names j = h5_keys (j_input j) ->
  NoDup (j_names j) ->
  (1 <= j_n_proc j)%nat ->
  (forall name c,
      h5_get name (j_input j) = Some c ->
      exists r, fit_item (j_model j) name (obj c) (seg c) (rms c) = Ok r) ->
  forall k s,
    (k + n <= length (j_names j))%nat ->
    ready j k s ->
    ready j (k + n) (run j (concat (replicate n one_item)) s).
Proof.
  intros Hnames Hnodup Hproc Hfits.
  induction n as [|n IH]; intros k s Hk Hready.
  - rewrite Nat.add_0_r. exact Hready.
  - cbn [replicate concat]. rewrite run_app.
    replace (k + S n)%nat with (S k + n)%nat by lia.
    apply IH; [lia|].
    apply one_item_ready; try assumption. lia.
Qed.

(** One worker is stopped. *)
Lemma stop_worker_stopping (j : job) (i : nat) (s : state) :
  (i < j_n_proc j)%nat ->
  stopping j i s ->
  stopping j (S i) (run j (stop_worker i) s).
Proof.
  intros Hi [Hev Hfeed Hin Hps Hcoll Hdone].
  assert (Hpi : processes s !! i = Some (mk_process (j_model j) WGet)).
  { rewrite Hps, lookup_app_r by (rewrite length_replicate; lia).
    rewrite length_replicate, Nat.sub_diag.
    apply lookup_replicate_2. lia. }
  unfold stop_worker.
  erewrite run_step
    by (cbn [step]; unfold feeder_step; rewrite Hfeed;
        replace (j_n_proc j - i)%nat with (S (j_n_proc j - S i)) by lia;
        cbn beta iota; rewrite Hin, empty_queue_has_room; reflexivity).
  erewrite run_step
    by (cbn [step]; unfold worker_step; cbn; rewrite Hpi; cbn;
        reflexivity).
  cbn [run]. constructor; cbn; try assumption; try reflexivity.
  rewrite Hps.
  replace (j_n_proc j - i)%nat with (S (j_n_proc j - S i)) by lia.
  cbn [replicate].
  rewrite insert_app_r_alt by (rewrite length_replicate; lia).
  rewrite length_replicate, Nat.sub_diag. cbn.
  rewrite cons_middle, app_assoc, <- replicate_S_end. reflexivity.
Qed.

(** Every worker in turn. *)
Lemma all_workers_stopping (j : job) (m : nat) :
  forall i s,
    (i + m <= j_n_proc j)%nat ->
    stopping j i s ->
    stopping j (i + m) (run j (concat (stop_worker <$> seq i m)) s).
Proof.
  induction m as [|m IH]; intros i s Hi Hst.
  - rewrite Nat.add_0_r. exact Hst.
  - cbn [seq fmap list_fmap concat]. rewrite run_app.
    replace (i + S m)%nat with (S i + m)%nat by lia.
    apply IH; [lia|].
    apply stop_worker_stopping; [lia|exact Hst].
Qed.

(** X15. A job can always be brought to its end. When every name of the
    input archive is listed once, there is at least one worker process,
    the loop body returns a result for every object, both queues are
    empty, the event is clear and the output archive does not exist yet,
    the job run on the orderly schedule (every object in turn, then every
    worker stopped in turn) completes normally, whatever the size of the
    input queue. *)
Theorem orderly_schedule_completes (j : job) (st0 : state) :
  j_names j = h5_keys (j_input j) ->
  NoDup (j_names j) ->
  (1 <= j_n_proc j)%nat ->
  (forall name c,
      h5_get name (j_input j) = Some c ->
      exists r, fit_item (j_model j) name (obj c) (seg c) (rms c) = Ok r) ->
  queues_empty st0 ->
  terminate st0 = false ->
  chi_files st0 !! j_output_file j = None ->
  completed_normally
    (run j (orderly (length (j_names j)) (j_n_proc j))
         (start_processes j st0)).
Proof.
  intros Hnames Hnodup Hproc Hfits [Hiq Hoq] Hev Hchi.
  unfold orderly. rewrite run_app.
  assert (H0 : ready j 0 (start_processes j st0)).
  { constructor; cbn; try assumption; try reflexivity.
    intros name _. now rewrite Hchi. }
  pose proof (all_items_ready j (length (j_names j)) Hnames Hnodup Hproc Hfits
                0%nat _ ltac:(lia) H0) as Hready.
  cbn [Nat.add] in Hready.
  set (s1 := run j (concat (replicate (length (j_names j)) one_item))
                 (start_processes j st0)) in *.
  destruct Hready as [Hev1 Hfeed1 Hsub1 Hin1 Hout1 Hps1 Hcoll1 Hdone1 _].
  change ([AFeeder; AFeeder] ++ ?l) with (AFeeder :: AFeeder :: l).
  erewrite run_step
    by (cbn [step]; unfold feeder_step;
        rewrite Hfeed1, Hsub1, Nat.ltb_irrefl; reflexivity).
  erewrite run_step
    by (cbn [step]; unfold feeder_step; cbn; rewrite Hev1; reflexivity).
  rewrite run_app.
  match goal with
  | |- context [run j (concat _) ?s] =>
      assert (Hst : stopping j 0 s)
  end.
  { constructor; cbn; rewrite ?Nat.sub_0_r; try assumption; reflexivity. }
  pose proof (all_workers_stopping j (j_n_proc j) 0%nat _ ltac:(lia) Hst)
    as Hstopped.
  cbn [Nat.add] in Hstopped.
  match goal with
  | |- context [run j (concat ?l) ?s] => set (s2 := run j (concat l) s) in *
  end.
  destruct Hstopped as [Hev2 Hfeed2 Hin2 Hps2 Hcoll2 Hdone2].
  rewrite Nat.sub_diag in Hfeed2, Hps2. cbn in Hps2.
  rewrite app_nil_r in Hps2.
  erewrite run_step
    by (cbn [step]; unfold feeder_step; rewrite Hfeed2; reflexivity).
  erewrite run_step
    by (cbn [step]; unfold collector_step; cbn -[Nat.ltb];
        rewrite Hcoll2, Hdone2, Nat.ltb_irrefl; reflexivity).
  cbn [run]. split; [|split; [exact Hev2|reflexivity]].
  unfold joined. cbn. rewrite Hps2, andb_true_r.
  apply forallb_forall. intros p Hp. apply list_elem_of_In in Hp.
  apply elem_of_replicate in Hp as [-> _]. reflexivity.
Qed.

Lemma orderly_schedule_completes_witness :
  completed_normally
    (run Sample.job2
         (orderly (length (j_names Sample.job2)) (j_n_proc Sample.job2))
         (start_processes Sample.job2 Parallelize_new)).
Proof.
  assert (Hnodup : NoDup (j_names Sample.job2)).
  { change (NoDup ["00_0001"; "00_0002"]).
    apply NoDup_cons. split.
    - intros H. apply list_elem_of_singleton in H. discriminate.
    - apply NoDup_singleton. }
  assert (Hfits : forall name c,
             h5_get name (j_input Sample.job2) = Some c ->
             exists r,
               fit_item (j_model Sample.job2) name (obj c) (seg c) (rms c)
               = Ok r).
  { intros name c.
    change (j_input Sample.job2)
      with [("00_0001", Sample.good); ("00_0002", Sample.bad)].
    cbn [h5_get].
    destruct (String.eqb_spec "00_0001" name) as [<-|_].
    - intros H. inversion H; subst c. eexists. reflexivity.
    - destruct (String.eqb_spec "00_0002" name) as [<-|_]; [|discriminate].
      intros H. inversion H; subst c. eexists. reflexivity. }
  assert (Hproc : (1 <= j_n_proc Sample.job2)%nat) by (cbn; lia).
  assert (Hempty : queues_empty Parallelize_new) by (split; reflexivity).
  exact (orderly_schedule_completes Sample.job2 Parallelize_new eq_refl
           Hnodup Hproc Hfits Hempty eq_refl eq_refl).
Defined.
